(** * DictFetch: the lookup engine, its normalizers and the search history

    A shallow embedding of the Go sources of DictFetch:
    - the two normalizers [ConvertDictEntries] and [ConvertDBnaryEntries],
    - the two provider clients [LookupDictEntry] and [LookupDBnaryEntry],
    - the aggregation engine [LookupAll] with its two goroutines and three
      buffered channels,
    - the history file functions [getRecentSearches] and [addRecentSearch].

    Go strings are byte strings: they are modelled by [string], whose
    characters are the 256 byte values.  Go [int] and [time.Duration] values
    are modelled by [Z].  The functions of [strings], [unicode/utf8],
    [unicode], [net/url] and [fmt] that the sources call are defined here
    after the Go standard library; those of [encoding/json], [net/http] and
    [path/filepath] are the fields of the class [GoLib], over which the
    clients, the engine and the history functions are defined.  The
    network, the clock and the order in which the two goroutines send are
    arguments of [LookupAll]; the disk is a state that [addRecentSearch]
    transforms. *)

From Stdlib Require Import ZArith Ascii String List Lia Bool.
From Stdlib Require Import Numbers.DecimalString Numbers.DecimalZ.
From stdpp Require Import base option list gmap strings.

Local Open Scope Z_scope.

(** ** The parts of the Go standard library the sources call *)

(** A byte of a Go string as a number. *)
Definition byte_val (c : ascii) : Z := Z.of_N (N_of_ascii c).

(** [len(s)] *)
Definition len (s : string) : Z := Z.of_nat (String.length s).

(** [s[i:]] for [0 <= i <= len(s)] *)
Fixpoint slice_from (s : string) (i : nat) : string :=
  match i, s with
  | O, _ => s
  | S i', String _ s' => slice_from s' i'
  | S _, EmptyString => EmptyString
  end.

(** [s[:i]] for [0 <= i <= len(s)] *)
Fixpoint slice_to (s : string) (i : nat) : string :=
  match i, s with
  | O, _ => EmptyString
  | S i', String c s' => String c (slice_to s' i')
  | S _, EmptyString => EmptyString
  end.

Module utf8.

Definition RuneError : Z := 65533.
Definition RuneSelf : Z := 128.
Definition UTFMax : nat := 4.

(** The continuation-byte range accepted after a given first byte,
    as in the tables [first] and [acceptRanges]. *)
Definition accept (s0 : Z) : Z * Z :=
  if s0 =? 224 then (160, 191)
  else if s0 =? 237 then (128, 159)
  else if s0 =? 240 then (144, 191)
  else if s0 =? 244 then (128, 143)
  else (128, 191).

(** The length of the sequence a first byte announces; [0] for a byte
    that cannot start a multi-byte sequence. *)
Definition seq_size (s0 : Z) : nat :=
  if (194 <=? s0) && (s0 <=? 223) then 2%nat
  else if (224 <=? s0) && (s0 <=? 239) then 3%nat
  else if (240 <=? s0) && (s0 <=? 244) then 4%nat
  else 0%nat.

Definition cont (b : Z) : bool := (128 <=? b) && (b <=? 191).

(** [utf8.DecodeRuneInString]: the first rune of [s] and its width in
    bytes; an invalid encoding yields [(RuneError, 1)]. *)
Definition DecodeRuneInString (s : string) : Z * nat :=
  match s with
  | EmptyString => (RuneError, 0%nat)
  | String c0 r0 =>
    let s0 := byte_val c0 in
    if s0 <? RuneSelf then (s0, 1%nat)
    else
      let sz := seq_size s0 in
      if Nat.eqb sz 0 then (RuneError, 1%nat)
      else if Nat.ltb (String.length s) sz then (RuneError, 1%nat)
      else
        match r0 with
        | EmptyString => (RuneError, 1%nat)
        | String c1 r1 =>
          let s1 := byte_val c1 in
          let '(lo, hi) := accept s0 in
          if (s1 <? lo) || (hi <? s1) then (RuneError, 1%nat)
          else if Nat.leb sz 2 then
            (Z.lor (Z.shiftl (Z.land s0 31) 6) (Z.land s1 63), 2%nat)
          else
            match r1 with
            | EmptyString => (RuneError, 1%nat)
            | String c2 r2 =>
              let s2 := byte_val c2 in
              if negb (cont s2) then (RuneError, 1%nat)
              else if Nat.leb sz 3 then
                (Z.lor (Z.lor (Z.shiftl (Z.land s0 15) 12)
                              (Z.shiftl (Z.land s1 63) 6))
                       (Z.land s2 63), 3%nat)
              else
                match r2 with
                | EmptyString => (RuneError, 1%nat)
                | String c3 _ =>
                  let s3 := byte_val c3 in
                  if negb (cont s3) then (RuneError, 1%nat)
                  else
                    (Z.lor (Z.lor (Z.lor (Z.shiftl (Z.land s0 7) 18)
                                         (Z.shiftl (Z.land s1 63) 12))
                                  (Z.shiftl (Z.land s2 63) 6))
                           (Z.land s3 63), 4%nat)
                end
            end
        end
  end.

(** [utf8.RuneStart]: the byte is not a continuation byte. *)
Definition RuneStart (b : Z) : bool := negb (Z.land b 192 =? 128).

(** The backward scan of [DecodeLastRuneInString]: from [start], go
    down to [lim] until a byte that can start a rune. *)
Fixpoint scan_back (fuel : nat) (s : string) (start lim : Z) : Z :=
  match fuel with
  | O => start
  | S fuel' =>
    if start <? lim then start
    else
      match String.get (Z.to_nat start) s with
      | Some c => if RuneStart (byte_val c) then start
                  else scan_back fuel' s (start - 1) lim
      | None => start
      end
  end.

(** [utf8.DecodeLastRuneInString]: the last rune of [s] and its width. *)
Definition DecodeLastRuneInString (s : string) : Z * nat :=
  let e := len s in
  if e =? 0 then (RuneError, 0%nat)
  else
    let start := e - 1 in
    match String.get (Z.to_nat start) s with
    | None => (RuneError, 0%nat)
    | Some c =>
      let r := byte_val c in
      if r <? RuneSelf then (r, 1%nat)
      else
        let lim := Z.max 0 (e - Z.of_nat UTFMax) in
        let start := scan_back UTFMax s (start - 1) lim in
        let start := Z.max 0 start in
        let '(r, size) := DecodeRuneInString (slice_from s (Z.to_nat start)) in
        if start + Z.of_nat size =? e then (r, size) else (RuneError, 1%nat)
    end.

End utf8.

Module unicode.

(** [unicode.IsSpace]: the Latin-1 white space characters and the other
    code points with the White_Space property. *)
Definition IsSpace (r : Z) : bool :=
  if r <=? 255 then
    (r =? 9) || (r =? 10) || (r =? 11) || (r =? 12) || (r =? 13)
    || (r =? 32) || (r =? 133) || (r =? 160)
  else
    (r =? 5760) || ((8192 <=? r) && (r <=? 8202)) || (r =? 8232)
    || (r =? 8233) || (r =? 8239) || (r =? 8287) || (r =? 12288).

End unicode.

Module strings.

(** The table [asciiSpace] of package [strings]. *)
Definition asciiSpace (b : Z) : bool :=
  (b =? 9) || (b =? 10) || (b =? 11) || (b =? 12) || (b =? 13) || (b =? 32).

(** [indexFunc(s, f, truth)]: the byte index of the first rune [r] of [s]
    with [f r = truth], or [-1].  [i] is the index of [s] in the whole
    string; the loop is [for i, r := range s]. *)
Fixpoint indexFunc_from (fuel : nat) (i : Z) (s : string)
    (f : Z -> bool) (truth : bool) : Z :=
  match fuel with
  | O => -1
  | S fuel' =>
    match s with
    | EmptyString => -1
    | _ =>
      let '(r, w) := utf8.DecodeRuneInString s in
      if Bool.eqb (f r) truth then i
      else indexFunc_from fuel' (i + Z.of_nat w) (slice_from s w) f truth
    end
  end.

Definition indexFunc (s : string) (f : Z -> bool) (truth : bool) : Z :=
  indexFunc_from (String.length s) 0 s f truth.

(** [lastIndexFunc(s, f, truth)]: the loop [for i := len(s); i > 0;]. *)
Fixpoint lastIndexFunc_from (fuel : nat) (i : Z) (s : string)
    (f : Z -> bool) (truth : bool) : Z :=
  match fuel with
  | O => -1
  | S fuel' =>
    if i <=? 0 then -1
    else
      let '(r, size) := utf8.DecodeLastRuneInString (slice_to s (Z.to_nat i)) in
      let i := i - Z.of_nat size in
      if Bool.eqb (f r) truth then i
      else lastIndexFunc_from fuel' i s f truth
  end.

Definition lastIndexFunc (s : string) (f : Z -> bool) (truth : bool) : Z :=
  lastIndexFunc_from (String.length s) (len s) s f truth.

Definition TrimLeftFunc (s : string) (f : Z -> bool) : string :=
  let i := indexFunc s f false in
  if i =? -1 then EmptyString else slice_from s (Z.to_nat i).

Definition TrimRightFunc (s : string) (f : Z -> bool) : string :=
  let i := lastIndexFunc s f false in
  let i :=
    match (if 0 <=? i then String.get (Z.to_nat i) s else None) with
    | Some c =>
      if utf8.RuneSelf <=? byte_val c
      then i + Z.of_nat (snd (utf8.DecodeRuneInString (slice_from s (Z.to_nat i))))
      else i + 1
    | None => i + 1
    end in
  slice_to s (Z.to_nat i).

Definition TrimFunc (s : string) (f : Z -> bool) : string :=
  TrimRightFunc (TrimLeftFunc s f) f.

(** The second loop of [TrimSpace], on [s = s0[start:]], with [stop]
    counted from [start]. *)
Fixpoint trimSpace_stop (stop : nat) (s : string) : string :=
  match stop with
  | O => EmptyString
  | S k =>
    match String.get k s with
    | Some c =>
      if utf8.RuneSelf <=? byte_val c
      then TrimRightFunc (slice_to s stop) unicode.IsSpace
      else if asciiSpace (byte_val c) then trimSpace_stop k s
      else slice_to s stop
    | None => slice_to s stop
    end
  end.

(** [strings.TrimSpace]: the first loop skips leading ASCII white space
    and hands over to the Unicode-aware functions at the first byte
    [>= utf8.RuneSelf]. *)
Fixpoint TrimSpace (s : string) : string :=
  match s with
  | EmptyString => EmptyString
  | String c s' =>
    if utf8.RuneSelf <=? byte_val c then TrimFunc s unicode.IsSpace
    else if asciiSpace (byte_val c) then TrimSpace s'
    else trimSpace_stop (String.length s) s
  end.

(** [bytealg.LastIndexByteString], which [strings.LastIndex(s, substr)]
    calls when [len(substr) = 1]: the index of the last byte equal to
    [c], or [-1].  [i] is the index of the first byte of [s]. *)
Fixpoint LastIndexByte_from (i : Z) (s : string) (c : ascii) : Z :=
  match s with
  | EmptyString => -1
  | String a s' =>
    let r := LastIndexByte_from (i + 1) s' c in
    if r =? -1 then (if Ascii.eqb a c then i else -1) else r
  end.

Definition LastIndexByte (s : string) (c : ascii) : Z :=
  LastIndexByte_from 0 s c.

End strings.

(** [c] occurs in [s]. *)
Fixpoint hasByte (c : ascii) (s : string) : bool :=
  match s with
  | EmptyString => false
  | String a s' => Ascii.eqb a c || hasByte c s'
  end.

(** ** The data model (part_001: [Definition], [DictEntry], [SparqlEntry],
       [LookupTiming]) *)

(** The struct [Definition].  Its field [Definition] is named
    [Definition_] here, [Definition] being a reserved word. *)
Record DefinitionT : Type := mkDefinition {
  Word : string;
  PartOfSpeech : string;
  Definition_ : string;
  Example : string;
  Source : string
}.

(** An element of [DictEntry.Meanings[i].Definitions]. *)
Record DictSense : Type := mkDictSense {
  sense_Definition : string;
  sense_Example : string;
  sense_Synonyms : list string;
  sense_Antonyms : list string
}.

(** An element of [DictEntry.Meanings]. *)
Record DictMeaning : Type := mkDictMeaning {
  meaning_PartOfSpeech : string;
  meaning_Definitions : list DictSense
}.

(** The struct [DictEntry] (the dictionaryapi.dev response structure). *)
Record DictEntry : Type := mkDictEntry {
  entry_Word : string;
  entry_Meanings : list DictMeaning
}.

(** The struct [SparqlEntry] (the DBnary response structure);
    a binding is a [map[string]map[string]string]. *)
Record SparqlEntry : Type := mkSparqlEntry {
  Head_Vars : list string;
  Results_Bindings : list (gmap string (gmap string string))
}.

(** The struct [LookupTiming].  [Sources] is [None] for the nil map of the
    zero value [LookupTiming{}] and [Some m] for a map made by [make]. *)
Record LookupTiming : Type := mkLookupTiming {
  Total : Z;
  Sources : option (gmap string Z)
}.

(** [LookupTiming{}] *)
Definition LookupTiming_zero : LookupTiming :=
  {| Total := 0; Sources := None |}.

(** Reading a Go map at a key: the zero value when the key is missing. *)
Definition map_index (m : gmap string string) (k : string) : string :=
  default EmptyString (m !! k).

(** ** The normalizers (part_001, lines 239-293) *)

(** The body of the innermost loop of [ConvertDictEntries]. *)
Definition convertSense (entry : DictEntry) (meaning : DictMeaning)
    (definitions : list DefinitionT) (def : DictSense) : list DefinitionT :=
  definitions ++ [ {| Word := entry_Word entry;
                      PartOfSpeech := meaning_PartOfSpeech meaning;
                      Definition_ := sense_Definition def;
                      Example := sense_Example def;
                      Source := "dictionaryapi.dev" |} ].

(** [for _, def := range meaning.Definitions] *)
Definition convertMeaning (entry : DictEntry)
    (definitions : list DefinitionT) (meaning : DictMeaning) : list DefinitionT :=
  fold_left (convertSense entry meaning) (meaning_Definitions meaning) definitions.

(** [for _, meaning := range entry.Meanings] *)
Definition convertEntry (definitions : list DefinitionT) (entry : DictEntry)
    : list DefinitionT :=
  fold_left (convertMeaning entry) (entry_Meanings entry) definitions.

(** [ConvertDictEntries]: [var definitions []Definition] and the loop
    [for _, entry := range entries]. *)
Definition ConvertDictEntries (entries : list DictEntry) : list DefinitionT :=
  fold_left convertEntry entries [].

(** [x := ""; if v, ok := binding[k]; ok { x = v["value"] }], the way
    [ConvertDBnaryEntries] reads the variables of a binding. *)
Definition bindingValue (binding : gmap string (gmap string string))
    (k : string) : string :=
  match binding !! k with
  | Some v => map_index v "value"
  | None => EmptyString
  end.

(** The part of speech of a binding (lines 269-275). *)
Definition bindingPos (binding : gmap string (gmap string string)) : string :=
  match binding !! "partOfSpeech" with
  | Some v =>
    let pos := map_index v "value" in
    let i := strings.LastIndexByte pos "#" in
    if negb (i =? -1) && (i + 1 <? len pos)
    then slice_from pos (Z.to_nat (i + 1))
    else pos
  | None => EmptyString
  end.

(** The body of the inner loop of [ConvertDBnaryEntries]; [continue]
    leaves [definitions] as it is. *)
Definition convertBinding (word : string) (definitions : list DefinitionT)
    (binding : gmap string (gmap string string)) : list DefinitionT :=
  let def := bindingValue binding "definition" in
  if String.eqb (strings.TrimSpace def) EmptyString then definitions
  else
    let pos := bindingPos binding in
    let ex := bindingValue binding "example" in
    definitions ++ [ {| Word := word;
                        PartOfSpeech := pos;
                        Definition_ := def;
                        Example := ex;
                        Source := "DBnary" |} ].

(** [for _, binding := range entry.Results.Bindings] *)
Definition convertSparqlEntry (word : string) (definitions : list DefinitionT)
    (entry : SparqlEntry) : list DefinitionT :=
  fold_left (convertBinding word) (Results_Bindings entry) definitions.

(** [ConvertDBnaryEntries] *)
Definition ConvertDBnaryEntries (entries : list SparqlEntry) (word : string)
    : list DefinitionT :=
  fold_left (convertSparqlEntry word) entries [].

(** ** Notions used to state the properties of the normalizers *)

(** All bytes of [s] are below [utf8.RuneSelf]. *)
Definition ascii_only (s : string) : Prop :=
  ∀ i c, String.get i s = Some c → byte_val c < utf8.RuneSelf.

(** All bytes of [s] are ASCII white space. *)
Definition ascii_blank (s : string) : Prop :=
  ∀ i c, String.get i s = Some c → strings.asciiSpace (byte_val c) = true.

(** All binding rows of a graph-query result, in order. *)
Definition bindingRows (entries : list SparqlEntry)
    : list (gmap string (gmap string string)) :=
  flat_map Results_Bindings entries.

(** The [definition] variable of a row is absent, or its value is blank
    after trimming. *)
Definition blankDefinition (binding : gmap string (gmap string string)) : bool :=
  match binding !! "definition" with
  | None => true
  | Some v => String.eqb (strings.TrimSpace (map_index v "value")) EmptyString
  end.

(** The rows that are not dropped. *)
Definition keptRows (entries : list SparqlEntry)
    : list (gmap string (gmap string string)) :=
  List.filter (fun b => negb (blankDefinition b)) (bindingRows entries).

(** The number of leaf definitions of a nested-meanings record:
    the sum of [D_i] over its meanings. *)
Definition leafCount (entry : DictEntry) : nat :=
  list_sum (map (fun m => List.length (meaning_Definitions m)) (entry_Meanings entry)).

(** The [Definition] made from a row that is kept. *)
Definition rowDefinition (word : string)
    (binding : gmap string (gmap string string)) : DefinitionT :=
  {| Word := word;
     PartOfSpeech := bindingPos binding;
     Definition_ := bindingValue binding "definition";
     Example := bindingValue binding "example";
     Source := "DBnary" |}.

(** Rows for the examples: a complete row, rows with a blank and with an
    absent definition, and rows whose part of speech has an empty fragment
    or no ['#']. *)
Definition valueOf (s : string) : gmap string string := {[ "value" := s ]}.

Definition nounRow : gmap string (gmap string string) :=
  {[ "definition" := valueOf "the land alongside a river";
     "partOfSpeech" := valueOf "http://example.org/ontology#noun" ]}.

Definition blankRow : gmap string (gmap string string) :=
  {[ "definition" := valueOf "  ";
     "partOfSpeech" := valueOf "http://example.org/ontology#noun" ]}.

Definition absentRow : gmap string (gmap string string) :=
  {[ "partOfSpeech" := valueOf "http://example.org/ontology#noun" ]}.

Definition emptyFragmentRow : gmap string (gmap string string) :=
  {[ "definition" := valueOf "the land alongside a river";
     "partOfSpeech" := valueOf "http://example.org/ontology#" ]}.

Definition plainPosRow : gmap string (gmap string string) :=
  {[ "definition" := valueOf "the land alongside a river";
     "partOfSpeech" := valueOf "noun" ]}.

Definition noPosRow : gmap string (gmap string string) :=
  {[ "definition" := valueOf "the land alongside a river" ]}.

(** ** Errors, [fmt] and [net/url] *)

(** Go [error] values, by the package that makes them. *)
Inductive error : Type :=
| Errorf (msg : string)                   (* fmt.Errorf *)
| NetError (msg : string)                 (* net/http: no connection, timeout *)
| JSONError (msg : string)                (* encoding/json, and reading the body *)
| PathError (notExist : bool) (path : string).   (* os: *fs.PathError *)

(** [os.IsNotExist] *)
Definition IsNotExist (err : error) : bool :=
  match err with
  | PathError notExist _ => notExist
  | _ => false
  end.

(** The verb [%d] of [fmt]. *)
Definition Itoa (n : Z) : string := NilEmpty.string_of_int (Z.to_int n).

Definition dq : string := String (ascii_of_nat 34) EmptyString.
Definition tab : string := String (ascii_of_nat 9) EmptyString.
Definition nl : string := String (ascii_of_nat 10) EmptyString.

Module url.

Inductive encoding : Type := encodePathSegment | encodeQueryComponent.

Definition is_alnum (c : Z) : bool :=
  ((97 <=? c) && (c <=? 122)) || ((65 <=? c) && (c <=? 90))
  || ((48 <=? c) && (c <=? 57)).

(** [shouldEscape(c, mode)] for the two modes in use. *)
Definition shouldEscape (c : ascii) (mode : encoding) : bool :=
  if is_alnum (byte_val c) then false
  else
    match c with
    | "-" | "_" | "." | "~" => false
    | "$" | "&" | "+" | "," | "/" | ":" | ";" | "=" | "?" | "@" =>
      match mode with
      | encodePathSegment =>
        match c with
        | "/" | ";" | "," | "?" => true
        | _ => false
        end
      | encodeQueryComponent => true
      end
    | _ => true
    end%char.

Definition upperhex (n : Z) : ascii :=
  if n <? 10 then ascii_of_N (Z.to_N (48 + n)) else ascii_of_N (Z.to_N (55 + n)).

(** [escape(s, mode)] *)
Fixpoint escape (s : string) (mode : encoding) : string :=
  match s with
  | EmptyString => EmptyString
  | String c s' =>
    if shouldEscape c mode then
      match c, mode with
      | " "%char, encodeQueryComponent => String "+" (escape s' mode)
      | _, _ =>
        String "%" (String (upperhex (Z.shiftr (byte_val c) 4))
                     (String (upperhex (Z.land (byte_val c) 15))
                        (escape s' mode)))
      end
    else String c (escape s' mode)
  end.

Definition PathEscape (s : string) : string := escape s encodePathSegment.
Definition QueryEscape (s : string) : string := escape s encodeQueryComponent.

(** [params := url.Values{}; params.Add(k, v); params.Encode()] *)
Definition Values_Encode1 (k v : string) : string :=
  (QueryEscape k ++ "=" ++ QueryEscape v)%string.

End url.

(** ** [net/http], [encoding/json] and [path/filepath] *)

(** [*http.Response], as far as the clients read it. *)
Record Response : Type := mkResponse {
  StatusCode : Z;
  Body : string
}.

(** [*http.Request] *)
Record Request : Type := mkRequest {
  Method : string;
  URL : string;
  Header : gmap string (list string)
}.

(** [req.Header.Set(key, value)] for a key in canonical form. *)
Definition Header_Set (req : Request) (key value : string) : Request :=
  {| Method := Method req; URL := URL req;
     Header := <[ key := [value] ]> (Header req) |}.

Definition StatusOK : Z := 200.

(** [json.Token]: a delimiter, or a value of a basic type. *)
Inductive Token : Type :=
| Delim (c : ascii)
| TokBool (b : bool)
| TokNumber (lit : string)
| TokString (s : string)
| TokNull.

(** The functions of the standard library that the sources call and that
    are not defined above.  [Decoder] is the state of a [*json.Decoder]
    reading a response body; [Decoder_Buffered] is the number of bytes of
    the body it has not consumed yet. *)
Class GoLib : Type := {
  (* path/filepath *)
  filepath_Dir : string → string;
  filepath_Join : string → string → string;
  (* net/http *)
  http_NewRequest : string → string → Request + error;
  (* encoding/json on []string *)
  json_Marshal : list string → string + error;
  json_Unmarshal : string → list string + error;
  (* encoding/json: the streaming decoder *)
  Decoder : Type;
  json_NewDecoder : string → Decoder;
  Decoder_Token : Decoder → (Token + error) * Decoder;
  Decoder_More : Decoder → bool;
  Decoder_DecodeDictEntry : Decoder → (DictEntry + error) * Decoder;
  Decoder_DecodeSparqlEntry : Decoder → (SparqlEntry + error) * Decoder;
  Decoder_Buffered : Decoder → nat
}.

(** What the streaming decoder guarantees on a finite body: there is more
    only when input is left, and a decoded element consumes input. *)
Class GoLibLaws (L : GoLib) : Prop := {
  More_Buffered : ∀ d, Decoder_More d = true → (0 < Decoder_Buffered d)%nat;
  Decode_Buffered : ∀ d entry d',
    Decoder_DecodeDictEntry d = (inl entry, d') →
    (Decoder_Buffered d' < Decoder_Buffered d)%nat
}.

(** The network: what [client.Get] and [client.Do] return for a request. *)
Record Network : Type := mkNetwork {
  client_Get : string → Response + error;
  client_Do : Request → Response + error
}.

(** ** The provider clients (part_001, lines 126-237) *)

Section clients.

Context {L : GoLib}.

(** [fmt.Errorf("API error: received status code %d", response.StatusCode)] *)
Definition statusError (code : Z) : error :=
  Errorf ("API error: received status code " ++ Itoa code)%string.

Definition expectedArrayError : error :=
  Errorf "JSON error: Expected array but got something else".

(** The loop [for decoder.More() { ... }] of [LookupDictEntry].  [None]
    stands for a loop that has not ended after [fuel] elements. *)
Fixpoint decodeEntries (fuel : nat) (decoder : Decoder)
    (entries : list DictEntry)
    : option ((list DictEntry + error) * Decoder) :=
  if Decoder_More decoder then
    match fuel with
    | O => None
    | S fuel' =>
      match Decoder_DecodeDictEntry decoder with
      | (inr err, decoder') => Some (inr err, decoder')
      | (inl entry, decoder') =>
        decodeEntries fuel' decoder' (entries ++ [entry])
      end
    end
  else Some (inl entries, decoder).

(** Lines 144-168 of [LookupDictEntry]: the decoding of the body.  The
    loop gets as much fuel as the decoder has bytes left, with which it
    ends for a decoder that keeps [GoLibLaws]; the case [None] is there
    for the other decoders only. *)
Definition decodeDictBody (body : string) : list DictEntry * option error :=
  let decoder := json_NewDecoder body in
  match Decoder_Token decoder with
  | (inr err, _) => ([], Some err)
  | (inl token, decoder) =>
    match token with
    | Delim "["%char =>
      match decodeEntries (Decoder_Buffered decoder) decoder [] with
      | None => ([], Some (JSONError "unexpected end of JSON input"))
      | Some (inr err, _) => ([], Some err)
      | Some (inl entries, decoder) =>
        match Decoder_Token decoder with
        | (inr err, _) => ([], Some err)
        | (inl _, _) => (entries, None)
        end
      end
    | _ => ([], Some expectedArrayError)
    end
  end.

(** [LookupDictEntry] *)
Definition LookupDictEntry (net : Network) (word : string)
    : list DictEntry * option error :=
  let apiURL :=
    ("https://api.dictionaryapi.dev/api/v2/entries/en/" ++ url.PathEscape word)%string in
  match client_Get net apiURL with
  | inr err => ([], Some err)
  | inl response =>
    if negb (StatusCode response =? StatusOK) then
      ([], Some (statusError (StatusCode response)))
    else decodeDictBody (Body response)
  end.

Definition endpoint : string := "http://kaiko.getalp.org/sparql".

(** The raw string literal of [LookupDBnaryEntry] (lines 173-206), line
    by line, with [word] in the place of the verb [%s]. *)
Definition queryLines (word : string) : list string :=
  [ "";
    tab ++ "PREFIX ontolex: <http://www.w3.org/ns/lemon/ontolex#>";
    tab ++ "PREFIX lexinfo: <http://www.lexinfo.net/ontology/2.0/lexinfo#>";
    tab ++ "PREFIX dbnary: <http://kaiko.getalp.org/dbnary#>";
    tab ++ "PREFIX skos:   <http://www.w3.org/2004/02/skos/core#>";
    tab ++ "PREFIX rdf:    <http://www.w3.org/1999/02/22-rdf-syntax-ns#>";
    tab;
    tab ++ "SELECT ?definition ?partOfSpeech ?example";
    tab ++ "WHERE {";
    tab ++ "  ?entry ontolex:canonicalForm/ontolex:writtenRep " ++ dq ++ word ++ dq ++ "@en ;";
    tab ++ "         ontolex:sense ?sense .";
    tab;
    tab ++ "  OPTIONAL { ?entry lexinfo:partOfSpeech ?partOfSpeech . }";
    tab;
    tab ++ "  # Definitions can be literals OR blank nodes; if it's a node, pull the literal from it.";
    tab ++ "  OPTIONAL {";
    tab ++ "    ?sense (skos:definition|dbnary:definition|ontolex:definition) ?defNode .";
    tab ++ "    OPTIONAL { ?defNode (rdf:value|skos:definition) ?defLit . }";
    tab ++ "    BIND( IF(isLiteral(?defNode), ?defNode, ?defLit) AS ?definition )";
    tab ++ "  }";
    tab;
    tab ++ "  # Examples are usually literals, but handle node case similarly (most data won't need this).";
    tab ++ "  OPTIONAL {";
    tab ++ "    ?sense (dbnary:example|ontolex:usage) ?exNode .";
    tab ++ "    OPTIONAL { ?exNode rdf:value ?exLit . }";
    tab ++ "    BIND( IF(isLiteral(?exNode), ?exNode, ?exLit) AS ?example )";
    tab ++ "  }";
    tab;
    tab ++ "  # Optional: prefer English when there is a language tag";
    tab ++ "  FILTER( !BOUND(?definition) || lang(?definition) = " ++ dq ++ dq ++ " || langMatches(lang(?definition), " ++ dq ++ "en" ++ dq ++ ") )";
    tab ++ "  FILTER( !BOUND(?example)    || lang(?example)    = " ++ dq ++ dq ++ " || langMatches(lang(?example),    " ++ dq ++ "en" ++ dq ++ ") )";
    tab ++ "}";
    tab ++ "LIMIT 50";
    "    " ]%string.

(** [fmt.Sprintf(`...`, word)] *)
Definition sparqlQuery (word : string) : string :=
  String.concat nl (queryLines word).

(** Lines 208-219 of [LookupDBnaryEntry]: the request. *)
Definition sparqlRequest (word : string) : Request + error :=
  let query := sparqlQuery word in
  let apiURL := (endpoint ++ "?" ++ url.Values_Encode1 "query" query)%string in
  match http_NewRequest "GET" apiURL with
  | inr err => inr err
  | inl req =>
    let req := Header_Set req "Accept" "application/sparql-results+json" in
    let req := Header_Set req "User-Agent" "gofetch/0.1 (+local)" in
    inl req
  end.

(** Lines 231-236 of [LookupDBnaryEntry]: the decoding of the body. *)
Definition decodeSparqlBody (body : string) : list SparqlEntry * option error :=
  match Decoder_DecodeSparqlEntry (json_NewDecoder body) with
  | (inr err, _) => ([], Some err)
  | (inl result, _) => ([result], None)
  end.

(** [LookupDBnaryEntry] *)
Definition LookupDBnaryEntry (net : Network) (word : string)
    : list SparqlEntry * option error :=
  match sparqlRequest word with
  | inr err => ([], Some err)
  | inl req =>
    match client_Do net req with
    | inr err => ([], Some err)
    | inl response =>
      if negb (StatusCode response =? StatusOK) then
        ([], Some (statusError (StatusCode response)))
      else decodeSparqlBody (Body response)
    end
  end.

End clients.

(** ** The aggregation engine (part_001, lines 49-124) *)

(** What [time.Since] returns at its three calls: in the first goroutine,
    in the second goroutine, and for the total. *)
Record Clock : Type := mkClock {
  since_dict : Z;
  since_dbnary : Z;
  since_total : Z
}.

(** A send on one of the three channels. *)
Inductive send : Type :=
| SendDefs (defs : list DefinitionT)          (* defChan <- defs *)
| SendErr (err : error)                      (* errChan <- err *)
| SendDur (name : string) (dur : Z).         (* durChan <- {name, dur} *)

(** The contents of the three buffered channels, oldest message first. *)
Record Channels : Type := mkChannels {
  defChan : list (list DefinitionT);
  errChan : list error;
  durChan : list (string * Z)
}.

(** [make(chan ..., 2)], three times. *)
Definition newChannels : Channels :=
  {| defChan := []; errChan := []; durChan := [] |}.

Definition capacity : nat := 2.

(** The number of messages in the channel a send goes to. *)
Definition queued (c : Channels) (a : send) : nat :=
  match a with
  | SendDefs _ => List.length (defChan c)
  | SendErr _ => List.length (errChan c)
  | SendDur _ _ => List.length (durChan c)
  end.

Definition deliver (c : Channels) (a : send) : Channels :=
  match a with
  | SendDefs defs =>
    {| defChan := defChan c ++ [defs]; errChan := errChan c; durChan := durChan c |}
  | SendErr err =>
    {| defChan := defChan c; errChan := errChan c ++ [err]; durChan := durChan c |}
  | SendDur name dur =>
    {| defChan := defChan c; errChan := errChan c; durChan := durChan c ++ [(name, dur)] |}
  end.

(** The two goroutines and the channels while they run: the sends each
    goroutine has still to do, in program order. *)
Record Running : Type := mkRunning {
  dictPending : list send;
  dbnaryPending : list send;
  chans : Channels
}.

(** One send of one goroutine; a send needs room in its channel. *)
Inductive step : Running → Running → Prop :=
| step_dict (a : send) (p1 p2 : list send) (c : Channels) :
    (queued c a < capacity)%nat →
    step (mkRunning (a :: p1) p2 c) (mkRunning p1 p2 (deliver c a))
| step_dbnary (a : send) (p1 p2 : list send) (c : Channels) :
    (queued c a < capacity)%nat →
    step (mkRunning p1 (a :: p2) c) (mkRunning p1 p2 (deliver c a)).

(** Some steps, from the first state to the second. *)
Inductive steps : Running → Running → Prop :=
| steps_refl (r : Running) : steps r r
| steps_step (r1 r2 r3 : Running) : step r1 r2 → steps r2 r3 → steps r1 r3.

(** The order of the sends under a schedule: [true] lets the first
    goroutine send, [false] the second; a goroutine that is done is passed
    over, and after the schedule the first goroutine runs before the
    second. *)
Fixpoint interleave (sched : list bool) (p1 p2 : list send) : list send :=
  match sched with
  | [] => p1 ++ p2
  | true :: sched' =>
    match p1 with
    | a :: p1' => a :: interleave sched' p1' p2
    | [] => interleave sched' [] p2
    end
  | false :: sched' =>
    match p2 with
    | a :: p2' => a :: interleave sched' p1 p2'
    | [] => interleave sched' p1 []
    end
  end.

Section engine.

Context {L : GoLib}.

(** The first goroutine (lines 68-81). *)
Definition dictTask (net : Network) (clock : Clock) (word : string) : list send :=
  match LookupDictEntry net word with
  | (_, Some err) => [SendErr err]
  | (entries, None) =>
    [SendDefs (ConvertDictEntries entries);
     SendDur "dictionaryapi.dev" (since_dict clock)]
  end.

(** The second goroutine (lines 83-96). *)
Definition dbnaryTask (net : Network) (clock : Clock) (word : string) : list send :=
  match LookupDBnaryEntry net word with
  | (_, Some err) => [SendErr err]
  | (entries, None) =>
    [SendDefs (ConvertDBnaryEntries entries word);
     SendDur "DBnary" (since_dbnary clock)]
  end.

(** The channels when both goroutines are done and the channels are
    closed (lines 98-103). *)
Definition closedChannels (net : Network) (clock : Clock) (sched : list bool)
    (word : string) : Channels :=
  fold_left deliver
    (interleave sched (dictTask net clock word) (dbnaryTask net clock word))
    newChannels.

(** [for defs := range defChan { allDefinitions = append(allDefinitions, defs...) }] *)
Definition drainDefs (defChan : list (list DefinitionT)) : list DefinitionT :=
  fold_left (fun allDefinitions defs => allDefinitions ++ defs) defChan [].

(** [for d := range durChan { timings.Sources[d.name] = d.dur }] *)
Definition drainDurs (durChan : list (string * Z)) (sources : gmap string Z)
    : gmap string Z :=
  fold_left (fun sources d => <[ fst d := snd d ]> sources) durChan sources.

(** [LookupAll], for the order of the sends given by [sched]. *)
Definition LookupAll (net : Network) (clock : Clock) (sched : list bool)
    (word : string) : list DefinitionT * LookupTiming * option error :=
  let c := closedChannels net clock sched word in
  let allDefinitions := drainDefs (defChan c) in
  let timings := {| Total := since_total clock;
                    Sources := Some (drainDurs (durChan c) ∅) |} in
  match errChan c with
  | err :: _ => (allDefinitions, LookupTiming_zero, Some err)
  | [] => (allDefinitions, timings, None)
  end.

End engine.

(** ** The search history (part_000) *)

Definition nameRecent : string := "recent_search.json".

(** The files and directories on disk; an operation on a path in [denied]
    fails with an error that is not "does not exist". *)
Record FS : Type := mkFS {
  files : gmap string string;
  dirs : gset string;
  denied : gset string
}.

(** [os.ReadFile] *)
Definition ReadFile (fs : FS) (path : string) : string + error :=
  if decide (path ∈ denied fs) then inr (PathError false path)
  else
    match files fs !! path with
    | Some data => inl data
    | None => inr (PathError true path)
    end.

(** [os.MkdirAll] *)
Definition MkdirAll (fs : FS) (dir : string) : FS + error :=
  if decide (dir ∈ denied fs) then inr (PathError false dir)
  else inl {| files := files fs; dirs := {[ dir ]} ∪ dirs fs; denied := denied fs |}.

(** [os.WriteFile], which replaces the content of the file.  The refusal
    is the one met when the file is opened, which leaves the file as it
    was; a write that fails after the file was opened and truncated is
    not represented on this disk. *)
Definition WriteFile (fs : FS) (path : string) (data : string) : FS + error :=
  if decide (path ∈ denied fs) then inr (PathError false path)
  else inl {| files := <[ path := data ]> (files fs); dirs := dirs fs; denied := denied fs |}.

Section history.

Context {L : GoLib}.

(** [caller] is the file name [runtime.Caller(0)] reports, [None] when it
    reports [ok = false]. *)
Variable caller : option string.

(** [getRecentSearches] *)
Definition getRecentSearches (fs : FS) : list string * option error :=
  match caller with
  | None => ([], Some (Errorf "cannot resolve path"))
  | Some file =>
    let fileName := nameRecent in
    let base := filepath_Dir file in
    let dir := filepath_Join base "data" in
    let fullPath := filepath_Join dir fileName in
    match ReadFile fs fullPath with
    | inr err =>
      if IsNotExist err then ([], None) else ([], Some err)
    | inl jsonString =>
      match json_Unmarshal jsonString with
      | inr err => ([], Some err)
      | inl recentSearches => (recentSearches, None)
      end
    end
  end.

(** [addRecentSearch]: the bytes written and the error, and the disk
    afterwards. *)
Definition addRecentSearch (word : string) (fs : FS)
    : (string * option error) * FS :=
  let '(existingSearches, err) := getRecentSearches fs in
  if match err with
     | Some e => negb (IsNotExist e)
     | None => false
     end
  then ((EmptyString, err), fs)
  else
    let existingSearches := existingSearches ++ [word] in
    match json_Marshal existingSearches with
    | inr err => ((EmptyString, Some err), fs)
    | inl jsonString =>
      match caller with
      | None => ((EmptyString, Some (Errorf "cannot resolve path")), fs)
      | Some file =>
        let base := filepath_Dir file in
        let dir := filepath_Join base "data" in
        match MkdirAll fs dir with
        | inr err => ((EmptyString, Some err), fs)
        | inl fs =>
          let fileName := nameRecent in
          let fullPath := filepath_Join dir fileName in
          match WriteFile fs fullPath jsonString with
          | inr err => ((EmptyString, Some err), fs)
          | inl fs => ((jsonString, None), fs)
          end
        end
      end
    end.

End history.


(** ** A small instance of the library interface

    A reader and writer for JSON texts, a streaming decoder over it, and
    path functions for clean slash-separated paths.  It is what the
    functions above are run with on concrete response bodies and files.
    Field names are matched exactly and numbers are kept as text. *)

Module MiniJSON.

#[local] Unset Elimination Schemes.

Inductive json : Type :=
| JNull
| JBool (b : bool)
| JNumber (lit : string)
| JString (s : string)
| JArray (elems : list json)
| JObject (members : list (string * json)).

#[local] Set Elimination Schemes.

Definition is_ws (c : ascii) : bool :=
  match c with
  | " " | "009" | "010" | "013" => true
  | _ => false
  end%char.

Fixpoint skip_ws (s : string) : string :=
  match s with
  | String c s' => if is_ws c then skip_ws s' else s
  | EmptyString => EmptyString
  end.

Definition hexval (c : ascii) : option Z :=
  let n := byte_val c in
  if (48 <=? n) && (n <=? 57) then Some (n - 48)
  else if (97 <=? n) && (n <=? 102) then Some (n - 87)
  else if (65 <=? n) && (n <=? 70) then Some (n - 55)
  else None.

(** Four hexadecimal digits. *)
Definition hex4 (s : string) : option (Z * string) :=
  match s with
  | String a (String b (String c (String d rest))) =>
    match hexval a, hexval b, hexval c, hexval d with
    | Some x, Some y, Some z, Some w => Some (4096 * x + 256 * y + 16 * z + w, rest)
    | _, _, _, _ => None
    end
  | _ => None
  end.

Definition byte_of (n : Z) : ascii := ascii_of_N (Z.to_N n).

(** The UTF-8 encoding of a code point. *)
Definition encode_rune (r : Z) : string :=
  if r <? 128 then String (byte_of r) EmptyString
  else if r <? 2048 then
    String (byte_of (192 + Z.shiftr r 6))
      (String (byte_of (128 + Z.land r 63)) EmptyString)
  else if r <? 65536 then
    String (byte_of (224 + Z.shiftr r 12))
      (String (byte_of (128 + Z.land (Z.shiftr r 6) 63))
         (String (byte_of (128 + Z.land r 63)) EmptyString))
  else
    String (byte_of (240 + Z.shiftr r 18))
      (String (byte_of (128 + Z.land (Z.shiftr r 12) 63))
         (String (byte_of (128 + Z.land (Z.shiftr r 6) 63))
            (String (byte_of (128 + Z.land r 63)) EmptyString))).

(** The escape [\uXXXX], with [s] after the [u]; a surrogate pair makes
    one code point, a lone surrogate the replacement character. *)
Definition read_unicode_escape (s : string) : option (string * string) :=
  match hex4 s with
  | None => None
  | Some (hi, rest) =>
    if (55296 <=? hi) && (hi <=? 56319) then
      match rest with
      | String "\" (String "u" rest') =>
        match hex4 rest' with
        | Some (lo, rest'') =>
          if (56320 <=? lo) && (lo <=? 57343)
          then Some (encode_rune (65536 + 1024 * (hi - 55296) + (lo - 56320)), rest'')
          else Some (encode_rune utf8.RuneError, rest)
        | None => Some (encode_rune utf8.RuneError, rest)
        end
      | _ => Some (encode_rune utf8.RuneError, rest)
      end
    else if (56320 <=? hi) && (hi <=? 57343) then Some (encode_rune utf8.RuneError, rest)
    else Some (encode_rune hi, rest)
  end.

(** A string literal, with [s] after the opening quote. *)
Fixpoint read_string (fuel : nat) (s : string) : option (string * string) :=
  match fuel with
  | O => None
  | S fuel' =>
    match s with
    | EmptyString => None
    | String c s' =>
      if Ascii.eqb c (ascii_of_nat 34) then Some (EmptyString, s')
      else if Ascii.eqb c "\" then
        match s' with
        | String e s'' =>
          let simple (b : Z) :=
            match read_string fuel' s'' with
            | Some (str, rest) => Some (String (byte_of b) str, rest)
            | None => None
            end in
          if Ascii.eqb e (ascii_of_nat 34) then simple 34
          else
            match e with
            | "\" => simple 92
            | "/" => simple 47
            | "b" => simple 8
            | "f" => simple 12
            | "n" => simple 10
            | "r" => simple 13
            | "t" => simple 9
            | "u" =>
              match read_unicode_escape s'' with
              | Some (bytes, rest0) =>
                match read_string fuel' rest0 with
                | Some (str, rest) => Some ((bytes ++ str)%string, rest)
                | None => None
                end
              | None => None
              end
            | _ => None
            end%char
        | EmptyString => None
        end
      else if byte_val c <? 32 then None
      else
        match read_string fuel' s' with
        | Some (str, rest) => Some (String c str, rest)
        | None => None
        end
    end
  end.

Definition is_number_char (c : ascii) : bool :=
  let n := byte_val c in
  ((48 <=? n) && (n <=? 57)) ||
  match c with
  | "-" | "+" | "." | "e" | "E" => true
  | _ => false
  end%char.

Fixpoint read_number (s : string) : string * string :=
  match s with
  | String c s' =>
    if is_number_char c then
      let '(lit, rest) := read_number s' in (String c lit, rest)
    else (EmptyString, s)
  | EmptyString => (EmptyString, EmptyString)
  end.

(** [s] starts with the word [w]: what follows it. *)
Fixpoint strip_prefix (w s : string) : option string :=
  match w, s with
  | EmptyString, _ => Some s
  | String a w', String b s' => if Ascii.eqb a b then strip_prefix w' s' else None
  | _, EmptyString => None
  end.

(** One JSON value at the head of [s], and what follows it. *)
Fixpoint read_value (fuel : nat) (s : string) : option (json * string) :=
  match fuel with
  | O => None
  | S fuel' =>
    match skip_ws s with
    | EmptyString => None
    | String c s' =>
      if Ascii.eqb c (ascii_of_nat 34) then
        match read_string (String.length s') s' with
        | Some (str, rest) => Some (JString str, rest)
        | None => None
        end
      else
        match c with
        | "[" =>
          match skip_ws s' with
          | String "]" rest => Some (JArray [], rest)
          | _ =>
            match read_elements fuel' s' [] with
            | Some (elems, rest) => Some (JArray elems, rest)
            | None => None
            end
          end
        | "{" =>
          match skip_ws s' with
          | String "}" rest => Some (JObject [], rest)
          | _ =>
            match read_members fuel' s' [] with
            | Some (members, rest) => Some (JObject members, rest)
            | None => None
            end
          end
        | "t" => match strip_prefix "rue" s' with
                 | Some rest => Some (JBool true, rest)
                 | None => None
                 end
        | "f" => match strip_prefix "alse" s' with
                 | Some rest => Some (JBool false, rest)
                 | None => None
                 end
        | "n" => match strip_prefix "ull" s' with
                 | Some rest => Some (JNull, rest)
                 | None => None
                 end
        | _ =>
          if is_number_char c then
            let '(lit, rest) := read_number s' in Some (JNumber (String c lit), rest)
          else None
        end%char
    end
  end
with read_elements (fuel : nat) (s : string) (acc : list json)
    : option (list json * string) :=
  match fuel with
  | O => None
  | S fuel' =>
    match read_value fuel' s with
    | None => None
    | Some (v, rest) =>
      match skip_ws rest with
      | String "," rest' => read_elements fuel' rest' (acc ++ [v])
      | String "]" rest' => Some (acc ++ [v], rest')
      | _ => None
      end%char
    end
  end
with read_members (fuel : nat) (s : string) (acc : list (string * json))
    : option (list (string * json) * string) :=
  match fuel with
  | O => None
  | S fuel' =>
    match skip_ws s with
    | String q s' =>
      if Ascii.eqb q (ascii_of_nat 34) then
        match read_string (String.length s') s' with
        | None => None
        | Some (key, rest) =>
          match skip_ws rest with
          | String ":" rest' =>
            match read_value fuel' rest' with
            | None => None
            | Some (v, rest'') =>
              match skip_ws rest'' with
              | String "," rest3 => read_members fuel' rest3 (acc ++ [(key, v)])
              | String "}" rest3 => Some (acc ++ [(key, v)], rest3)
              | _ => None
              end%char
            end
          | _ => None
          end%char
        end
      else None
    | EmptyString => None
    end
  end.

Definition read (s : string) : option (json * string) :=
  read_value (S (String.length s)) s.

(** The member [key] of an object; the last of several wins. *)
Fixpoint member (key : string) (members : list (string * json)) : option json :=
  match members with
  | [] => None
  | (k, v) :: members' =>
    match member key members' with
    | Some v' => Some v'
    | None => if String.eqb k key then Some v else None
    end
  end.

Definition typeError (what : string) : error :=
  JSONError ("json: cannot unmarshal into Go value of type " ++ what)%string.

(** A value for a Go [string]; [null] leaves the zero value. *)
Definition to_string (v : json) : string + error :=
  match v with
  | JString s => inl s
  | JNull => inl EmptyString
  | _ => inr (typeError "string")
  end.

(** A value for a Go slice, element by element. *)
Fixpoint to_list {A : Type} (elem : json → A + error) (vs : list json)
    : list A + error :=
  match vs with
  | [] => inl []
  | v :: vs' =>
    match elem v, to_list elem vs' with
    | inl x, inl xs => inl (x :: xs)
    | inr err, _ => inr err
    | _, inr err => inr err
    end
  end.

Definition to_slice {A : Type} (elem : json → A + error) (v : json) : list A + error :=
  match v with
  | JArray vs => to_list elem vs
  | JNull => inl []
  | _ => inr (typeError "slice")
  end.

(** A value for a field of a struct; an absent member leaves the zero value. *)
Definition field {A : Type} (conv : json → A + error) (zero : A)
    (key : string) (members : list (string * json)) : A + error :=
  match member key members with
  | Some v => conv v
  | None => inl zero
  end.

Definition to_struct {A : Type} (conv : list (string * json) → A + error)
    (zero : A) (v : json) : A + error :=
  match v with
  | JObject members => conv members
  | JNull => inl zero
  | _ => inr (typeError "struct")
  end.

Definition to_DictSense : json → DictSense + error :=
  to_struct (fun ms =>
    match field to_string EmptyString "definition" ms,
          field to_string EmptyString "example" ms,
          field (to_slice to_string) [] "synonyms" ms,
          field (to_slice to_string) [] "antonyms" ms with
    | inl d, inl e, inl s, inl a => inl (mkDictSense d e s a)
    | inr err, _, _, _ | _, inr err, _, _ | _, _, inr err, _ | _, _, _, inr err => inr err
    end) (mkDictSense EmptyString EmptyString [] []).

Definition to_DictMeaning : json → DictMeaning + error :=
  to_struct (fun ms =>
    match field to_string EmptyString "partOfSpeech" ms,
          field (to_slice to_DictSense) [] "definitions" ms with
    | inl p, inl ds => inl (mkDictMeaning p ds)
    | inr err, _ | _, inr err => inr err
    end) (mkDictMeaning EmptyString []).

Definition to_DictEntry : json → DictEntry + error :=
  to_struct (fun ms =>
    match field to_string EmptyString "word" ms,
          field (to_slice to_DictMeaning) [] "meanings" ms with
    | inl w, inl ms' => inl (mkDictEntry w ms')
    | inr err, _ | _, inr err => inr err
    end) (mkDictEntry EmptyString []).

(** A value for a Go [map[string]V]. *)
Fixpoint to_map_members {V : Type} (conv : json → V + error)
    (members : list (string * json)) : gmap string V + error :=
  match members with
  | [] => inl ∅
  | (k, v) :: members' =>
    match conv v, to_map_members conv members' with
    | inl x, inl m =>
      inl (match m !! k with
           | Some _ => m
           | None => <[ k := x ]> m
           end)
    | inr err, _ => inr err
    | _, inr err => inr err
    end
  end.

Definition to_map {V : Type} (conv : json → V + error) (v : json)
    : gmap string V + error :=
  to_struct (to_map_members conv) ∅ v.

Definition to_SparqlEntry : json → SparqlEntry + error :=
  to_struct (fun ms =>
    match field (to_struct (field (to_slice to_string) [] "vars") []) [] "head" ms,
          field (to_struct
                   (field (to_slice (to_map (to_map to_string))) [] "bindings") [])
                [] "results" ms with
    | inl vars, inl bindings => inl (mkSparqlEntry vars bindings)
    | inr err, _ | _, inr err => inr err
    end) (mkSparqlEntry [] []).

Definition hexdigit (n : Z) : ascii :=
  if n <? 10 then byte_of (48 + n) else byte_of (87 + n).

(** A string literal for [s]: the quote, the backslash, the control
    characters and [<], [>], [&] are escaped. *)
Fixpoint quote_body (s : string) : string :=
  match s with
  | EmptyString => EmptyString
  | String c s' =>
    let n := byte_val c in
    let esc (e : string) := (String "\" e ++ quote_body s')%string in
    if n =? 34 then esc (String (byte_of 34) EmptyString)
    else if n =? 92 then esc "\"
    else if n =? 10 then esc "n"
    else if n =? 13 then esc "r"
    else if n =? 9 then esc "t"
    else if (n <? 32) || (n =? 60) || (n =? 62) || (n =? 38) then
      esc (String "u" (String "0" (String "0"
             (String (hexdigit (Z.shiftr n 4))
                (String (hexdigit (Z.land n 15)) EmptyString)))))
    else String c (quote_body s')
  end.

Definition quote (s : string) : string := (dq ++ quote_body s ++ dq)%string.

(** The text of a [[]string]. *)
Definition Marshal (l : list string) : string + error :=
  inl ("[" ++ String.concat "," (map quote l) ++ "]")%string.

(** A text for a [[]string]; nothing but white space may follow the value. *)
Definition Unmarshal (data : string) : list string + error :=
  match read data with
  | Some (v, rest) =>
    match skip_ws rest with
    | EmptyString => to_slice to_string v
    | _ => inr (JSONError "invalid character after top-level value")
    end
  | None => inr (JSONError "unexpected end of JSON input")
  end.

(** Where a streaming decoder stands: before a top-level value, after the
    opening bracket of an array, or after an element of an array. *)
Inductive tokenState : Type := tokenTopValue | tokenArrayStart | tokenArrayComma.

Record decoder : Type := mkDecoder {
  input : string;
  state : tokenState
}.

Definition NewDecoder (body : string) : decoder := mkDecoder body tokenTopValue.

Definition eof : error := JSONError "EOF".

(** The token of a value that is not an array. *)
Definition token_of (v : json) : Token :=
  match v with
  | JNull => TokNull
  | JBool b => TokBool b
  | JNumber lit => TokNumber lit
  | JString s => TokString s
  | JArray _ => Delim "["
  | JObject _ => Delim "{"
  end.

(** [Token]: the opening bracket of a top-level array, the closing bracket
    inside an array, a top-level brace or scalar. *)
Definition decoder_Token (d : decoder) : (Token + error) * decoder :=
  match skip_ws (input d) with
  | EmptyString => (inr eof, d)
  | String c rest =>
    match state d, c with
    | tokenTopValue, "["%char => (inl (Delim "["), mkDecoder rest tokenArrayStart)
    | tokenTopValue, "{"%char => (inl (Delim "{"), mkDecoder rest tokenTopValue)
    | tokenTopValue, _ =>
      match read (String c rest) with
      | Some (v, rest') => (inl (token_of v), mkDecoder rest' tokenTopValue)
      | None => (inr (JSONError "invalid character looking for beginning of value"), d)
      end
    | _, "]"%char => (inl (Delim "]"), mkDecoder rest tokenTopValue)
    | _, _ => (inr (JSONError "invalid character in array"), d)
    end
  end.

(** [More] *)
Definition decoder_More (d : decoder) : bool :=
  match skip_ws (input d) with
  | EmptyString => false
  | String c _ => negb (Ascii.eqb c "]") && negb (Ascii.eqb c "}")
  end.

(** [Decode(&v)]: after an element of an array a comma comes first. *)
Definition decoder_Decode {A : Type} (conv : json → A + error) (d : decoder)
    : (A + error) * decoder :=
  let start :=
    match state d with
    | tokenArrayComma =>
      match skip_ws (input d) with
      | String "," rest => Some rest
      | _ => None
      end
    | _ => Some (input d)
    end in
  match start with
  | None => (inr (JSONError "expected comma after array element"), d)
  | Some s =>
    match read s with
    | None => (inr (JSONError "unexpected end of JSON input"), d)
    | Some (v, rest) =>
      let d' := mkDecoder rest
                  match state d with
                  | tokenTopValue => tokenTopValue
                  | _ => tokenArrayComma
                  end in
      if Nat.ltb (String.length rest) (String.length (input d)) then
        match conv v with
        | inl x => (inl x, d')
        | inr err => (inr err, d')
        end
      else (inr (JSONError "unexpected end of JSON input"), d)
    end
  end.

(** The index after the last [/] of a path, counted from 1; 0 without. *)
Fixpoint last_slash (i : nat) (s : string) : nat :=
  match s with
  | EmptyString => 0%nat
  | String c s' =>
    match last_slash (S i) s' with
    | O => if Ascii.eqb c "/" then S i else 0%nat
    | n => n
    end
  end.

(** [Dir] for a clean path. *)
Definition Dir (path : string) : string :=
  match last_slash 0 path with
  | O => "."
  | S O => "/"
  | S n => slice_to path n
  end.

(** [Join] of a clean directory that is not the root and a name. *)
Definition Join (dir name : string) : string := (dir ++ "/" ++ name)%string.

Definition NewRequest (method url : string) : Request + error :=
  inl (mkRequest method url ∅).

End MiniJSON.

Definition miniLib : GoLib := {|
  filepath_Dir := MiniJSON.Dir;
  filepath_Join := MiniJSON.Join;
  http_NewRequest := MiniJSON.NewRequest;
  json_Marshal := MiniJSON.Marshal;
  json_Unmarshal := MiniJSON.Unmarshal;
  Decoder := MiniJSON.decoder;
  json_NewDecoder := MiniJSON.NewDecoder;
  Decoder_Token := MiniJSON.decoder_Token;
  Decoder_More := MiniJSON.decoder_More;
  Decoder_DecodeDictEntry := MiniJSON.decoder_Decode MiniJSON.to_DictEntry;
  Decoder_DecodeSparqlEntry := MiniJSON.decoder_Decode MiniJSON.to_SparqlEntry;
  Decoder_Buffered := fun d => String.length (MiniJSON.input d)
|}.

(** ** Notions used to state the properties of the clients, the engine and
       the history *)

(** A status code of the class 2xx (successful). *)
Definition successStatus (code : Z) : bool := (200 <=? code) && (code <? 300).

(** The status code a remote-status error carries. *)
Definition statusCodeOf (err : error) : option Z :=
  match err with
  | Errorf msg =>
    match MiniJSON.strip_prefix "API error: received status code " msg with
    | Some digits =>
      match NilEmpty.int_of_string digits with
      | Some d => Some (Z.of_int d)
      | None => None
      end
    | None => None
    end
  | _ => None
  end.

(** The errors, the batches of definitions and the timings among some
    sends, in order. *)
Definition errsOf (l : list send) : list error :=
  omap (fun a => match a with SendErr err => Some err | _ => None end) l.

Definition defsOf (l : list send) : list (list DefinitionT) :=
  omap (fun a => match a with SendDefs defs => Some defs | _ => None end) l.

Definition dursOf (l : list send) : list (string * Z) :=
  omap (fun a => match a with SendDur name dur => Some (name, dur) | _ => None end) l.

(** [l] is [l1] and [l2] interleaved. *)
Inductive Merge {A : Type} : list A → list A → list A → Prop :=
| Merge_nil : Merge [] [] []
| Merge_left (a : A) (l1 l2 l : list A) : Merge l1 l2 l → Merge (a :: l1) l2 (a :: l)
| Merge_right (a : A) (l1 l2 l : list A) : Merge l1 l2 l → Merge l1 (a :: l2) (a :: l).

(** The library writes the list [l] and reads it back. *)
Definition roundTrips {L : GoLib} (l : list string) : Prop :=
  ∃ jsonString, json_Marshal l = inl jsonString ∧ json_Unmarshal jsonString = inl l.

(** The path of the history file, for the source file [file]. *)
Definition historyPath {L : GoLib} (file : string) : string :=
  filepath_Join (filepath_Join (filepath_Dir file) "data") nameRecent.

(** Example worlds: bodies of the two providers and networks that serve
    them. *)
Definition dictBody : string :=
  ("[{" ++ dq ++ "word" ++ dq ++ ":" ++ dq ++ "bank" ++ dq ++ ","
   ++ dq ++ "meanings" ++ dq ++ ":[{" ++ dq ++ "partOfSpeech" ++ dq ++ ":"
   ++ dq ++ "noun" ++ dq ++ "," ++ dq ++ "definitions" ++ dq ++ ":[{"
   ++ dq ++ "definition" ++ dq ++ ":" ++ dq ++ "the land alongside a river" ++ dq
   ++ "}]}]}]")%string.

Definition dbnaryBody : string :=
  ("{" ++ dq ++ "results" ++ dq ++ ":{" ++ dq ++ "bindings" ++ dq ++ ":[{"
   ++ dq ++ "definition" ++ dq ++ ":{" ++ dq ++ "value" ++ dq ++ ":"
   ++ dq ++ "a financial institution" ++ dq ++ "},"
   ++ dq ++ "partOfSpeech" ++ dq ++ ":{" ++ dq ++ "value" ++ dq ++ ":"
   ++ dq ++ "http://www.lexinfo.net/ontology/2.0/lexinfo#noun" ++ dq ++ "}}]}}")%string.

Definition objectBody : string := ("{" ++ dq ++ "title" ++ dq ++ ":" ++ dq
   ++ "No Definitions Found" ++ dq ++ "}")%string.

(** Both providers answer. *)
Definition bothAnswer : Network :=
  {| client_Get := fun _ => inl (mkResponse 200 dictBody);
     client_Do := fun _ => inl (mkResponse 200 dbnaryBody) |}.

(** The first provider answers, the second times out. *)
Definition secondTimesOut : Network :=
  {| client_Get := fun _ => inl (mkResponse 200 dictBody);
     client_Do := fun _ => inr (NetError "context deadline exceeded") |}.

(** Both providers answer with the status [code]. *)
Definition answerStatus (code : Z) : Network :=
  {| client_Get := fun _ => inl (mkResponse code dictBody);
     client_Do := fun _ => inl (mkResponse code dbnaryBody) |}.

(** The first provider answers with the status [code], the second times
    out. *)
Definition firstStatusSecondTimesOut (code : Z) : Network :=
  {| client_Get := fun _ => inl (mkResponse code dictBody);
     client_Do := fun _ => inr (NetError "context deadline exceeded") |}.

(** The first provider cannot be reached, the second answers with the
    status [code]. *)
Definition firstUnreachableSecondStatus (code : Z) : Network :=
  {| client_Get := fun _ => inr (NetError "no such host");
     client_Do := fun _ => inl (mkResponse code dbnaryBody) |}.

(** The first provider answers with an object, not an array. *)
Definition answersObject : Network :=
  {| client_Get := fun _ => inl (mkResponse 200 objectBody);
     client_Do := fun _ => inl (mkResponse 200 dbnaryBody) |}.

Definition exampleClock : Clock := {| since_dict := 150; since_dbnary := 300; since_total := 310 |}.

(** An empty disk. *)
Definition emptyDisk : FS := {| files := ∅; dirs := ∅; denied := ∅ |}.

Definition sourceFile : string := "/home/user/DictFetch/recent.go".

(** The messages in the channels and the sends still to do have room in
    the channels. *)
Definition fits (c : Channels) (p1 p2 : list send) : Prop :=
  (List.length (defChan c) + List.length (defsOf p1) + List.length (defsOf p2) ≤ capacity)%nat
  ∧ (List.length (errChan c) + List.length (errsOf p1) + List.length (errsOf p2) ≤ capacity)%nat
  ∧ (List.length (durChan c) + List.length (dursOf p1) + List.length (dursOf p2) ≤ capacity)%nat.

(** ** Notions used to state further properties *)

(** The disk after [addRecentSearch] for each word of a list, in order. *)
Definition addAll {L : GoLib} (caller : option string) (words : list string)
    (fs : FS) : FS :=
  fold_left (fun fs word => snd (addRecentSearch caller word fs)) words fs.

(** A disk whose history file does not hold JSON, and one whose history
    file holds one word. *)
Definition corruptDisk : FS :=
  {| files := {[ historyPath (L:=miniLib) sourceFile := "[not json" ]};
     dirs := ∅; denied := ∅ |}.

Definition oldDisk : FS :=
  {| files := {[ historyPath (L:=miniLib) sourceFile :=
                   ("[" ++ dq ++ "first" ++ dq ++ "]")%string ]};
     dirs := ∅; denied := ∅ |}.

(** [p] holds of every byte of [s]. *)
Fixpoint string_forall (p : ascii → bool) (s : string) : bool :=
  match s with
  | EmptyString => true
  | String c s' => p c && string_forall p s'
  end.

(** The bytes a path-escaped word is made of: letters, digits, the marks
    [-_.~], the reserved characters a path segment may hold, and [%]. *)
Definition pathSafe (c : ascii) : bool :=
  url.is_alnum (byte_val c) ||
  match c with
  | "-" | "_" | "." | "~" | "$" | "&" | "+" | ":" | "=" | "@" | "%" => true
  | _ => false
  end%char.

(** The bytes a query-escaped string is made of: letters, digits, the
    marks [-_.~], [%] and [+]. *)
Definition querySafe (c : ascii) : bool :=
  url.is_alnum (byte_val c) ||
  match c with
  | "-" | "_" | "." | "~" | "%" | "+" => true
  | _ => false
  end%char.

(** An entry without the synonyms and antonyms of its definitions. *)
Definition eraseThesaurus (entry : DictEntry) : DictEntry :=
  {| entry_Word := entry_Word entry;
     entry_Meanings :=
       map (fun meaning =>
              {| meaning_PartOfSpeech := meaning_PartOfSpeech meaning;
                 meaning_Definitions :=
                   map (fun def =>
                          {| sense_Definition := sense_Definition def;
                             sense_Example := sense_Example def;
                             sense_Synonyms := [];
                             sense_Antonyms := [] |})
                       (meaning_Definitions meaning) |})
           (entry_Meanings entry) |}.

(** Both providers fail, each with an error of its own. *)
Definition bothFail : Network :=
  {| client_Get := fun _ => inr (NetError "no such host");
     client_Do := fun _ => inr (NetError "context deadline exceeded") |}.

(** A body of the first provider whose second element is not an object. *)
Definition brokenDictBody : string :=
  ("[{" ++ dq ++ "word" ++ dq ++ ":" ++ dq ++ "bank" ++ dq ++ "}, 5]")%string.

Definition answersBroken : Network :=
  {| client_Get := fun _ => inl (mkResponse 200 brokenDictBody);
     client_Do := fun _ => inl (mkResponse 200 dbnaryBody) |}.

(** ** The command line (main.go, and its earlier form part_002) *)

(** The functions of [strings], [time] and [fmt] that the command line
    calls and that are not defined above, and the order in which a
    [range] loop visits the keys of a map. *)
Class GoText : Type := {
  strings_ToLower : string → string;
  strings_Title : string → string;
  (* time: d.Round(m), and the text of a Duration under the verb %v *)
  Duration_Round : Z → Z → Z;
  Duration_String : Z → string;
  (* the text of an error under the verb %v: err.Error() *)
  error_Error : error → string;
  map_range : ∀ V : Type, gmap string V → list (string * V)
}.

(** A [range] loop visits every key of a map once. *)
Class GoTextLaws (T : GoText) : Prop := {
  map_range_permutation : ∀ (V : Type) (m : gmap string V),
    map_range V m ≡ₚ map_to_list m
}.

(** [io.EOF], the value [errors.New("EOF")]. *)
Definition io_EOF : error := Errorf "EOF".

(** [100 * time.Microsecond], in nanoseconds. *)
Definition hundredMicroseconds : Z := 100000.

(** The bullet of the list of definitions, U+2022 in UTF-8. *)
Definition bullet : string :=
  String (ascii_of_nat 226) (String (ascii_of_nat 128) (String (ascii_of_nat 162) EmptyString)).

(** [formatDefinition] (main.go, lines 119-125). *)
Definition formatDefinition (entry : DefinitionT) : string :=
  let defStr := Definition_ entry in
  if negb (String.eqb (Example entry) EmptyString)
  then (defStr ++ " (e.g., " ++ dq ++ Example entry ++ dq ++ ")")%string
  else defStr.

(** The body of the loop that groups the entries (main.go, lines 88-93):
    the inner map of the source is made when it is missing, and the
    formatted definition is appended under the part of speech. *)
Definition groupEntry (grouped : gmap string (gmap string (list string)))
    (entry : DefinitionT) : gmap string (gmap string (list string)) :=
  let grouped :=
    match grouped !! Source entry with
    | None => <[ Source entry := ∅ ]> grouped
    | Some _ => grouped
    end in
  let inner := default ∅ (grouped !! Source entry) in
  <[ Source entry :=
       <[ PartOfSpeech entry :=
            default [] (inner !! PartOfSpeech entry) ++ [formatDefinition entry] ]> inner ]>
    grouped.

(** [grouped := make(...); for _, entry := range entries { ... }] *)
Definition groupEntries (entries : list DefinitionT)
    : gmap string (gmap string (list string)) :=
  fold_left groupEntry entries ∅.

(** [timings.Sources[source]]: the zero duration for a missing key and
    for the nil map. *)
Definition Sources_index (timings : LookupTiming) (source : string) : Z :=
  match Sources timings with
  | Some sources => default 0 (sources !! source)
  | None => 0
  end.

(** [bufio.Reader.ReadString('\n')] on an input that has come to its end
    after the bytes [stdin]: the bytes up to the first newline, the newline
    included, or all the bytes left together with [io.EOF]; and the bytes
    left after the call. *)
Fixpoint ReadString (stdin : string) : string * option error * string :=
  match stdin with
  | EmptyString => (EmptyString, Some io_EOF, EmptyString)
  | String c rest =>
    if Ascii.eqb c (ascii_of_nat 10) then (String c EmptyString, None, rest)
    else
      let '(line, err, rest') := ReadString rest in
      (String c line, err, rest')
  end.

(** What a lookup meets of the outside: the network, the clock and the
    order in which the goroutines send. *)
Record World : Type := mkWorld {
  world_net : Network;
  world_clock : Clock;
  world_sched : list bool
}.

Section cli.

Context {L : GoLib} {T : GoText}.

(** [%s] of a [[]string]. *)
Definition format_strings (l : list string) : string :=
  ("[" ++ String.concat " " l ++ "]")%string.

(** [for i, def := range defs { if !verbose && i >= 3 { break }; ... }]
    (main.go, lines 105-110), from the index [i] on. *)
Fixpoint printDefs (verbose : bool) (i : nat) (defs : list string) : list string :=
  match defs with
  | [] => []
  | def :: defs' =>
    if negb verbose && (3 <=? i)%nat then []
    else ("  " ++ bullet ++ " " ++ def ++ nl)%string :: printDefs verbose (S i) defs'
  end.

(** The body of [for partOfSpeech, defs := range posGroup]. *)
Definition printPos (verbose : bool) (group : string * list string) : list string :=
  (nl ++ "[" ++ strings_Title (fst group) ++ "]" ++ nl)%string
    :: printDefs verbose 0 (snd group).

(** The body of [for source, posGroup := range grouped]
    (main.go, lines 96-112). *)
Definition printSource (verbose timingsFlag : bool) (timings : LookupTiming)
    (group : string * gmap string (list string)) : list string :=
  (if timingsFlag then
     (nl ++ "=== Source: " ++ fst group ++ " ("
        ++ Duration_String (Duration_Round (Sources_index timings (fst group))
                              hundredMicroseconds)
        ++ ") ===" ++ nl)%string
   else (nl ++ "=== Source: " ++ fst group ++ " ===" ++ nl)%string)
    :: flat_map (printPos verbose) (map_range _ (snd group)).

(** Lines 86-116 of [HandleInput]: what is printed for entries that were
    found. *)
Definition printEntries (verbose timingsFlag : bool) (entries : list DefinitionT)
    (timings : LookupTiming) : list string :=
  let grouped := groupEntries entries in
  flat_map (printSource verbose timingsFlag timings) (map_range _ grouped)
  ++ (if timingsFlag then
        [(nl ++ "Total lookup time: "
            ++ Duration_String (Duration_Round (Total timings) hundredMicroseconds)
            ++ nl)%string]
      else [])
  ++ [("--------------------------" ++ nl)%string].

(** [HandleInput] (main.go, lines 62-117): what it prints, one string for
    each call of [fmt], and the disk afterwards. *)
Definition HandleInput (caller : option string) (w : World) (input : string)
    (verbose timingsFlag : bool) (fs : FS) : list string * FS :=
  let input := strings_ToLower (strings.TrimSpace input) in
  if String.eqb input EmptyString then
    ([("No input provided." ++ nl)%string], fs)
  else
    let '((_, err), fs) := addRecentSearch caller input fs in
    let out :=
      match err with
      | Some e =>
        [("Unexpected JSON or filepath error: " ++ error_Error e ++ nl)%string]
      | None => []
      end in
    let out := out ++ [("Handling input: " ++ input ++ nl)%string] in
    let '(entries, timings, err) :=
      LookupAll (world_net w) (world_clock w) (world_sched w) input in
    match err with
    | Some e =>
      (out ++ [("Error looking up word: " ++ error_Error e ++ nl)%string], fs)
    | None =>
      if (List.length entries =? 0)%nat then
        (out ++ [("No entries found." ++ nl)%string], fs)
      else (out ++ printEntries verbose timingsFlag entries timings, fs)
    end.

Definition prompts : list string :=
  [("For help, type ':h' or ':help' (not implemented yet)" ++ nl)%string;
   "Enter a word (or exit with ':q' or ':quit'): "].

(** One turn of the loop of [RunInteractive] (main.go, lines 34-58) after
    the prompts, for the line read: what is printed, the disk, and whether
    the loop goes on. *)
Definition interactiveTurn (caller : option string) (w : World)
    (input : string) (error : option error) (verbose timings : bool) (fs : FS)
    : list string * FS * bool :=
  let trimmedInput := strings.TrimSpace input in
  match error with
  | Some e => ([("Error reading input: " ++ error_Error e ++ nl)%string], fs, true)
  | None =>
    if String.eqb trimmedInput ":q" || String.eqb trimmedInput ":quit" then
      ([("Exiting..." ++ nl)%string], fs, false)
    else if String.eqb trimmedInput ":hist" || String.eqb trimmedInput ":history" then
      let '(history, err) := getRecentSearches caller fs in
      match err with
      | None => ([("History: " ++ format_strings history ++ nl)%string], fs, true)
      | Some _ =>
        (* the variable printed is [error], which is nil here *)
        ([("Unexpected JSON/filepath error: <nil>" ++ nl)%string], fs, true)
      end
    else
      let '(out, fs) := HandleInput caller w trimmedInput verbose timings fs in
      (out, fs, true)
  end.

(** [RunInteractive] (main.go, lines 31-60), for at most [fuel] turns of
    its loop: what is printed, the disk, what is left of the input, and
    whether the loop has been left.  [worlds i] is the world of the turn
    [i]. *)
Fixpoint RunInteractive (fuel : nat) (caller : option string) (worlds : nat → World)
    (i : nat) (stdin : string) (verbose timings : bool) (fs : FS)
    : list string * FS * string * bool :=
  match fuel with
  | O => ([], fs, stdin, false)
  | S fuel' =>
    let '(input, error, stdin) := ReadString stdin in
    let '(out, fs, continue) :=
      interactiveTurn caller (worlds i) input error verbose timings fs in
    if continue then
      let '(out', fs, stdin, quit) :=
        RunInteractive fuel' caller worlds (S i) stdin verbose timings fs in
      (prompts ++ out ++ out', fs, stdin, quit)
    else (prompts ++ out, fs, stdin, true)
  end.

(** [main] (main.go, lines 12-29) after [flag.Parse]: with arguments one
    lookup of the arguments joined by commas, without arguments the
    interactive loop. *)
Definition main (fuel : nat) (caller : option string) (worlds : nat → World)
    (verboseFlag timingsFlag : bool) (args : list string) (stdin : string) (fs : FS)
    : list string * FS * string * bool :=
  if (0 <? List.length args)%nat then
    let input := String.concat "," args in
    let '(out, fs) := HandleInput caller (worlds 0%nat) input verboseFlag timingsFlag fs in
    (out, fs, stdin, true)
  else RunInteractive fuel caller worlds 0 stdin verboseFlag timingsFlag fs.

End cli.

(** The earlier form of the command line (part_002): no history, and the
    timings always printed. *)
Module Part002.

Section cli.

Context {L : GoLib} {T : GoText}.

(** [HandleInput] (part_002, lines 54-97). *)
Definition HandleInput (w : World) (input : string) (verbose : bool) : list string :=
  let input := strings_ToLower (strings.TrimSpace input) in
  if String.eqb input EmptyString then [("No input provided." ++ nl)%string]
  else
    let out := [("Handling input: " ++ input ++ nl)%string] in
    let '(entries, timings, err) :=
      LookupAll (world_net w) (world_clock w) (world_sched w) input in
    match err with
    | Some e => out ++ [("Error looking up word: " ++ error_Error e ++ nl)%string]
    | None =>
      if (List.length entries =? 0)%nat then out ++ [("No entries found." ++ nl)%string]
      else
        let grouped := groupEntries entries in
        out
        ++ flat_map
             (fun group : string * gmap string (list string) =>
                (nl ++ "=== Source: " ++ fst group ++ " ("
                   ++ Duration_String
                        (Duration_Round (Sources_index timings (fst group))
                           hundredMicroseconds)
                   ++ ") ===" ++ nl)%string
                  :: flat_map (printPos verbose) (map_range _ (snd group)))
             (map_range _ grouped)
        ++ [(nl ++ "Total lookup time: "
               ++ Duration_String (Duration_Round (Total timings) hundredMicroseconds)
               ++ nl)%string]
        ++ [("--------------------------" ++ nl)%string]
    end.

(** [RunInteractive] (part_002, lines 30-52), for at most [fuel] turns. *)
Fixpoint RunInteractive (fuel : nat) (worlds : nat → World) (i : nat)
    (stdin : string) (verbose : bool) : list string * string * bool :=
  match fuel with
  | O => ([], stdin, false)
  | S fuel' =>
    let '(input, error, stdin) := ReadString stdin in
    let trimmedInput := strings.TrimSpace input in
    match error with
    | Some e =>
      let '(out', stdin, quit) := RunInteractive fuel' worlds (S i) stdin verbose in
      (prompts ++ [("Error reading input: " ++ error_Error e ++ nl)%string] ++ out',
       stdin, quit)
    | None =>
      if String.eqb trimmedInput ":q" || String.eqb trimmedInput ":quit" then
        (prompts ++ [("Exiting..." ++ nl)%string], stdin, true)
      else
        let out := HandleInput (worlds i) trimmedInput verbose in
        let '(out', stdin, quit) := RunInteractive fuel' worlds (S i) stdin verbose in
        (prompts ++ out ++ out', stdin, quit)
    end
  end.

End cli.

End Part002.

(** ** A small instance of the text functions

    Letters are the ASCII letters, a duration is written as its number
    of nanoseconds, and a map is visited in the order of [map_to_list]. *)

Module MiniText.

Definition lower (c : ascii) : ascii :=
  let n := byte_val c in
  if (65 <=? n) && (n <=? 90) then MiniJSON.byte_of (n + 32) else c.

Definition upper (c : ascii) : ascii :=
  let n := byte_val c in
  if (97 <=? n) && (n <=? 122) then MiniJSON.byte_of (n - 32) else c.

Fixpoint ToLower (s : string) : string :=
  match s with
  | EmptyString => EmptyString
  | String c s' => String (lower c) (ToLower s')
  end.

(** A byte that separates words: an ASCII byte that is no letter, digit
    or underscore. *)
Definition isSeparator (c : ascii) : bool :=
  let n := byte_val c in
  (n <? 128) && negb (url.is_alnum n || (n =? 95)).

Fixpoint Title_from (prev : ascii) (s : string) : string :=
  match s with
  | EmptyString => EmptyString
  | String c s' =>
    String (if isSeparator prev then upper c else c) (Title_from c s')
  end.

Definition Title (s : string) : string := Title_from " " s.

(** [d.Round(m)] for durations far from the ends of [int64]: to the
    nearest multiple of [m], halves away from zero. *)
Definition Round (d m : Z) : Z :=
  if m <=? 0 then d
  else
    let r := Z.rem d m in
    if d <? 0 then
      let r := - r in
      if r + r <? m then d + r else d - m + r
    else if r + r <? m then d - r else d + m - r.

Definition Error (err : error) : string :=
  match err with
  | Errorf msg | NetError msg | JSONError msg => msg
  | PathError true path => ("open " ++ path ++ ": no such file or directory")%string
  | PathError false path => ("open " ++ path ++ ": permission denied")%string
  end.

End MiniText.

Definition miniText : GoText := {|
  strings_ToLower := MiniText.ToLower;
  strings_Title := MiniText.Title;
  Duration_Round := MiniText.Round;
  Duration_String := fun d => (Itoa d ++ "ns")%string;
  error_Error := MiniText.Error;
  map_range := fun V m => map_to_list m
|}.

Definition bothAnswerWorld : World :=
  {| world_net := bothAnswer; world_clock := exampleClock; world_sched := [] |}.

Definition secondTimesOutWorld : World :=
  {| world_net := secondTimesOut; world_clock := exampleClock; world_sched := [] |}.

(** ** Notions used to state the properties of the command line *)

(** The entries of a source under a part of speech, formatted, in order. *)
Definition formattedGroup (entries : list DefinitionT) (source pos : string)
    : list string :=
  map formatDefinition
    (List.filter (fun d => String.eqb (Source d) source && String.eqb (PartOfSpeech d) pos)
       entries).

(** What [grouped[source][pos]] reads in Go: the empty list when a key is
    missing. *)
Definition grouped_index (grouped : gmap string (gmap string (list string)))
    (source pos : string) : list string :=
  default [] (default ∅ (grouped !! source) !! pos).

(** The line printed for a definition. *)
Definition bulletLine (def : string) : string :=
  ("  " ++ bullet ++ " " ++ def ++ nl)%string.

(** A printed string is the line of a definition: it starts with two
    spaces. *)
Definition isBulletLine (chunk : string) : bool :=
  match chunk with
  | String " " (String " " _) => true
  | _ => false
  end.

(** The complete lines of an input, each with its newline, and the bytes
    after the last newline. *)
Fixpoint inputLines (stdin : string) : list string * string :=
  match stdin with
  | EmptyString => ([], EmptyString)
  | String c rest =>
    let '(ls, tail) := inputLines rest in
    if Ascii.eqb c (ascii_of_nat 10) then (String c EmptyString :: ls, tail)
    else
      match ls with
      | l :: ls' => (String c l :: ls', tail)
      | [] => ([], String c tail)
      end
  end.

(** A line is a command to leave the loop. *)
Definition isQuit (line : string) : bool :=
  String.eqb (strings.TrimSpace line) ":q" || String.eqb (strings.TrimSpace line) ":quit".

(** The line [HandleInput] prints when the search cannot be recorded. *)
Definition recordFailure {L : GoLib} {T : GoText} (caller : option string)
    (word : string) (fs : FS) : list string :=
  match snd (fst (addRecentSearch caller word fs)) with
  | Some e => [("Unexpected JSON or filepath error: " ++ error_Error e ++ nl)%string]
  | None => []
  end.

(** The lines [HandleInput] prints before the result of the lookup. *)
Definition preamble {L : GoLib} {T : GoText} (caller : option string)
    (word : string) (fs : FS) : list string :=
  recordFailure caller word fs ++ [("Handling input: " ++ word ++ nl)%string].

(** The lines of the definitions in the groups of a map, each map in the
    order of [map_to_list]. *)
Definition groupLines (grouped : gmap string (gmap string (list string)))
    : list string :=
  flat_map (fun group : string * gmap string (list string) =>
              flat_map (fun g : string * list string => map bulletLine (snd g))
                       (map_to_list (snd group)))
           (map_to_list grouped).

(** The decoder [d] yields the elements [entries] one after the other and
    then has no more, standing at [d']. *)
Inductive Elements {L : GoLib} : Decoder → list DictEntry → Decoder → Prop :=
| Elements_done (d : Decoder) :
    Decoder_More d = false → Elements d [] d
| Elements_next (d d1 d' : Decoder) (entry : DictEntry) (entries : list DictEntry) :
    Decoder_More d = true →
    Decoder_DecodeDictEntry d = (inl entry, d1) →
    Elements d1 entries d' →
    Elements d (entry :: entries) d'.

(** The decoder [d] yields some elements and then fails with [err]. *)
Inductive ElementsFail {L : GoLib} : Decoder → error → Prop :=
| ElementsFail_here (d d1 : Decoder) (err : error) :
    Decoder_More d = true →
    Decoder_DecodeDictEntry d = (inr err, d1) →
    ElementsFail d err
| ElementsFail_later (d d1 : Decoder) (entry : DictEntry) (err : error) :
    Decoder_More d = true →
    Decoder_DecodeDictEntry d = (inl entry, d1) →
    ElementsFail d1 err →
    ElementsFail d err.

(** * Properties *)

(** ** Go string helpers *)

#[local] Arguments String.append !_ _ / : simpl nomatch.

Section string_facts.

Lemma slice_from_app (pre post : string) :
  slice_from (pre ++ post) (String.length pre) = post.
Proof. induction pre as [|a pre IH]; simpl; [by destruct post | exact IH]. Qed.

Lemma string_app_length (s t : string) :
  String.length (s ++ t) = (String.length s + String.length t)%nat.
Proof. induction s as [|a s IH]; simpl; [done | by rewrite IH]. Qed.

Lemma string_app_assoc (s t u : string) : ((s ++ t) ++ u = s ++ (t ++ u))%string.
Proof. induction s as [|a s IH]; simpl; [done | by f_equal]. Qed.

Lemma LastIndexByte_from_range (s : string) (c : ascii) (i : Z) :
  0 <= i →
  strings.LastIndexByte_from i s c = -1 ∨
  i <= strings.LastIndexByte_from i s c < i + len s.
Proof.
  revert i. unfold len.
  induction s as [|a s IH]; intros i Hi; simpl; [by left |].
  destruct (IH (i + 1)) as [-> | Hr]; [lia | |].
  - simpl. destruct (Ascii.eqb a c); [right; lia | by left].
  - destruct (Z.eqb_spec (strings.LastIndexByte_from (i + 1) s c) (-1)); lia.
Qed.

Lemma LastIndexByte_from_absent (s : string) (c : ascii) (i : Z) :
  hasByte c s = false → strings.LastIndexByte_from i s c = -1.
Proof.
  revert i. induction s as [|a s IH]; intros i; simpl; [done |].
  destruct (Ascii.eqb a c) eqn:E; [done |].
  intros H. by rewrite (IH _ H).
Qed.

Lemma LastIndexByte_from_last (pre post : string) (c : ascii) (i : Z) :
  0 <= i → hasByte c post = false →
  strings.LastIndexByte_from i (pre ++ String c post) c = i + len pre.
Proof.
  revert i. unfold len.
  induction pre as [|a pre IH]; intros i Hi Hpost; simpl.
  - rewrite (LastIndexByte_from_absent _ _ _ Hpost). simpl.
    rewrite Ascii.eqb_refl. lia.
  - rewrite IH by (lia || done).
    destruct (Z.eqb_spec (i + 1 + Z.of_nat (String.length pre)) (-1)); lia.
Qed.

Lemma hasByte_app (c : ascii) (s t : string) :
  hasByte c (s ++ t) = hasByte c s || hasByte c t.
Proof. induction s as [|a s IH]; simpl; [done |]. by destruct (Ascii.eqb a c). Qed.

(** A string with a [c] splits at its last [c]. *)
Lemma hasByte_split_last (c : ascii) (s : string) :
  hasByte c s = true →
  ∃ pre post, s = (pre ++ String c post)%string ∧ hasByte c post = false.
Proof.
  induction s as [|a s IH]; simpl; [done |].
  destruct (hasByte c s) eqn:Hs.
  - intros _. destruct (IH eq_refl) as (pre & post & -> & Hpost).
    exists (String a pre), post. by destruct (Ascii.eqb a c).
  - destruct (Ascii.eqb_spec a c) as [->|]; [|done].
    intros _. by exists EmptyString, s.
Qed.

End string_facts.

(** ** [strings.TrimSpace] on ASCII strings *)

Section trim_facts.

Lemma slice_to_nonempty (s : string) (n : nat) :
  s ≠ EmptyString → slice_to s (S n) ≠ EmptyString.
Proof. by destruct s. Qed.

(** The second loop stops at the latest at a first byte that is not
    white space. *)
Lemma trimSpace_stop_nonempty (stop : nat) (c : ascii) (s : string) :
  ascii_only (String c s) →
  strings.asciiSpace (byte_val c) = false →
  (stop ≤ String.length (String c s))%nat →
  strings.trimSpace_stop (S stop) (String c s) ≠ EmptyString.
Proof.
  intros Hascii Hc. induction stop as [|stop IH]; intros Hlen.
  - simpl. by rewrite (proj2 (Z.leb_gt _ _) (Hascii 0%nat c eq_refl)), Hc.
  - cbn [strings.trimSpace_stop].
    destruct (String.get (S stop) (String c s)) as [c'|] eqn:Hget; [|done].
    rewrite (proj2 (Z.leb_gt _ _) (Hascii _ _ Hget)).
    destruct (strings.asciiSpace (byte_val c')); [apply IH; lia | done].
Qed.

(** An ASCII string is blank after trimming exactly when all its bytes
    are white space. *)
Lemma TrimSpace_ascii_blank (s : string) :
  ascii_only s → (strings.TrimSpace s = EmptyString ↔ ascii_blank s).
Proof.
  induction s as [|c s IH]; intros Hascii.
  - split; [by intros _ [|i] c' | done].
  - assert (Hs : ascii_only s) by (intros i c' Hi; by apply (Hascii (S i))).
    cbn [strings.TrimSpace].
    rewrite (proj2 (Z.leb_gt _ _) (Hascii 0%nat c eq_refl)).
    destruct (strings.asciiSpace (byte_val c)) eqn:Hc.
    + rewrite (IH Hs). split.
      * intros Hblank [|i] c' Hi; [by injection Hi as <- | by apply (Hblank i)].
      * intros Hblank i c' Hi. by apply (Hblank (S i)).
    + split.
      * intros Hempty. exfalso. revert Hempty.
        apply (trimSpace_stop_nonempty (String.length s) c s); simpl; done || lia.
      * intros Hblank. specialize (Hblank 0%nat c eq_refl). congruence.
Qed.

End trim_facts.

(** ** The normalizers *)

Section normalizers.

(** A loop whose body only appends to its accumulator builds the
    concatenation of what each iteration appends. *)
Lemma fold_left_appending {A B : Type} (step : list A → B → list A)
    (l : list B) (acc : list A) :
  (∀ acc x, step acc x = acc ++ step [] x) →
  fold_left step l acc = acc ++ flat_map (step []) l.
Proof.
  intros Hstep. revert acc. induction l as [|x l IH]; intros acc; simpl.
  - by rewrite app_nil_r.
  - by rewrite IH, (Hstep acc), <- app_assoc.
Qed.

Lemma flat_map_singleton {A B : Type} (f : B → A) (l : list B) :
  flat_map (fun x => [f x]) l = map f l.
Proof. induction l as [|x l IH]; simpl; [done | by rewrite IH]. Qed.

Lemma length_flat_map_sum {A B : Type} (f : B → list A) (l : list B) :
  List.length (flat_map f l) = list_sum (map (fun x => List.length (f x)) l).
Proof.
  induction l as [|x l IH]; simpl; [done |].
  by rewrite length_app, IH.
Qed.

Lemma convertSense_eq (entry : DictEntry) (meaning : DictMeaning)
    (definitions : list DefinitionT) (def : DictSense) :
  convertSense entry meaning definitions def =
  definitions ++ convertSense entry meaning [] def.
Proof. done. Qed.

Lemma convertMeaning_eq (entry : DictEntry) (definitions : list DefinitionT)
    (meaning : DictMeaning) :
  convertMeaning entry definitions meaning =
  definitions ++ convertMeaning entry [] meaning.
Proof.
  unfold convertMeaning.
  rewrite !(fold_left_appending (convertSense entry meaning)); try done.
Qed.

Lemma convertEntry_eq (definitions : list DefinitionT) (entry : DictEntry) :
  convertEntry definitions entry = definitions ++ convertEntry [] entry.
Proof.
  unfold convertEntry.
  rewrite !(fold_left_appending (convertMeaning entry)); try done.
  all: apply convertMeaning_eq.
Qed.

Lemma convertMeaning_nil (entry : DictEntry) (meaning : DictMeaning) :
  convertMeaning entry [] meaning =
  map (fun def => mkDefinition (entry_Word entry) (meaning_PartOfSpeech meaning)
                    (sense_Definition def) (sense_Example def) "dictionaryapi.dev")
      (meaning_Definitions meaning).
Proof.
  unfold convertMeaning.
  rewrite (fold_left_appending (convertSense entry meaning)) by done.
  apply flat_map_singleton.
Qed.

Lemma ConvertDictEntries_flat_map (entries : list DictEntry) :
  ConvertDictEntries entries = flat_map (convertEntry []) entries.
Proof.
  unfold ConvertDictEntries.
  by rewrite (fold_left_appending convertEntry) by apply convertEntry_eq.
Qed.

(** C3. For a nested-meanings record anywhere in the input,
    [ConvertDictEntries] contributes one [Definition] per leaf definition
    of that record, in order: as many as the sum of the numbers of
    definitions of its meanings, each with the word of the record and the
    part of speech of the meaning it comes from.  The whole output has as
    many records as there are leaf definitions in the input. *)
Theorem ConvertDictEntries_one_per_leaf
    (before after : list DictEntry) (entry : DictEntry) :
  ConvertDictEntries (before ++ entry :: after) =
    ConvertDictEntries before ++ ConvertDictEntries [entry]
      ++ ConvertDictEntries after
  ∧ ConvertDictEntries [entry] =
      concat (map (fun meaning =>
                map (fun def =>
                       {| Word := entry_Word entry;
                          PartOfSpeech := meaning_PartOfSpeech meaning;
                          Definition_ := sense_Definition def;
                          Example := sense_Example def;
                          Source := "dictionaryapi.dev" |})
                    (meaning_Definitions meaning))
             (entry_Meanings entry))
  ∧ List.length (ConvertDictEntries [entry]) = leafCount entry
  ∧ List.length (ConvertDictEntries (before ++ entry :: after)) =
      list_sum (map leafCount (before ++ entry :: after)).
Proof.
  assert (Hone : ∀ e, convertEntry [] e =
      concat (map (fun meaning =>
                map (fun def => mkDefinition (entry_Word e)
                       (meaning_PartOfSpeech meaning) (sense_Definition def)
                       (sense_Example def) "dictionaryapi.dev")
                    (meaning_Definitions meaning))
             (entry_Meanings e))).
  { intros e. unfold convertEntry.
    rewrite (fold_left_appending (convertMeaning e)) by apply convertMeaning_eq.
    simpl. rewrite flat_map_concat_map. f_equal.
    apply map_ext. intros m. apply convertMeaning_nil. }
  assert (Hlen : ∀ e, List.length (convertEntry [] e) = leafCount e).
  { intros e. rewrite Hone. unfold leafCount.
    induction (entry_Meanings e) as [|m ms IH]; simpl; [done |].
    by rewrite length_app, length_map, IH. }
  rewrite !ConvertDictEntries_flat_map.
  repeat split.
  - rewrite flat_map_app. simpl. by rewrite app_nil_r.
  - simpl. rewrite app_nil_r. apply Hone.
  - simpl. rewrite app_nil_r. apply Hlen.
  - rewrite length_flat_map_sum. f_equal. apply map_ext. intros e. apply Hlen.
Qed.

Lemma TrimSpace_empty : strings.TrimSpace EmptyString = EmptyString.
Proof. reflexivity. Qed.

Lemma blankDefinition_spec (binding : gmap string (gmap string string)) :
  blankDefinition binding =
  String.eqb (strings.TrimSpace (bindingValue binding "definition")) EmptyString.
Proof.
  unfold blankDefinition, bindingValue.
  by destruct (binding !! "definition").
Qed.

Lemma convertBinding_eq (word : string) (definitions : list DefinitionT)
    (binding : gmap string (gmap string string)) :
  convertBinding word definitions binding =
  definitions ++ convertBinding word [] binding.
Proof.
  unfold convertBinding.
  destruct (String.eqb _ _); [by rewrite app_nil_r | done].
Qed.

Lemma convertBinding_nil (word : string)
    (binding : gmap string (gmap string string)) :
  convertBinding word [] binding =
  if blankDefinition binding then [] else [rowDefinition word binding].
Proof.
  rewrite blankDefinition_spec. unfold convertBinding.
  by destruct (String.eqb _ _).
Qed.

Lemma convertSparqlEntry_eq (word : string) (definitions : list DefinitionT)
    (entry : SparqlEntry) :
  convertSparqlEntry word definitions entry =
  definitions ++ convertSparqlEntry word [] entry.
Proof.
  unfold convertSparqlEntry.
  rewrite !(fold_left_appending (convertBinding word)); try done.
  all: apply convertBinding_eq.
Qed.

Lemma flat_map_filter_map {A B : Type} (p : A → bool) (f : A → B) (l : list A) :
  flat_map (fun x => if p x then [] else [f x]) l =
  map f (List.filter (fun x => negb (p x)) l).
Proof.
  induction l as [|x l IH]; simpl; [done |].
  destruct (p x); simpl; by rewrite IH.
Qed.

(** The output of [ConvertDBnaryEntries] is the list of the kept rows,
    each turned into its [Definition]. *)
Lemma ConvertDBnaryEntries_rows (entries : list SparqlEntry) (word : string) :
  ConvertDBnaryEntries entries word = map (rowDefinition word) (keptRows entries).
Proof.
  unfold ConvertDBnaryEntries, keptRows, bindingRows.
  rewrite (fold_left_appending (convertSparqlEntry word))
    by apply convertSparqlEntry_eq.
  simpl. induction entries as [|e es IH]; simpl; [done |].
  rewrite List.filter_app, map_app, <- IH. f_equal.
  unfold convertSparqlEntry.
  rewrite (fold_left_appending (convertBinding word)) by apply convertBinding_eq.
  simpl. rewrite <- flat_map_filter_map.
  apply flat_map_ext. intros b. apply convertBinding_nil.
Qed.

(** C4. [ConvertDBnaryEntries] turns exactly the rows whose [definition]
    variable is present with a value that is not blank after trimming into
    a [Definition], and nothing else: a row with an absent or
    white-space-only definition leaves no trace in the output, and no
    [Definition] of the output has an empty or white-space-only
    definition field. *)
Theorem ConvertDBnaryEntries_drops_blank_rows
    (entries : list SparqlEntry) (word : string) :
  ConvertDBnaryEntries entries word =
    map (rowDefinition word)
        (List.filter (fun b => negb (blankDefinition b)) (bindingRows entries))
  ∧ Forall (fun b => ∃ v, b !! "definition" = Some v
              ∧ strings.TrimSpace (map_index v "value") ≠ EmptyString)
           (keptRows entries)
  ∧ Forall (fun d => Definition_ d ≠ EmptyString
              ∧ strings.TrimSpace (Definition_ d) ≠ EmptyString)
           (ConvertDBnaryEntries entries word).
Proof.
  split; [apply ConvertDBnaryEntries_rows |].
  assert (Hkept : Forall (fun b => blankDefinition b = false) (keptRows entries)).
  { apply List.Forall_forall. intros b Hb.
    apply List.filter_In in Hb as [_ Hb]. by destruct (blankDefinition b). }
  split.
  - eapply List.Forall_impl; [|exact Hkept].
    intros b. unfold blankDefinition.
    destruct (b !! "definition") as [v|]; [|done].
    intros Hv. exists v. split; [done |].
    intros Heq. by rewrite Heq in Hv.
  - rewrite ConvertDBnaryEntries_rows. apply List.Forall_map.
    eapply List.Forall_impl; [|exact Hkept].
    intros b. simpl. rewrite blankDefinition_spec.
    destruct (String.eqb_spec
                (strings.TrimSpace (bindingValue b "definition")) EmptyString)
      as [|Hne]; [done |].
    intros _. split; [|done].
    intros Heq. apply Hne. by rewrite Heq.
Qed.

Lemma ConvertDBnaryEntries_lookup (entries : list SparqlEntry) (word : string)
    (k : nat) :
  ConvertDBnaryEntries entries word !! k =
  rowDefinition word <$> keptRows entries !! k.
Proof. by rewrite ConvertDBnaryEntries_rows, list_lookup_fmap. Qed.

Lemma bindingPos_absent (binding : gmap string (gmap string string)) :
  binding !! "partOfSpeech" = None → bindingPos binding = EmptyString.
Proof. unfold bindingPos. by intros ->. Qed.

Lemma bindingPos_no_hash (binding : gmap string (gmap string string))
    (v : gmap string string) :
  binding !! "partOfSpeech" = Some v →
  hasByte "#" (map_index v "value") = false →
  bindingPos binding = map_index v "value".
Proof.
  unfold bindingPos, strings.LastIndexByte. intros -> Hno.
  by rewrite (LastIndexByte_from_absent _ _ _ Hno).
Qed.

Lemma bindingPos_split (binding : gmap string (gmap string string))
    (v : gmap string string) (pre frag : string) :
  binding !! "partOfSpeech" = Some v →
  map_index v "value" = (pre ++ String "#" frag)%string →
  hasByte "#" frag = false →
  bindingPos binding =
    match frag with
    | EmptyString => map_index v "value"
    | _ => frag
    end.
Proof.
  unfold bindingPos, strings.LastIndexByte. intros -> Hval Hfrag.
  rewrite Hval, (LastIndexByte_from_last _ _ _ _ (Z.le_refl 0) Hfrag).
  unfold len. rewrite string_app_length. simpl String.length.
  destruct (Z.eqb_spec (0 + Z.of_nat (String.length pre)) (-1)) as [|_]; [lia |].
  simpl negb. rewrite andb_true_l.
  destruct frag as [|c frag].
  - rewrite (proj2 (Z.ltb_ge _ _)) by (simpl; lia). done.
  - rewrite (proj2 (Z.ltb_lt _ _)) by (simpl String.length; lia).
    replace (Z.to_nat (0 + Z.of_nat (String.length pre) + 1))
      with (String.length (pre ++ "#")%string)
      by (rewrite string_app_length; simpl; lia).
    replace (pre ++ String "#" (String c frag))%string
      with ((pre ++ "#") ++ String c frag)%string
      by (by rewrite string_app_assoc).
    apply slice_from_app.
Qed.

(** C5, as the code has it.  For the row kept at position [k], the
    [Definition] at position [k] of the output has the empty string as
    part of speech when the [partOfSpeech] variable is absent, and the
    fragment after the last ['#'] of its value when that fragment is
    not empty. *)
Theorem ConvertDBnaryEntries_partOfSpeech_fragment
    (entries : list SparqlEntry) (word : string) (k : nat)
    (binding : gmap string (gmap string string)) :
  keptRows entries !! k = Some binding →
  ∃ d, ConvertDBnaryEntries entries word !! k = Some d
    ∧ (binding !! "partOfSpeech" = None → PartOfSpeech d = EmptyString)
    ∧ (∀ v pre frag,
         binding !! "partOfSpeech" = Some v →
         map_index v "value" = (pre ++ String "#" frag)%string →
         hasByte "#" frag = false →
         frag ≠ EmptyString →
         PartOfSpeech d = frag).
Proof.
  intros Hk. exists (rowDefinition word binding).
  rewrite ConvertDBnaryEntries_lookup, Hk. split; [done |]. split.
  - apply bindingPos_absent.
  - intros v pre frag Hv Hval Hfrag Hne. simpl.
    rewrite (bindingPos_split _ _ _ _ Hv Hval Hfrag).
    by destruct frag.
Qed.

(** C10. For the row kept at position [k] whose [partOfSpeech] variable
    is present: a value that ends with ['#'], or that has no ['#'], is
    kept whole as the part of speech; the part of speech differs from the
    value only when it is the non-empty fragment after the last ['#']. *)
Theorem ConvertDBnaryEntries_partOfSpeech_kept_whole
    (entries : list SparqlEntry) (word : string) (k : nat)
    (binding : gmap string (gmap string string)) (v : gmap string string) :
  keptRows entries !! k = Some binding →
  binding !! "partOfSpeech" = Some v →
  ∃ d, ConvertDBnaryEntries entries word !! k = Some d
    ∧ ((∃ pre, map_index v "value" = (pre ++ "#")%string) →
       PartOfSpeech d = map_index v "value")
    ∧ (hasByte "#" (map_index v "value") = false →
       PartOfSpeech d = map_index v "value")
    ∧ (PartOfSpeech d ≠ map_index v "value" →
       ∃ pre frag,
         map_index v "value" = (pre ++ String "#" frag)%string
         ∧ hasByte "#" frag = false
         ∧ frag ≠ EmptyString
         ∧ PartOfSpeech d = frag).
Proof.
  intros Hk Hv. exists (rowDefinition word binding).
  rewrite ConvertDBnaryEntries_lookup, Hk. split; [done |]. simpl.
  split; [|split].
  - intros [pre Hval].
    by rewrite (bindingPos_split _ _ pre EmptyString Hv Hval eq_refl).
  - apply bindingPos_no_hash, Hv.
  - intros Hne.
    destruct (hasByte "#" (map_index v "value")) eqn:Hhas.
    + destruct (hasByte_split_last _ _ Hhas) as (pre & frag & Hval & Hfrag).
      exists pre, frag.
      rewrite (bindingPos_split _ _ _ _ Hv Hval Hfrag) in Hne |- *.
      destruct frag; [done |]. by rewrite Hval.
    + by rewrite (bindingPos_no_hash _ _ Hv Hhas) in Hne.
Qed.

Lemma ConvertDictEntries_Source (entries : list DictEntry) :
  Forall (fun d => Source d = "dictionaryapi.dev") (ConvertDictEntries entries).
Proof.
  rewrite ConvertDictEntries_flat_map. apply List.Forall_forall. intros d Hd.
  apply in_flat_map in Hd as (entry & _ & Hd). unfold convertEntry in Hd.
  rewrite (fold_left_appending (convertMeaning entry)) in Hd
    by apply convertMeaning_eq.
  simpl in Hd. apply in_flat_map in Hd as (meaning & _ & Hd).
  rewrite convertMeaning_nil in Hd.
  by apply in_map_iff in Hd as (def & <- & _).
Qed.

Lemma ConvertDBnaryEntries_Source (entries : list SparqlEntry) (word : string) :
  Forall (fun d => Source d = "DBnary") (ConvertDBnaryEntries entries word).
Proof.
  rewrite ConvertDBnaryEntries_rows. apply List.Forall_map.
  by apply List.Forall_forall.
Qed.

End normalizers.

(** ** The normalizers on concrete rows *)

Lemma map_index_valueOf (s : string) : map_index (valueOf s) "value" = s.
Proof. unfold map_index, valueOf. by rewrite lookup_singleton_eq. Qed.

Lemma row_definition (def : string) (rest : gmap string (gmap string string)) :
  bindingValue (<[ "definition" := valueOf def ]> rest) "definition" = def.
Proof. unfold bindingValue. rewrite lookup_insert_eq. apply map_index_valueOf. Qed.

Lemma nounRow_partOfSpeech :
  nounRow !! "partOfSpeech" = Some (valueOf "http://example.org/ontology#noun").
Proof.
  unfold nounRow. rewrite <- insert_empty, lookup_insert_ne by done.
  apply lookup_insert_eq.
Qed.

Lemma emptyFragmentRow_partOfSpeech :
  emptyFragmentRow !! "partOfSpeech" = Some (valueOf "http://example.org/ontology#").
Proof.
  unfold emptyFragmentRow. rewrite <- insert_empty, lookup_insert_ne by done.
  apply lookup_insert_eq.
Qed.

Lemma plainPosRow_partOfSpeech :
  plainPosRow !! "partOfSpeech" = Some (valueOf "noun").
Proof.
  unfold plainPosRow. rewrite <- insert_empty, lookup_insert_ne by done.
  apply lookup_insert_eq.
Qed.

Lemma noPosRow_partOfSpeech : noPosRow !! "partOfSpeech" = None.
Proof. unfold noPosRow. by rewrite lookup_singleton_ne. Qed.

Lemma rows_with_definition_kept :
  blankDefinition nounRow = false
  ∧ blankDefinition emptyFragmentRow = false
  ∧ blankDefinition plainPosRow = false
  ∧ blankDefinition noPosRow = false.
Proof.
  rewrite !blankDefinition_spec.
  unfold nounRow, emptyFragmentRow, plainPosRow, noPosRow.
  rewrite <- !insert_empty, !row_definition. by vm_compute.
Qed.

Lemma rows_without_definition_dropped :
  blankDefinition blankRow = true ∧ blankDefinition absentRow = true.
Proof.
  split.
  - rewrite blankDefinition_spec. unfold blankRow.
    rewrite <- !insert_empty, row_definition. by vm_compute.
  - unfold blankDefinition, absentRow. by rewrite lookup_singleton_ne.
Qed.

Lemma keptRows_one_entry (rows : list (gmap string (gmap string string))) :
  keptRows [mkSparqlEntry [] rows] =
  List.filter (fun b => negb (blankDefinition b)) rows.
Proof. unfold keptRows, bindingRows. simpl. by rewrite app_nil_r. Qed.

Example nounRow_converted :
  ConvertDBnaryEntries [mkSparqlEntry [] [nounRow; blankRow; absentRow]] "bank" =
  [ {| Word := "bank"; PartOfSpeech := "noun";
       Definition_ := "the land alongside a river";
       Example := ""; Source := "DBnary" |} ].
Proof. by vm_compute. Qed.

Example emptyFragmentRow_converted :
  ConvertDBnaryEntries [mkSparqlEntry [] [emptyFragmentRow; plainPosRow; noPosRow]] "bank" =
  [ {| Word := "bank"; PartOfSpeech := "http://example.org/ontology#";
       Definition_ := "the land alongside a river";
       Example := ""; Source := "DBnary" |};
    {| Word := "bank"; PartOfSpeech := "noun";
       Definition_ := "the land alongside a river";
       Example := ""; Source := "DBnary" |};
    {| Word := "bank"; PartOfSpeech := "";
       Definition_ := "the land alongside a river";
       Example := ""; Source := "DBnary" |} ].
Proof. by vm_compute. Qed.

Example nounRows_kept :
  keptRows [mkSparqlEntry [] [nounRow; noPosRow]] = [nounRow; noPosRow].
Proof.
  destruct rows_with_definition_kept as (H1 & _ & _ & H4).
  rewrite keptRows_one_entry. simpl. by rewrite H1, H4.
Qed.

Example emptyFragmentRows_kept :
  keptRows [mkSparqlEntry [] [emptyFragmentRow; plainPosRow]]
  = [emptyFragmentRow; plainPosRow].
Proof.
  destruct rows_with_definition_kept as (_ & H2 & H3 & _).
  rewrite keptRows_one_entry. simpl. by rewrite H2, H3.
Qed.

(** C5 as stated fails: the value [http://example.org/ontology#] has the
    empty string after its last ['#'], and the part of speech produced
    is the whole value. *)
Lemma partOfSpeech_empty_fragment_counterexample :
  ¬ (∀ (entries : list SparqlEntry) (word : string) (k : nat)
       (binding : gmap string (gmap string string)) (v : gmap string string)
       (pre frag : string) (d : DefinitionT),
       keptRows entries !! k = Some binding →
       binding !! "partOfSpeech" = Some v →
       map_index v "value" = (pre ++ String "#" frag)%string →
       hasByte "#" frag = false →
       ConvertDBnaryEntries entries word !! k = Some d →
       PartOfSpeech d = frag).
Proof.
  intros H.
  specialize (H [mkSparqlEntry [] [emptyFragmentRow; plainPosRow]] "bank" 0%nat
                emptyFragmentRow (valueOf "http://example.org/ontology#")
                "http://example.org/ontology" EmptyString
                {| Word := "bank"; PartOfSpeech := "http://example.org/ontology#";
                   Definition_ := "the land alongside a river";
                   Example := ""; Source := "DBnary" |}).
  rewrite emptyFragmentRows_kept, map_index_valueOf in H.
  specialize (H eq_refl emptyFragmentRow_partOfSpeech eq_refl eq_refl).
  assert (Hout : ConvertDBnaryEntries [mkSparqlEntry [] [emptyFragmentRow; plainPosRow]]
                   "bank" !! 0%nat
                 = Some {| Word := "bank"; PartOfSpeech := "http://example.org/ontology#";
                           Definition_ := "the land alongside a river";
                           Example := ""; Source := "DBnary" |})
    by (by vm_compute).
  specialize (H Hout). discriminate H.
Qed.

Lemma ConvertDBnaryEntries_partOfSpeech_fragment_witness :
  (∃ d, ConvertDBnaryEntries [mkSparqlEntry [] [nounRow; noPosRow]] "bank" !! 0%nat
          = Some d ∧ PartOfSpeech d = "noun")
  ∧ (∃ d, ConvertDBnaryEntries [mkSparqlEntry [] [nounRow; noPosRow]] "bank" !! 1%nat
            = Some d ∧ PartOfSpeech d = "").
Proof.
  split.
  - destruct (ConvertDBnaryEntries_partOfSpeech_fragment
                [mkSparqlEntry [] [nounRow; noPosRow]] "bank" 0%nat nounRow)
      as (d & Hd & _ & Hfrag).
    + rewrite nounRows_kept. reflexivity.
    + exists d. split; [exact Hd |].
      apply (Hfrag (valueOf "http://example.org/ontology#noun")
                   "http://example.org/ontology" "noun").
      * exact nounRow_partOfSpeech.
      * rewrite map_index_valueOf. reflexivity.
      * reflexivity.
      * intros Heq; discriminate Heq.
  - destruct (ConvertDBnaryEntries_partOfSpeech_fragment
                [mkSparqlEntry [] [nounRow; noPosRow]] "bank" 1%nat noPosRow)
      as (d & Hd & Habsent & _).
    + rewrite nounRows_kept. reflexivity.
    + exists d. split; [exact Hd |].
      apply Habsent. exact noPosRow_partOfSpeech.
Defined.

Lemma ConvertDBnaryEntries_partOfSpeech_kept_whole_witness :
  (∃ d, ConvertDBnaryEntries [mkSparqlEntry [] [emptyFragmentRow; plainPosRow]] "bank"
          !! 0%nat = Some d
        ∧ PartOfSpeech d = "http://example.org/ontology#")
  ∧ (∃ d, ConvertDBnaryEntries [mkSparqlEntry [] [emptyFragmentRow; plainPosRow]] "bank"
            !! 1%nat = Some d
          ∧ PartOfSpeech d = "noun").
Proof.
  split.
  - destruct (ConvertDBnaryEntries_partOfSpeech_kept_whole
                [mkSparqlEntry [] [emptyFragmentRow; plainPosRow]] "bank" 0%nat
                emptyFragmentRow (valueOf "http://example.org/ontology#"))
      as (d & Hd & Hend & _).
    + rewrite emptyFragmentRows_kept. reflexivity.
    + exact emptyFragmentRow_partOfSpeech.
    + exists d. split; [exact Hd |].
      rewrite map_index_valueOf in Hend.
      apply Hend. exists "http://example.org/ontology". reflexivity.
  - destruct (ConvertDBnaryEntries_partOfSpeech_kept_whole
                [mkSparqlEntry [] [emptyFragmentRow; plainPosRow]] "bank" 1%nat
                plainPosRow (valueOf "noun"))
      as (d & Hd & _ & Hno & _).
    + rewrite emptyFragmentRows_kept. reflexivity.
    + exact plainPosRow_partOfSpeech.
    + exists d. split; [exact Hd |].
      rewrite map_index_valueOf in Hno.
      apply Hno. reflexivity.
Defined.

(** ** The provider clients *)

Section client_facts.

Context {L : GoLib}.

(** The status code can be read back from the error that carries it. *)
Lemma statusCodeOf_statusError (code : Z) :
  statusCodeOf (statusError code) = Some code.
Proof.
  unfold statusCodeOf, statusError, Itoa. simpl.
  by rewrite NilEmpty.isi, DecimalZ.of_to.
Qed.

Lemma statusError_inj (code code' : Z) :
  statusError code = statusError code' → code = code'.
Proof.
  intros H. apply (f_equal statusCodeOf) in H.
  rewrite !statusCodeOf_statusError in H. by injection H.
Qed.

Lemma LookupDictEntry_response (net : Network) (word : string) (response : Response) :
  client_Get net
    ("https://api.dictionaryapi.dev/api/v2/entries/en/" ++ url.PathEscape word)%string
    = inl response →
  LookupDictEntry net word =
    if StatusCode response =? 200
    then decodeDictBody (Body response)
    else ([], Some (statusError (StatusCode response))).
Proof.
  intros Hget. unfold LookupDictEntry, StatusOK. rewrite Hget.
  by destruct (StatusCode response =? 200).
Qed.

Lemma LookupDBnaryEntry_response (net : Network) (word : string)
    (req : Request) (response : Response) :
  sparqlRequest word = inl req →
  client_Do net req = inl response →
  LookupDBnaryEntry net word =
    if StatusCode response =? 200
    then decodeSparqlBody (Body response)
    else ([], Some (statusError (StatusCode response))).
Proof.
  unfold LookupDBnaryEntry, StatusOK.
  intros -> ->. by destruct (StatusCode response =? 200).
Qed.

(** C6, as the code has it, for each client on its own.  Whatever the
    other provider does: when the provider of a client answers with a
    status code other than 200, the client returns no records and the
    error that carries this status code; when it answers with 200, the
    client returns what the decoding of the body gives. *)
Theorem Lookup_status_not_OK (net : Network) (word : string) :
  (∀ response : Response,
     client_Get net
       ("https://api.dictionaryapi.dev/api/v2/entries/en/" ++ url.PathEscape word)%string
       = inl response →
     (StatusCode response ≠ 200 →
        LookupDictEntry net word = ([], Some (statusError (StatusCode response)))
        ∧ statusCodeOf (statusError (StatusCode response))
          = Some (StatusCode response))
     ∧ (StatusCode response = 200 →
        LookupDictEntry net word = decodeDictBody (Body response)))
  ∧ (∀ (req : Request) (response : Response),
       sparqlRequest word = inl req →
       client_Do net req = inl response →
       (StatusCode response ≠ 200 →
          LookupDBnaryEntry net word = ([], Some (statusError (StatusCode response)))
          ∧ statusCodeOf (statusError (StatusCode response))
            = Some (StatusCode response))
       ∧ (StatusCode response = 200 →
          LookupDBnaryEntry net word = decodeSparqlBody (Body response))).
Proof.
  split.
  - intros response Hget.
    rewrite (LookupDictEntry_response _ _ _ Hget).
    repeat split; try apply statusCodeOf_statusError.
    + by destruct (Z.eqb_spec (StatusCode response) 200).
    + by intros ->.
  - intros req response Hreq Hdo.
    rewrite (LookupDBnaryEntry_response _ _ _ _ Hreq Hdo).
    repeat split; try apply statusCodeOf_statusError.
    + by destruct (Z.eqb_spec (StatusCode response) 200).
    + by intros ->.
Qed.

(** C7. For an answer of the first provider with status 200,
    [LookupDictEntry] reads the first token of the body before anything
    else: when this token is not the opening bracket of an array, it
    returns no entries and the error "Expected array", whatever the rest of
    the body holds; when no token can be read, it returns no entries and
    the error of the decoder. *)
Theorem LookupDictEntry_expects_array (net : Network) (word : string)
    (response : Response) :
  client_Get net
    ("https://api.dictionaryapi.dev/api/v2/entries/en/" ++ url.PathEscape word)%string
    = inl response →
  StatusCode response = 200 →
  (∀ token decoder,
     Decoder_Token (json_NewDecoder (Body response)) = (inl token, decoder) →
     token ≠ Delim "[" →
     LookupDictEntry net word = ([], Some expectedArrayError))
  ∧ (∀ err decoder,
     Decoder_Token (json_NewDecoder (Body response)) = (inr err, decoder) →
     LookupDictEntry net word = ([], Some err)).
Proof.
  intros Hget Hok.
  rewrite (LookupDictEntry_response _ _ _ Hget), Hok. simpl.
  unfold decodeDictBody. split.
  - intros token decoder -> Hne.
    destruct token as [c| | | |]; try done.
    destruct c as [[] [] [] [] [] [] [] []]; try done.
  - by intros err decoder ->.
Qed.

End client_facts.

(** ** The loop of [LookupDictEntry] ends *)

Section decoder_facts.

Context {L : GoLib} {Laws : GoLibLaws L}.

(** With as much fuel as bytes left in the body, the loop over the
    elements comes to its end. *)
Lemma decodeEntries_ends (fuel : nat) (decoder : Decoder) (entries : list DictEntry) :
  (Decoder_Buffered decoder ≤ fuel)%nat →
  decodeEntries fuel decoder entries ≠ None.
Proof.
  revert decoder entries.
  induction fuel as [|fuel IH]; intros decoder entries Hfuel; simpl.
  - destruct (Decoder_More decoder) eqn:Hmore; [|done].
    apply More_Buffered in Hmore. lia.
  - destruct (Decoder_More decoder) eqn:Hmore; [|done].
    destruct (Decoder_DecodeDictEntry decoder) as [[entry|err] decoder'] eqn:Hdec;
      [|done].
    apply IH. apply Decode_Buffered in Hdec. lia.
Qed.

(** More fuel does not change what the loop returns. *)
Lemma decodeEntries_more_fuel (fuel fuel' : nat) (decoder : Decoder)
    (entries : list DictEntry) (r : (list DictEntry + error) * Decoder) :
  decodeEntries fuel decoder entries = Some r →
  (fuel ≤ fuel')%nat →
  decodeEntries fuel' decoder entries = Some r.
Proof.
  revert fuel' decoder entries.
  induction fuel as [|fuel IH]; intros fuel' decoder entries; simpl.
  - destruct (Decoder_More decoder) eqn:Hmore; [done |].
    intros Hr _. destruct fuel'; simpl; by rewrite Hmore.
  - destruct (Decoder_More decoder) eqn:Hmore.
    + intros Hr Hle. destruct fuel' as [|fuel']; [lia |]. simpl. rewrite Hmore.
      destruct (Decoder_DecodeDictEntry decoder) as [[entry|err] decoder'];
        [|done].
      apply IH; [done | lia].
    + intros Hr _. destruct fuel'; simpl; by rewrite Hmore.
Qed.

End decoder_facts.

(** The small library keeps the laws of the streaming decoder. *)
Lemma miniLib_laws : GoLibLaws miniLib.
Proof.
  split.
  - intros d. simpl. unfold MiniJSON.decoder_More.
    destruct (MiniJSON.input d); simpl; [done | lia].
  - intros d entry d'. simpl. unfold MiniJSON.decoder_Decode.
    repeat case_match; try done.
    all: intros [= <- <-]; simpl; by apply Nat.ltb_lt.
Qed.

(** ** The aggregation engine *)

Section merge_facts.

Context {A B : Type}.

Lemma Merge_nil_l (l2 l : list A) : Merge [] l2 l → l = l2.
Proof.
  intros H. remember [] as l1 eqn:E. induction H; try done.
  f_equal. by apply IHMerge.
Qed.

Lemma Merge_nil_r (l1 l : list A) : Merge l1 [] l → l = l1.
Proof.
  intros H. remember [] as l2 eqn:E. induction H; try done.
  f_equal. by apply IHMerge.
Qed.

Lemma Merge_left_only (l : list A) : Merge l [] l.
Proof. induction l; by constructor. Qed.

Lemma Merge_right_only (l : list A) : Merge [] l l.
Proof. induction l; by constructor. Qed.

Lemma Merge_app (l1 l2 : list A) : Merge l1 l2 (l1 ++ l2).
Proof.
  induction l1 as [|a l1 IH]; simpl; [apply Merge_right_only | by constructor].
Qed.

Lemma Merge_singletons (a b : A) (l : list A) :
  Merge [a] [b] l → l = [a; b] ∨ l = [b; a].
Proof.
  intros H. inversion H as [|? ? ? ? H'|? ? ? ? H']; subst.
  - left. f_equal. by apply Merge_nil_l.
  - right. f_equal. by apply Merge_nil_r.
Qed.

Lemma Merge_omap (f : A → option B) (l1 l2 l : list A) :
  Merge l1 l2 l → Merge (omap f l1) (omap f l2) (omap f l).
Proof.
  induction 1 as [|a l1 l2 l H IH|a l1 l2 l H IH]; simpl.
  - constructor.
  - destruct (f a); [by constructor | done].
  - destruct (f a); [by constructor | done].
Qed.

Lemma Merge_elem_of (l1 l2 l : list A) (x : A) :
  Merge l1 l2 l → x ∈ l → x ∈ l1 ∨ x ∈ l2.
Proof.
  induction 1 as [|a l1 l2 l H IH|a l1 l2 l H IH]; intros Hx.
  - by left.
  - apply elem_of_cons in Hx as [->|Hx]; [left; by left |].
    destruct (IH Hx); [left; by right | by right].
  - apply elem_of_cons in Hx as [->|Hx]; [right; by left |].
    destruct (IH Hx); [by left | right; by right].
Qed.

End merge_facts.

Section engine_facts.

Context {L : GoLib}.

(** A schedule interleaves the sends of the two goroutines. *)
Lemma interleave_Merge (sched : list bool) (p1 p2 : list send) :
  Merge p1 p2 (interleave sched p1 p2).
Proof.
  revert p1 p2. induction sched as [|b sched IH]; intros p1 p2; simpl.
  - apply Merge_app.
  - destruct b.
    + destruct p1 as [|a p1]; [apply IH | constructor; apply IH].
    + destruct p2 as [|a p2]; [apply IH | constructor; apply IH].
Qed.

(** Every interleaving is the one of some schedule. *)
Lemma Merge_interleave (p1 p2 l : list send) :
  Merge p1 p2 l → ∃ sched, l = interleave sched p1 p2.
Proof.
  induction 1 as [|a l1 l2 l H [sched ->]|a l1 l2 l H [sched ->]].
  - by exists [].
  - by exists (true :: sched).
  - by exists (false :: sched).
Qed.

Lemma deliver_all (l : list send) (c : Channels) :
  fold_left deliver l c =
  {| defChan := defChan c ++ defsOf l;
     errChan := errChan c ++ errsOf l;
     durChan := durChan c ++ dursOf l |}.
Proof.
  revert c. induction l as [|a l IH]; intros c; simpl.
  - destruct c. simpl. by rewrite !app_nil_r.
  - rewrite IH. destruct a; simpl; by rewrite <- ?app_assoc.
Qed.

(** The closed channels hold the messages of both goroutines, those of
    each goroutine in its program order. *)
Lemma closedChannels_Merge (net : Network) (clock : Clock) (sched : list bool)
    (word : string) :
  let c := closedChannels net clock sched word in
  Merge (defsOf (dictTask net clock word)) (defsOf (dbnaryTask net clock word)) (defChan c)
  ∧ Merge (errsOf (dictTask net clock word)) (errsOf (dbnaryTask net clock word)) (errChan c)
  ∧ Merge (dursOf (dictTask net clock word)) (dursOf (dbnaryTask net clock word)) (durChan c).
Proof.
  unfold closedChannels. rewrite deliver_all. simpl.
  repeat split; apply Merge_omap, interleave_Merge.
Qed.

Lemma drainDefs_concat (defChan : list (list DefinitionT)) :
  drainDefs defChan = concat defChan.
Proof.
  unfold drainDefs.
  rewrite (fold_left_appending (fun acc defs => acc ++ defs)) by done.
  simpl. by rewrite flat_map_concat_map, map_id.
Qed.

(** What the first goroutine sends. *)
Lemma dictTask_sends (net : Network) (clock : Clock) (word : string) :
  let t := dictTask net clock word in
  match snd (LookupDictEntry net word) with
  | Some err => defsOf t = [] ∧ errsOf t = [err] ∧ dursOf t = []
  | None =>
    defsOf t = [ConvertDictEntries (fst (LookupDictEntry net word))]
    ∧ errsOf t = []
    ∧ dursOf t = [("dictionaryapi.dev", since_dict clock)]
  end.
Proof.
  unfold dictTask. by destruct (LookupDictEntry net word) as [entries [err|]].
Qed.

(** What the second goroutine sends. *)
Lemma dbnaryTask_sends (net : Network) (clock : Clock) (word : string) :
  let t := dbnaryTask net clock word in
  match snd (LookupDBnaryEntry net word) with
  | Some err => defsOf t = [] ∧ errsOf t = [err] ∧ dursOf t = []
  | None =>
    defsOf t = [ConvertDBnaryEntries (fst (LookupDBnaryEntry net word)) word]
    ∧ errsOf t = []
    ∧ dursOf t = [("DBnary", since_dbnary clock)]
  end.
Proof.
  unfold dbnaryTask. by destruct (LookupDBnaryEntry net word) as [entries [err|]].
Qed.

(** C1, as the code has it.  When a provider task reports an error,
    [LookupAll] returns the first error buffered on the error channel,
    which is the error of one of the tasks, and the zero-value timing
    record; the definitions it returns are those gathered from the
    provider that succeeded, and none when both failed. *)
Theorem LookupAll_first_error (net : Network) (clock : Clock) (sched : list bool)
    (word : string) :
  snd (LookupDictEntry net word) ≠ None ∨ snd (LookupDBnaryEntry net word) ≠ None →
  ∃ err,
    LookupAll net clock sched word =
      (match snd (LookupDictEntry net word), snd (LookupDBnaryEntry net word) with
       | None, _ => ConvertDictEntries (fst (LookupDictEntry net word))
       | _, None => ConvertDBnaryEntries (fst (LookupDBnaryEntry net word)) word
       | Some _, Some _ => []
       end,
       LookupTiming_zero, Some err)
    ∧ head (errChan (closedChannels net clock sched word)) = Some err
    ∧ (snd (LookupDictEntry net word) = Some err
       ∨ snd (LookupDBnaryEntry net word) = Some err).
Proof.
  intros Hfail. unfold LookupAll.
  destruct (closedChannels_Merge net clock sched word) as (Hdef & Herr & _).
  pose proof (dictTask_sends net clock word) as H1.
  pose proof (dbnaryTask_sends net clock word) as H2.
  simpl in H1, H2. rewrite drainDefs_concat.
  destruct (snd (LookupDictEntry net word)) as [e1|],
           (snd (LookupDBnaryEntry net word)) as [e2|];
    destruct H1 as (Hd1 & He1 & _), H2 as (Hd2 & He2 & _);
    rewrite Hd1, Hd2 in Hdef; rewrite He1, He2 in Herr.
  - apply Merge_nil_l in Hdef. rewrite Hdef.
    apply Merge_singletons in Herr as [-> | ->]; simpl; eauto.
  - apply Merge_nil_l in Hdef. apply Merge_nil_r in Herr.
    rewrite Hdef, Herr. simpl. rewrite app_nil_r. eauto.
  - apply Merge_nil_r in Hdef. apply Merge_nil_l in Herr.
    rewrite Hdef, Herr. simpl. rewrite app_nil_r. eauto.
  - by destruct Hfail.
Qed.

Lemma drainDurs_two (n1 n2 : string) (t1 t2 : Z) (durChan : list (string * Z)) :
  n1 ≠ n2 →
  Merge [(n1, t1)] [(n2, t2)] durChan →
  drainDurs durChan ∅ = <[ n1 := t1 ]> {[ n2 := t2 ]}.
Proof.
  intros Hne H. apply Merge_singletons in H as [-> | ->]; unfold drainDurs; simpl.
  - rewrite insert_empty. by apply insert_insert_ne.
  - by rewrite insert_empty.
Qed.

(** C2. When [LookupAll] returns a nil error, both providers completed
    without error, the definitions returned are their two batches, and
    [Sources] holds exactly two entries, one for each of them, with the
    time its goroutine measured: every definition returned comes from a
    provider that has an entry, and every entry is for a provider that
    succeeded. *)
Theorem LookupAll_sources (net : Network) (clock : Clock) (sched : list bool)
    (word : string) :
  snd (LookupAll net clock sched word) = None →
  let defs := fst (fst (LookupAll net clock sched word)) in
  let timing := snd (fst (LookupAll net clock sched word)) in
  let dictDefs := ConvertDictEntries (fst (LookupDictEntry net word)) in
  let dbnaryDefs := ConvertDBnaryEntries (fst (LookupDBnaryEntry net word)) word in
  ∃ sources,
    Sources timing = Some sources
    ∧ sources = <[ "dictionaryapi.dev" := since_dict clock ]>
                  {[ "DBnary" := since_dbnary clock ]}
    ∧ size sources = 2%nat
    ∧ snd (LookupDictEntry net word) = None
    ∧ snd (LookupDBnaryEntry net word) = None
    ∧ (defs = dictDefs ++ dbnaryDefs ∨ defs = dbnaryDefs ++ dictDefs)
    ∧ Forall (fun d => is_Some (sources !! Source d)) defs
    ∧ Total timing = since_total clock.
Proof.
  unfold LookupAll.
  destruct (closedChannels_Merge net clock sched word) as (Hdef & Herr & Hdur).
  pose proof (dictTask_sends net clock word) as H1.
  pose proof (dbnaryTask_sends net clock word) as H2.
  simpl in H1, H2. rewrite drainDefs_concat.
  destruct (snd (LookupDictEntry net word)) as [e1|],
           (snd (LookupDBnaryEntry net word)) as [e2|];
    destruct H1 as (Hd1 & He1 & Ht1), H2 as (Hd2 & He2 & Ht2);
    rewrite Hd1, Hd2 in Hdef; rewrite He1, He2 in Herr; rewrite Ht1, Ht2 in Hdur.
  - apply Merge_singletons in Herr as [-> | ->]; done.
  - apply Merge_nil_r in Herr. by rewrite Herr.
  - apply Merge_nil_l in Herr. by rewrite Herr.
  - apply Merge_nil_l in Herr. rewrite Herr. simpl. intros _.
    eexists. split; [reflexivity |].
    rewrite (drainDurs_two "dictionaryapi.dev" "DBnary" _ _ _ ltac:(done) Hdur).
    split; [done |]. split; [by vm_compute |]. split; [done |]. split; [done |].
    assert (Hsrc : Forall (fun d => is_Some
              ((<[ "dictionaryapi.dev" := since_dict clock ]>
                  {[ "DBnary" := since_dbnary clock ]} : gmap string Z) !! Source d))
              (ConvertDictEntries (fst (LookupDictEntry net word)) ++
               ConvertDBnaryEntries (fst (LookupDBnaryEntry net word)) word)).
    { apply Forall_app. split.
      - eapply Forall_impl; [apply ConvertDictEntries_Source |].
        intros d ->. by eexists.
      - eapply Forall_impl; [apply ConvertDBnaryEntries_Source |].
        intros d ->. by eexists. }
    apply Merge_singletons in Hdef as [-> | ->]; simpl; rewrite app_nil_r.
    + split; [by left |]. by split.
    + split; [by right |]. split; [|done].
      apply Forall_app. apply Forall_app in Hsrc. tauto.
Qed.

(** C9. Every [Definition] of the first normalizer has the source
    [dictionaryapi.dev], every [Definition] of the second normalizer has
    the source [DBnary], and every [Definition] that [LookupAll] returns
    has one of these two sources. *)
Theorem Source_provenance (entries : list DictEntry) (sparql : list SparqlEntry)
    (net : Network) (clock : Clock) (sched : list bool) (word : string) :
  Forall (fun d => Source d = "dictionaryapi.dev") (ConvertDictEntries entries)
  ∧ Forall (fun d => Source d = "DBnary") (ConvertDBnaryEntries sparql word)
  ∧ Forall (fun d => Source d = "dictionaryapi.dev" ∨ Source d = "DBnary")
           (fst (fst (LookupAll net clock sched word))).
Proof.
  split; [apply ConvertDictEntries_Source |].
  split; [apply ConvertDBnaryEntries_Source |].
  assert (Hall : Forall (fun d => Source d = "dictionaryapi.dev" ∨ Source d = "DBnary")
            (drainDefs (defChan (closedChannels net clock sched word)))).
  { rewrite drainDefs_concat. apply Forall_concat, Forall_forall.
    intros batch Hbatch.
    destruct (closedChannels_Merge net clock sched word) as (Hdef & _ & _).
    destruct (Merge_elem_of _ _ _ _ Hdef Hbatch) as [Hin | Hin].
    - pose proof (dictTask_sends net clock word) as H1. simpl in H1.
      destruct (snd (LookupDictEntry net word));
        destruct H1 as (Hd1 & _); rewrite Hd1 in Hin.
      + by apply elem_of_nil in Hin.
      + apply list_elem_of_singleton in Hin as ->.
        eapply Forall_impl; [apply ConvertDictEntries_Source |]. by left.
    - pose proof (dbnaryTask_sends net clock word) as H2. simpl in H2.
      destruct (snd (LookupDBnaryEntry net word));
        destruct H2 as (Hd2 & _); rewrite Hd2 in Hin.
      + by apply elem_of_nil in Hin.
      + apply list_elem_of_singleton in Hin as ->.
        eapply Forall_impl; [apply ConvertDBnaryEntries_Source |]. by right. }
  unfold LookupAll. by destruct (errChan _).
Qed.

End engine_facts.

(** ** The schedules are the executions of the two goroutines *)

Section engine_runs.

Context {L : GoLib}.

Lemma steps_trans (r1 r2 r3 : Running) : steps r1 r2 → steps r2 r3 → steps r1 r3.
Proof.
  induction 1 as [|r1 r2 r2' Hstep Hsteps IH]; [done |].
  intros H. eapply steps_step; [exact Hstep | by apply IH].
Qed.

Lemma sends_cons (a : send) (p : list send) :
  defsOf (a :: p) = match a with SendDefs defs => defs :: defsOf p | _ => defsOf p end
  ∧ errsOf (a :: p) = match a with SendErr err => err :: errsOf p | _ => errsOf p end
  ∧ dursOf (a :: p) =
      match a with SendDur name dur => (name, dur) :: dursOf p | _ => dursOf p end.
Proof. by destruct a. Qed.

(** A send of the first goroutine that has room keeps room for the rest. *)
Lemma fits_deliver_left (c : Channels) (a : send) (p1 p2 : list send) :
  fits c (a :: p1) p2 → (queued c a < capacity)%nat ∧ fits (deliver c a) p1 p2.
Proof.
  unfold fits. destruct (sends_cons a p1) as (-> & -> & ->).
  destruct a; cbn [queued deliver defChan errChan durChan List.length];
    rewrite ?length_app; cbn [List.length]; lia.
Qed.

Lemma fits_deliver_right (c : Channels) (a : send) (p1 p2 : list send) :
  fits c p1 (a :: p2) → (queued c a < capacity)%nat ∧ fits (deliver c a) p1 p2.
Proof.
  unfold fits. destruct (sends_cons a p2) as (-> & -> & ->).
  destruct a; cbn [queued deliver defChan errChan durChan List.length];
    rewrite ?length_app; cbn [List.length]; lia.
Qed.

(** Every interleaving of sends that fit the channels is an execution:
    no send ever waits for room. *)
Lemma Merge_steps (p1 p2 l : list send) (c : Channels) :
  Merge p1 p2 l → fits c p1 p2 →
  steps (mkRunning p1 p2 c) (mkRunning [] [] (fold_left deliver l c)).
Proof.
  intros H. revert c.
  induction H as [|a l1 l2 l H IH|a l1 l2 l H IH]; intros c Hfits; simpl.
  - constructor.
  - apply fits_deliver_left in Hfits as [Hroom Hfits].
    eapply steps_step; [by apply step_dict | by apply IH].
  - apply fits_deliver_right in Hfits as [Hroom Hfits].
    eapply steps_step; [by apply step_dbnary | by apply IH].
Qed.

(** Every execution that ends with both goroutines done delivers an
    interleaving of their sends. *)
Lemma steps_Merge (r r' : Running) :
  steps r r' → dictPending r' = [] → dbnaryPending r' = [] →
  ∃ l, Merge (dictPending r) (dbnaryPending r) l
       ∧ chans r' = fold_left deliver l (chans r).
Proof.
  induction 1 as [r|r1 r2 r3 Hstep Hsteps IH]; intros Hd1 Hd2.
  - exists []. rewrite Hd1, Hd2. split; [constructor | done].
  - destruct (IH Hd1 Hd2) as (l & Hl & Hc).
    destruct Hstep as [a p1 p2 c Hroom|a p1 p2 c Hroom]; simpl in *.
    + exists (a :: l). split; [by constructor | done].
    + exists (a :: l). split; [by constructor | done].
Qed.

(** The two goroutines of [LookupAll] send at most one message each on
    every channel, so their sends fit the channels of capacity 2. *)
Lemma tasks_fit (net : Network) (clock : Clock) (word : string) :
  fits newChannels (dictTask net clock word) (dbnaryTask net clock word).
Proof.
  pose proof (dictTask_sends net clock word) as H1.
  pose proof (dbnaryTask_sends net clock word) as H2.
  simpl in H1, H2. unfold fits.
  destruct (snd (LookupDictEntry net word)), (snd (LookupDBnaryEntry net word));
    destruct H1 as (-> & -> & ->), H2 as (-> & -> & ->); simpl; unfold capacity; lia.
Qed.

(** The channels [LookupAll] drains are those of the executions of the
    two goroutines: each schedule is an execution in which no send
    blocks, and each execution is the one of a schedule. *)
Lemma closedChannels_executions (net : Network) (clock : Clock) (word : string)
    (c : Channels) :
  steps (mkRunning (dictTask net clock word) (dbnaryTask net clock word) newChannels)
        (mkRunning [] [] c)
  ↔ ∃ sched, c = closedChannels net clock sched word.
Proof.
  split.
  - intros Hsteps.
    destruct (steps_Merge _ _ Hsteps eq_refl eq_refl) as (l & Hl & Hc).
    simpl in Hl, Hc.
    destruct (Merge_interleave _ _ _ Hl) as [sched ->]. by exists sched.
  - intros [sched ->]. unfold closedChannels.
    apply Merge_steps; [apply interleave_Merge | apply tasks_fit].
Qed.

(** The goroutines never leave more than two messages in a channel. *)
Lemma closedChannels_capacity (net : Network) (clock : Clock) (sched : list bool)
    (word : string) :
  let c := closedChannels net clock sched word in
  (List.length (defChan c) ≤ capacity)%nat
  ∧ (List.length (errChan c) ≤ capacity)%nat
  ∧ (List.length (durChan c) ≤ capacity)%nat.
Proof.
  destruct (closedChannels_Merge net clock sched word) as (Hdef & Herr & Hdur).
  pose proof (dictTask_sends net clock word) as H1.
  pose proof (dbnaryTask_sends net clock word) as H2.
  simpl in H1, H2. simpl.
  destruct (snd (LookupDictEntry net word)), (snd (LookupDBnaryEntry net word));
    destruct H1 as (Hd1 & He1 & Ht1), H2 as (Hd2 & He2 & Ht2);
    rewrite Hd1, Hd2 in Hdef; rewrite He1, He2 in Herr; rewrite Ht1, Ht2 in Hdur;
    repeat match goal with
    | H : Merge [] _ _ |- _ => apply Merge_nil_l in H; rewrite H
    | H : Merge _ [] _ |- _ => apply Merge_nil_r in H; rewrite H
    | H : Merge [_] [_] _ |- _ => apply Merge_singletons in H as [-> | ->]
    end; simpl; unfold capacity; lia.
Qed.

End engine_runs.

(** ** The search history *)

Section history_facts.

Context {L : GoLib}.

(** A missing history file reads as the empty history, without error. *)
Lemma getRecentSearches_absent (file : string) (fs : FS) :
  historyPath file ∉ denied fs →
  files fs !! historyPath file = None →
  getRecentSearches (Some file) fs = ([], None).
Proof.
  intros Hok Habs. unfold getRecentSearches, ReadFile. fold (historyPath file).
  rewrite decide_False by done. by rewrite Habs.
Qed.

(** A history file reads as what the library decodes from its content. *)
Lemma getRecentSearches_present (file : string) (fs : FS) (jsonString : string) :
  historyPath file ∉ denied fs →
  files fs !! historyPath file = Some jsonString →
  getRecentSearches (Some file) fs =
    match json_Unmarshal jsonString with
    | inl recentSearches => (recentSearches, None)
    | inr err => ([], Some err)
    end.
Proof.
  intros Hok Hfile. unfold getRecentSearches, ReadFile. fold (historyPath file).
  rewrite decide_False by done. by rewrite Hfile.
Qed.

(** Adding a word writes the history with the word at its end. *)
Lemma addRecentSearch_writes (file : string) (fs : FS) (hist : list string)
    (word jsonString : string) :
  historyPath file ∉ denied fs →
  filepath_Join (filepath_Dir file) "data" ∉ denied fs →
  getRecentSearches (Some file) fs = (hist, None) →
  json_Marshal (hist ++ [word]) = inl jsonString →
  addRecentSearch (Some file) word fs =
    ((jsonString, None),
     {| files := <[ historyPath file := jsonString ]> (files fs);
        dirs := {[ filepath_Join (filepath_Dir file) "data" ]} ∪ dirs fs;
        denied := denied fs |}).
Proof.
  intros Hpath Hdir Hget Hmarshal. unfold addRecentSearch.
  rewrite Hget, Hmarshal. unfold MkdirAll, WriteFile. simpl.
  rewrite decide_False by done. simpl. fold (historyPath file).
  by rewrite decide_False by done.
Qed.

Lemma addRecentSearch_appends (file : string) (fs : FS) (hist : list string)
    (word : string) :
  historyPath file ∉ denied fs →
  filepath_Join (filepath_Dir file) "data" ∉ denied fs →
  getRecentSearches (Some file) fs = (hist, None) →
  roundTrips (hist ++ [word]) →
  let fs' := snd (addRecentSearch (Some file) word fs) in
  getRecentSearches (Some file) fs' = (hist ++ [word], None)
  ∧ denied fs' = denied fs.
Proof.
  intros Hpath Hdir Hget (jsonString & Hmarshal & Hunmarshal) fs'. subst fs'.
  rewrite (addRecentSearch_writes _ _ _ _ _ Hpath Hdir Hget Hmarshal).
  cbn [snd denied]. split; [|done].
  rewrite (getRecentSearches_present _ _ jsonString); cbn [files denied]; try done.
  - by rewrite Hunmarshal.
  - apply lookup_insert_eq.
Qed.

(** C8. With a library that writes and reads back the lists in
    question, and a disk that does not refuse the history file and its
    directory: a missing history file reads as the empty list without
    error; after [addRecentSearch("ephemeral")] on it the history reads
    [["ephemeral"]], and after [addRecentSearch("second")] it reads
    [["ephemeral"; "second"]].  In general an append keeps the entries read
    before, in order, and puts the new word at the end. *)
Theorem history_round_trip (file : string) (fs : FS) :
  historyPath file ∉ denied fs →
  filepath_Join (filepath_Dir file) "data" ∉ denied fs →
  (files fs !! historyPath file = None →
   roundTrips ["ephemeral"] →
   roundTrips ["ephemeral"; "second"] →
   let fs1 := snd (addRecentSearch (Some file) "ephemeral" fs) in
   let fs2 := snd (addRecentSearch (Some file) "second" fs1) in
   getRecentSearches (Some file) fs = ([], None)
   ∧ getRecentSearches (Some file) fs1 = (["ephemeral"], None)
   ∧ getRecentSearches (Some file) fs2 = (["ephemeral"; "second"], None))
  ∧ (∀ hist word,
       getRecentSearches (Some file) fs = (hist, None) →
       roundTrips (hist ++ [word]) →
       getRecentSearches (Some file) (snd (addRecentSearch (Some file) word fs))
         = (hist ++ [word], None)).
Proof.
  intros Hpath Hdir. split.
  - intros Habs Hrt1 Hrt2 fs1 fs2.
    pose proof (getRecentSearches_absent _ _ Hpath Habs) as H0.
    destruct (addRecentSearch_appends file fs [] "ephemeral" Hpath Hdir H0 Hrt1)
      as (H1 & Hden1).
    fold fs1 in H1, Hden1. split; [done |]. split; [done |].
    apply (addRecentSearch_appends file fs1 ["ephemeral"] "second");
      rewrite ?Hden1; done.
  - intros hist word Hget Hrt.
    by apply (addRecentSearch_appends file fs hist word).
Qed.

End history_facts.

(** ** The clients, the engine and the history on concrete worlds *)

Example LookupAll_bothAnswer :
  fst (LookupAll (L:=miniLib) bothAnswer exampleClock [false; true] "bank") =
  ([ {| Word := "bank"; PartOfSpeech := "noun";
        Definition_ := "a financial institution";
        Example := ""; Source := "DBnary" |};
     {| Word := "bank"; PartOfSpeech := "noun";
        Definition_ := "the land alongside a river";
        Example := ""; Source := "dictionaryapi.dev" |} ],
   {| Total := 310;
      Sources := Some (<[ "dictionaryapi.dev" := 150 ]> {[ "DBnary" := 300 ]}) |}).
Proof. vm_compute. reflexivity. Qed.

Example LookupAll_secondTimesOut :
  LookupAll (L:=miniLib) secondTimesOut exampleClock [] "bank" =
  ([ {| Word := "bank"; PartOfSpeech := "noun";
        Definition_ := "the land alongside a river";
        Example := ""; Source := "dictionaryapi.dev" |} ],
   LookupTiming_zero,
   Some (NetError "context deadline exceeded")).
Proof. vm_compute. reflexivity. Qed.

(** C1 as stated fails: with the first provider answering and the second
    timing out, [LookupAll] returns the error together with the definition
    of the first provider, not with empty definitions. *)
Lemma LookupAll_keeps_definitions_counterexample :
  ¬ (∀ (L : GoLib) (net : Network) (clock : Clock) (sched : list bool)
       (word : string),
       snd (LookupDictEntry net word) ≠ None
       ∨ snd (LookupDBnaryEntry net word) ≠ None →
       ∃ err, LookupAll net clock sched word = ([], LookupTiming_zero, Some err)).
Proof.
  intros H.
  destruct (H miniLib secondTimesOut exampleClock [] "bank") as [err Herr].
  - right. vm_compute. discriminate.
  - rewrite LookupAll_secondTimesOut in Herr. discriminate Herr.
Qed.

Lemma LookupAll_first_error_witness :
  snd (LookupDBnaryEntry (L:=miniLib) secondTimesOut "bank") ≠ None
  ∧ ∃ err,
      LookupAll (L:=miniLib) secondTimesOut exampleClock [true; false] "bank" =
        (ConvertDictEntries (fst (LookupDictEntry (L:=miniLib) secondTimesOut "bank")),
         LookupTiming_zero, Some err)
      ∧ err = NetError "context deadline exceeded".
Proof.
  split; [vm_compute; discriminate |].
  destruct (LookupAll_first_error (L:=miniLib) secondTimesOut exampleClock
              [true; false] "bank") as (err & Heq & Hhead & _).
  - right. vm_compute. discriminate.
  - exists err. split; [exact Heq |].
    vm_compute in Hhead. by injection Hhead.
Defined.

Lemma LookupAll_sources_witness :
  snd (LookupAll (L:=miniLib) bothAnswer exampleClock [false; true] "bank") = None
  ∧ ∃ sources,
      Sources (snd (fst (LookupAll (L:=miniLib) bothAnswer exampleClock [false; true] "bank")))
        = Some sources
      ∧ sources !! "dictionaryapi.dev" = Some 150
      ∧ sources !! "DBnary" = Some 300
      ∧ size sources = 2%nat.
Proof.
  split; [vm_compute; reflexivity |].
  destruct (LookupAll_sources (L:=miniLib) bothAnswer exampleClock [false; true] "bank")
    as (sources & Hs & Heq & Hsize & _).
  - vm_compute. reflexivity.
  - exists sources. split; [exact Hs |]. rewrite Heq. by vm_compute.
Defined.

(** C6 as stated fails for a status code of the class 2xx other than
    200: an answer with status 204 makes [LookupDictEntry] return the
    status error. *)
Lemma Lookup_status_204_counterexample :
  ¬ (∀ (L : GoLib) (net : Network) (word : string) (response : Response),
       client_Get net
         ("https://api.dictionaryapi.dev/api/v2/entries/en/" ++ url.PathEscape word)%string
         = inl response →
       successStatus (StatusCode response) = true →
       snd (LookupDictEntry net word) ≠ Some (statusError (StatusCode response))).
Proof.
  intros H.
  apply (H miniLib (answerStatus 204) "bank" (mkResponse 204 dictBody));
    vm_compute; reflexivity.
Qed.

Lemma Lookup_status_not_OK_witness :
  LookupDictEntry (L:=miniLib) (firstStatusSecondTimesOut 404) "bank"
    = ([], Some (statusError 404))
  ∧ LookupDBnaryEntry (L:=miniLib) (firstUnreachableSecondStatus 503) "bank"
    = ([], Some (statusError 503))
  ∧ statusCodeOf (statusError 404) = Some 404
  ∧ LookupDictEntry (L:=miniLib) (answerStatus 200) "bank" = decodeDictBody (L:=miniLib) dictBody.
Proof.
  destruct (Lookup_status_not_OK (L:=miniLib) (firstStatusSecondTimesOut 404) "bank")
    as (Hdict & _).
  destruct (Hdict (mkResponse 404 dictBody) eq_refl) as (H404 & _).
  destruct (Lookup_status_not_OK (L:=miniLib) (firstUnreachableSecondStatus 503) "bank")
    as (_ & Hsparql).
  destruct (Hsparql
              (Header_Set
                 (Header_Set
                    (mkRequest "GET"
                       (endpoint ++ "?" ++ url.Values_Encode1 "query" (sparqlQuery "bank"))
                       ∅)
                    "Accept" "application/sparql-results+json")
                 "User-Agent" "gofetch/0.1 (+local)")
              (mkResponse 503 dbnaryBody) eq_refl eq_refl) as (H503 & _).
  destruct (Lookup_status_not_OK (L:=miniLib) (answerStatus 200) "bank") as (Hok & _).
  destruct (Hok (mkResponse 200 dictBody) eq_refl) as (_ & H200).
  split; [apply H404; simpl; lia |].
  split; [apply H503; simpl; lia |].
  split; [apply H404; simpl; lia |].
  apply H200. reflexivity.
Defined.

Lemma LookupDictEntry_expects_array_witness :
  Decoder_Token (json_NewDecoder (GoLib:=miniLib) objectBody)
    = (inl (Delim "{"),
       MiniJSON.mkDecoder (MiniJSON.input (snd (Decoder_Token
            (json_NewDecoder (GoLib:=miniLib) objectBody)))) MiniJSON.tokenTopValue)
  ∧ LookupDictEntry (L:=miniLib) answersObject "bank" = ([], Some expectedArrayError).
Proof.
  split; [vm_compute; reflexivity |].
  destruct (LookupDictEntry_expects_array (L:=miniLib) answersObject "bank"
              (mkResponse 200 objectBody) eq_refl eq_refl) as (Htoken & _).
  eapply (Htoken (Delim "{")).
  - vm_compute. reflexivity.
  - intros Heq. discriminate Heq.
Defined.

Example roundTrips_ephemeral : roundTrips (L:=miniLib) ["ephemeral"].
Proof.
  exists ("[" ++ dq ++ "ephemeral" ++ dq ++ "]")%string.
  split; by vm_compute.
Qed.

Example roundTrips_ephemeral_second : roundTrips (L:=miniLib) ["ephemeral"; "second"].
Proof.
  exists ("[" ++ dq ++ "ephemeral" ++ dq ++ "," ++ dq ++ "second" ++ dq ++ "]")%string.
  split; by vm_compute.
Qed.

Lemma history_round_trip_witness :
  getRecentSearches (L:=miniLib) (Some sourceFile) emptyDisk = ([], None)
  ∧ getRecentSearches (L:=miniLib) (Some sourceFile)
      (snd (addRecentSearch (L:=miniLib) (Some sourceFile) "ephemeral" emptyDisk))
    = (["ephemeral"], None)
  ∧ getRecentSearches (L:=miniLib) (Some sourceFile)
      (snd (addRecentSearch (L:=miniLib) (Some sourceFile) "second"
         (snd (addRecentSearch (L:=miniLib) (Some sourceFile) "ephemeral" emptyDisk))))
    = (["ephemeral"; "second"], None).
Proof.
  destruct (history_round_trip (L:=miniLib) sourceFile emptyDisk) as (Hconcrete & _).
  - apply not_elem_of_empty.
  - apply not_elem_of_empty.
  - apply Hconcrete.
    + vm_compute. reflexivity.
    + exact roundTrips_ephemeral.
    + exact roundTrips_ephemeral_second.
Defined.


(** * Further properties *)

(** ** The search history: failures, frame and sequences of appends *)

Section history_more.

Context {L : GoLib}.

(** The two ways [addRecentSearch] ends on this disk: with an error and
    the files as they were, or with the history file replaced by the
    encoding of the history read before and the word. *)
Lemma addRecentSearch_cases (caller : option string) (word : string) (fs : FS) :
  (∃ err fs',
     addRecentSearch caller word fs = ((EmptyString, Some err), fs')
     ∧ files fs' = files fs ∧ denied fs' = denied fs ∧ dirs fs ⊆ dirs fs')
  ∨ (∃ file jsonString,
       caller = Some file
       ∧ (historyPath file ∉ denied fs)
       ∧ json_Marshal ((fst (getRecentSearches caller fs)) ++ [word]) = inl jsonString
       ∧ addRecentSearch caller word fs =
           ((jsonString, None),
            {| files := <[ historyPath file := jsonString ]> (files fs);
               dirs := {[ filepath_Join (filepath_Dir file) "data" ]} ∪ dirs fs;
               denied := denied fs |})).
Proof.
  unfold addRecentSearch.
  destruct (getRecentSearches caller fs) as [hist err] eqn:Hget. simpl.
  destruct (match err with Some e => negb (IsNotExist e) | None => false end) eqn:Hstop.
  { destruct err as [e|]; [|done]. left. by exists e, fs. }
  destruct (json_Marshal (hist ++ [word])) as [jsonString|e]; [|left; by exists e, fs].
  destruct caller as [file|]; [|left; by eexists _, fs].
  unfold MkdirAll.
  destruct (decide (filepath_Join (filepath_Dir file) "data" ∈ denied fs));
    [left; by eexists _, fs |].
  unfold WriteFile. simpl. fold (historyPath file).
  destruct (decide (historyPath file ∈ denied fs)).
  - left. eexists _, _. split; [reflexivity |]. simpl. set_solver.
  - right. by exists file, jsonString.
Qed.

(** A history that cannot be read is an error with no list: an
    unresolved caller, a history file the disk refuses, and a history file
    whose content the library cannot decode; only a missing file is read
    as the empty history. *)
Theorem getRecentSearches_failures (file : string) (fs : FS) :
  getRecentSearches None fs = ([], Some (Errorf "cannot resolve path"))
  ∧ (historyPath file ∈ denied fs →
     getRecentSearches (Some file) fs = ([], Some (PathError false (historyPath file))))
  ∧ (∀ data err,
       historyPath file ∉ denied fs →
       files fs !! historyPath file = Some data →
       json_Unmarshal data = inr err →
       getRecentSearches (Some file) fs = ([], Some err))
  ∧ (historyPath file ∉ denied fs →
     files fs !! historyPath file = None →
     getRecentSearches (Some file) fs = ([], None))
  ∧ (∀ caller, snd (getRecentSearches caller fs) ≠ None →
               fst (getRecentSearches caller fs) = []).
Proof.
  split; [done |]. split; [|split; [|split]].
  - intros Hden. unfold getRecentSearches, ReadFile. fold (historyPath file).
    by rewrite decide_True by done.
  - intros data err Hden Hfile Herr.
    unfold getRecentSearches, ReadFile. fold (historyPath file).
    rewrite decide_False by done. by rewrite Hfile, Herr.
  - intros Hden Hfile. unfold getRecentSearches, ReadFile. fold (historyPath file).
    rewrite decide_False by done. by rewrite Hfile.
  - intros [f|]; [|done]. unfold getRecentSearches.
    destruct (ReadFile fs _) as [data|e].
    + by destruct (json_Unmarshal data).
    + by destruct (IsNotExist e).
Qed.

(** The errors [addRecentSearch] meets before it writes.  A history that
    cannot be read (refused, or with content that cannot be decoded) makes
    it return the error of the read with no bytes and leave the disk as
    it is: such a file is never overwritten.  So does a list the library
    cannot encode.  When the data directory is refused it returns this
    refusal with no bytes, and every file is as before. *)
Theorem addRecentSearch_errors_before_write (caller : option string)
    (word : string) (fs : FS) :
  (∀ err, snd (getRecentSearches caller fs) = Some err →
          IsNotExist err = false →
          addRecentSearch caller word fs = ((EmptyString, Some err), fs))
  ∧ (∀ hist err,
       getRecentSearches caller fs = (hist, None) →
       json_Marshal (hist ++ [word]) = inr err →
       addRecentSearch caller word fs = ((EmptyString, Some err), fs))
  ∧ (∀ file hist jsonString,
       caller = Some file →
       getRecentSearches caller fs = (hist, None) →
       json_Marshal (hist ++ [word]) = inl jsonString →
       filepath_Join (filepath_Dir file) "data" ∈ denied fs →
       fst (addRecentSearch caller word fs)
         = (EmptyString, Some (PathError false (filepath_Join (filepath_Dir file) "data")))
       ∧ files (snd (addRecentSearch caller word fs)) = files fs).
Proof.
  split; [|split].
  - intros err Herr Hne. unfold addRecentSearch.
    destruct (getRecentSearches caller fs) as [hist e]. simpl in Herr. subst e.
    by rewrite Hne.
  - intros hist err Hget Henc. unfold addRecentSearch. by rewrite Hget, Henc.
  - intros file hist jsonString -> Hget Henc Hdir.
    unfold addRecentSearch. rewrite Hget, Henc. unfold MkdirAll.
    by rewrite decide_True by done.
Qed.

(** [addRecentSearch] changes no file but the history file, refuses no
    path that was allowed and allows none that was refused, and removes no
    directory, whether it succeeds or fails; with an unresolved caller it
    changes nothing at all. *)
Theorem addRecentSearch_frame (file word : string) (fs : FS) :
  let fs' := snd (addRecentSearch (Some file) word fs) in
  (∀ path, path ≠ historyPath file → files fs' !! path = files fs !! path)
  ∧ denied fs' = denied fs
  ∧ dirs fs ⊆ dirs fs'
  ∧ snd (addRecentSearch None word fs) = fs.
Proof.
  intros fs'. subst fs'. repeat split.
  - destruct (addRecentSearch_cases (Some file) word fs)
      as [(err & fs' & -> & Hf & Hd & Hdirs) | (file' & j & Hc & _ & _ & ->)]; simpl.
    + by rewrite Hf.
    + injection Hc as <-. intros path Hpath. by rewrite lookup_insert_ne.
  - destruct (addRecentSearch_cases (Some file) word fs)
      as [(err & fs' & -> & Hf & Hd & Hdirs) | (file' & j & Hc & _ & _ & ->)]; done.
  - destruct (addRecentSearch_cases (Some file) word fs)
      as [(err & fs' & -> & Hf & Hd & Hdirs) | (file' & j & Hc & _ & _ & ->)];
      simpl; [done | set_solver].
Qed.

(** When [addRecentSearch] succeeds, the history file holds exactly the
    bytes it returns, which encode the history it read followed by the
    word: whatever the file held before is replaced. *)
Theorem addRecentSearch_success_replaces (file word : string) (fs : FS)
    (jsonString : string) (fs' : FS) :
  addRecentSearch (Some file) word fs = ((jsonString, None), fs') →
  files fs' !! historyPath file = Some jsonString
  ∧ json_Marshal ((fst (getRecentSearches (Some file) fs)) ++ [word]) = inl jsonString
  ∧ (historyPath file ∉ denied fs)
  ∧ (filepath_Join (filepath_Dir file) "data" ∈ dirs fs').
Proof.
  intros Hadd.
  destruct (addRecentSearch_cases (Some file) word fs)
    as [(err & fs1 & Heq & _) | (file' & j & Hc & Hden & Hm & Heq)];
    rewrite Heq in Hadd; [done |].
  injection Hc as <-. injection Hadd as -> <-. simpl.
  split; [apply lookup_insert_eq |]. split; [done |]. split; [done | set_solver].
Qed.

Lemma addAll_denied (file : string) (words : list string) (fs : FS) :
  denied (addAll (Some file) words fs) = denied fs.
Proof.
  revert fs. induction words as [|w words IH]; intros fs; [done |].
  unfold addAll in *. simpl. rewrite IH.
  destruct (addRecentSearch_cases (Some file) w fs)
    as [(err & fs' & -> & _ & Hd & _) | (file' & j & _ & _ & _ & ->)]; done.
Qed.

(** Appends compose: from a readable history, adding the words of a list
    one after the other makes the history the old one followed by the
    words, in the order of the calls and with repeated words kept, as long
    as the library writes and reads back each of the lists on the way. *)
Theorem addAll_appends (file : string) (words hist : list string) (fs : FS) :
  historyPath file ∉ denied fs →
  filepath_Join (filepath_Dir file) "data" ∉ denied fs →
  getRecentSearches (Some file) fs = (hist, None) →
  (∀ k, (0 < k ≤ List.length words)%nat → roundTrips (hist ++ take k words)) →
  getRecentSearches (Some file) (addAll (Some file) words fs) = (hist ++ words, None).
Proof.
  revert hist fs. induction words as [|w words IH]; intros hist fs Hp Hd Hget Hrt.
  - by rewrite app_nil_r.
  - change (addAll (Some file) (w :: words) fs)
      with (addAll (Some file) words (snd (addRecentSearch (Some file) w fs))).
    assert (Hrt1 : roundTrips (hist ++ [w])) by (apply (Hrt 1%nat); simpl; lia).
    destruct (addRecentSearch_appends file fs hist w Hp Hd Hget Hrt1) as (Hget1 & Hden1).
    simpl in Hget1, Hden1.
    rewrite (IH (hist ++ [w])); rewrite ?Hden1; try done.
    + by rewrite <- app_assoc.
    + intros k Hk. rewrite <- app_assoc. apply (Hrt (S k)). simpl. lia.
Qed.

End history_more.

(** ** The search history on concrete disks *)

Example historyPath_sourceFile :
  historyPath (L:=miniLib) sourceFile = "/home/user/DictFetch/data/recent_search.json".
Proof. by vm_compute. Qed.

Lemma addRecentSearch_errors_before_write_witness :
  snd (getRecentSearches (L:=miniLib) (Some sourceFile) corruptDisk)
    = Some (JSONError "unexpected end of JSON input")
  ∧ addRecentSearch (L:=miniLib) (Some sourceFile) "bank" corruptDisk
    = ((EmptyString, Some (JSONError "unexpected end of JSON input")), corruptDisk).
Proof.
  assert (Hget : snd (getRecentSearches (L:=miniLib) (Some sourceFile) corruptDisk)
                 = Some (JSONError "unexpected end of JSON input")) by (by vm_compute).
  split; [exact Hget |].
  apply (proj1 (addRecentSearch_errors_before_write (L:=miniLib)
                  (Some sourceFile) "bank" corruptDisk) _ Hget).
  reflexivity.
Defined.

Lemma addRecentSearch_success_replaces_witness :
  files (snd (addRecentSearch (L:=miniLib) (Some sourceFile) "second" oldDisk))
    !! "/home/user/DictFetch/data/recent_search.json"
  = Some ("[" ++ dq ++ "first" ++ dq ++ "," ++ dq ++ "second" ++ dq ++ "]")%string.
Proof.
  rewrite <- historyPath_sourceFile.
  apply (addRecentSearch_success_replaces (L:=miniLib) sourceFile "second" oldDisk).
  rewrite (surjective_pairing (addRecentSearch _ _ _)). f_equal; by vm_compute.
Defined.

Lemma addAll_appends_witness :
  getRecentSearches (L:=miniLib) (Some sourceFile)
    (addAll (L:=miniLib) (Some sourceFile) ["bank"; "river"; "bank"] emptyDisk)
  = (["bank"; "river"; "bank"], None).
Proof.
  apply (addAll_appends (L:=miniLib) sourceFile ["bank"; "river"; "bank"] [] emptyDisk).
  - apply not_elem_of_empty.
  - apply not_elem_of_empty.
  - by vm_compute.
  - intros [|[|[|[|k]]]] Hk; simpl in Hk; try lia.
    + exists ("[" ++ dq ++ "bank" ++ dq ++ "]")%string. split; by vm_compute.
    + exists ("[" ++ dq ++ "bank" ++ dq ++ "," ++ dq ++ "river" ++ dq ++ "]")%string.
      split; by vm_compute.
    + exists ("[" ++ dq ++ "bank" ++ dq ++ "," ++ dq ++ "river" ++ dq ++ ","
              ++ dq ++ "bank" ++ dq ++ "]")%string.
      split; by vm_compute.
Defined.

(** ** The normalizers: composition, accounting and what they ignore *)

Section normalizers_more.

Lemma keptRows_app (entries1 entries2 : list SparqlEntry) :
  keptRows (entries1 ++ entries2) = keptRows entries1 ++ keptRows entries2.
Proof. unfold keptRows, bindingRows. by rewrite flat_map_app, List.filter_app. Qed.

(** Both normalizers work entry by entry: the output for two lists of
    records one after the other is the output for the first followed by
    the output for the second; no records, an entry without meanings and
    a result without bindings give no definitions. *)
Theorem normalizers_append (entries1 entries2 : list DictEntry)
    (sparql1 sparql2 : list SparqlEntry) (word entryWord : string)
    (vars : list string) :
  ConvertDictEntries (entries1 ++ entries2)
    = ConvertDictEntries entries1 ++ ConvertDictEntries entries2
  ∧ ConvertDBnaryEntries (sparql1 ++ sparql2) word
    = ConvertDBnaryEntries sparql1 word ++ ConvertDBnaryEntries sparql2 word
  ∧ ConvertDictEntries [] = []
  ∧ ConvertDBnaryEntries [] word = []
  ∧ ConvertDictEntries [mkDictEntry entryWord []] = []
  ∧ ConvertDBnaryEntries [mkSparqlEntry vars []] word = [].
Proof.
  repeat split.
  - by rewrite !ConvertDictEntries_flat_map, flat_map_app.
  - by rewrite !ConvertDBnaryEntries_rows, keptRows_app, map_app.
Qed.

Lemma filter_partition_length {A : Type} (p : A → bool) (l : list A) :
  (List.length (List.filter (fun x => negb (p x)) l)
   + List.length (List.filter p l) = List.length l)%nat.
Proof.
  induction l as [|x l IH]; simpl; [done |].
  destruct (p x); simpl; lia.
Qed.

(** Every [Definition] of the second normalizer carries the word that was
    looked up, the value of the [definition] variable as it came (not
    trimmed) and the value of the [example] variable, empty when the
    variable is absent; the rows dropped and the definitions produced add
    up to the rows of the result. *)
Theorem ConvertDBnaryEntries_accounting (entries : list SparqlEntry) (word : string) :
  Forall (fun d => Word d = word) (ConvertDBnaryEntries entries word)
  ∧ (List.length (ConvertDBnaryEntries entries word)
     + List.length (List.filter blankDefinition (bindingRows entries))
     = List.length (bindingRows entries))%nat
  ∧ Forall2 (fun binding d =>
               Definition_ d = bindingValue binding "definition"
               ∧ Example d = bindingValue binding "example"
               ∧ (binding !! "example" = None → Example d = EmptyString))
            (keptRows entries) (ConvertDBnaryEntries entries word).
Proof.
  rewrite ConvertDBnaryEntries_rows. repeat split.
  - apply List.Forall_map. by apply List.Forall_forall.
  - rewrite length_map. apply filter_partition_length.
  - apply Forall2_fmap_r, Forall_Forall2_diag, Forall_forall.
    intros binding _. simpl. repeat split.
    unfold bindingValue. by intros ->.
Qed.

Lemma convertEntry_eraseThesaurus (entry : DictEntry) :
  convertEntry [] (eraseThesaurus entry) = convertEntry [] entry.
Proof.
  unfold convertEntry.
  rewrite !(fold_left_appending (convertMeaning _)) by apply convertMeaning_eq.
  simpl. rewrite !flat_map_concat_map. f_equal.
  rewrite map_map. apply map_ext. intros meaning.
  rewrite !convertMeaning_nil. simpl. by rewrite map_map.
Qed.

(** The first normalizer reads the word, the parts of speech, the
    definitions and the examples only: the synonyms and antonyms of a
    record have no effect on its output. *)
Theorem ConvertDictEntries_ignores_thesaurus (entries : list DictEntry) :
  ConvertDictEntries (map eraseThesaurus entries) = ConvertDictEntries entries.
Proof.
  rewrite !ConvertDictEntries_flat_map, !flat_map_concat_map, map_map.
  f_equal. apply map_ext, convertEntry_eraseThesaurus.
Qed.

(** The part of speech made from a value is always an end piece of the
    value, and it holds a ['#'] only when the value ends with ['#']. *)
Theorem ConvertDBnaryEntries_partOfSpeech_suffix
    (entries : list SparqlEntry) (word : string) (k : nat)
    (binding : gmap string (gmap string string)) (v : gmap string string) :
  keptRows entries !! k = Some binding →
  binding !! "partOfSpeech" = Some v →
  ∃ d, ConvertDBnaryEntries entries word !! k = Some d
    ∧ (∃ pre, map_index v "value" = (pre ++ PartOfSpeech d)%string)
    ∧ (hasByte "#" (PartOfSpeech d) = true →
       ∃ pre, map_index v "value" = (pre ++ "#")%string).
Proof.
  intros Hk Hv. exists (rowDefinition word binding).
  rewrite ConvertDBnaryEntries_lookup, Hk. split; [done |]. simpl.
  destruct (hasByte "#" (map_index v "value")) eqn:Hhas.
  - destruct (hasByte_split_last _ _ Hhas) as (pre & frag & Hval & Hfrag).
    rewrite (bindingPos_split _ _ _ _ Hv Hval Hfrag).
    destruct frag as [|c frag].
    + split; [by exists EmptyString |]. intros _. by exists pre.
    + split.
      * exists (pre ++ "#")%string. by rewrite Hval, string_app_assoc.
      * intros Hin. by rewrite Hin in Hfrag.
  - rewrite (bindingPos_no_hash _ _ Hv Hhas).
    split; [by exists EmptyString |]. intros Hin. by rewrite Hin in Hhas.
Qed.

End normalizers_more.

Lemma ConvertDBnaryEntries_partOfSpeech_suffix_witness :
  ∃ d, ConvertDBnaryEntries [mkSparqlEntry [] [nounRow; noPosRow]] "bank" !! 0%nat = Some d
    ∧ ∃ pre, "http://example.org/ontology#noun" = (pre ++ PartOfSpeech d)%string.
Proof.
  destruct (ConvertDBnaryEntries_partOfSpeech_suffix
              [mkSparqlEntry [] [nounRow; noPosRow]] "bank" 0%nat nounRow
              (valueOf "http://example.org/ontology#noun"))
    as (d & Hd & Hsuffix & _).
  - rewrite nounRows_kept. reflexivity.
  - exact nounRow_partOfSpeech.
  - exists d. split; [exact Hd |].
    rewrite map_index_valueOf in Hsuffix. exact Hsuffix.
Defined.

(** ** The aggregation engine: what the schedule decides *)

Section engine_more.

Context {L : GoLib}.

Lemma interleave_nil_l (sched : list bool) (p : list send) : interleave sched [] p = p.
Proof.
  revert p. induction sched as [|[] sched IH]; intros p; simpl; [done | apply IH |].
  destruct p as [|a p]; [apply IH | by rewrite IH].
Qed.

Lemma interleave_nil_r (sched : list bool) (p : list send) : interleave sched p [] = p.
Proof.
  revert p. induction sched as [|[] sched IH]; intros p; simpl.
  - apply app_nil_r.
  - destruct p as [|a p]; [apply IH | by rewrite IH].
  - apply IH.
Qed.

(** What [LookupAll] returns, by the outcomes of the two clients. *)
Lemma LookupAll_cases (net : Network) (clock : Clock) (sched : list bool) (word : string) :
  let dictDefs := ConvertDictEntries (fst (LookupDictEntry net word)) in
  let dbnaryDefs := ConvertDBnaryEntries (fst (LookupDBnaryEntry net word)) word in
  let timing := {| Total := since_total clock;
                   Sources := Some (<[ "dictionaryapi.dev" := since_dict clock ]>
                                      {[ "DBnary" := since_dbnary clock ]}) |} in
  match snd (LookupDictEntry net word), snd (LookupDBnaryEntry net word) with
  | None, None =>
    LookupAll net clock sched word = (dictDefs ++ dbnaryDefs, timing, None)
    ∨ LookupAll net clock sched word = (dbnaryDefs ++ dictDefs, timing, None)
  | Some e1, None => LookupAll net clock sched word = (dbnaryDefs, LookupTiming_zero, Some e1)
  | None, Some e2 => LookupAll net clock sched word = (dictDefs, LookupTiming_zero, Some e2)
  | Some e1, Some e2 =>
    LookupAll net clock sched word = ([], LookupTiming_zero, Some e1)
    ∨ LookupAll net clock sched word = ([], LookupTiming_zero, Some e2)
  end.
Proof.
  unfold LookupAll.
  destruct (closedChannels_Merge net clock sched word) as (Hdef & Herr & Hdur).
  pose proof (dictTask_sends net clock word) as H1.
  pose proof (dbnaryTask_sends net clock word) as H2.
  simpl in H1, H2. rewrite drainDefs_concat.
  destruct (snd (LookupDictEntry net word)) as [e1|],
           (snd (LookupDBnaryEntry net word)) as [e2|];
    destruct H1 as (Hd1 & He1 & Ht1), H2 as (Hd2 & He2 & Ht2);
    rewrite Hd1, Hd2 in Hdef; rewrite He1, He2 in Herr; rewrite Ht1, Ht2 in Hdur.
  - apply Merge_nil_l in Hdef. rewrite Hdef.
    apply Merge_singletons in Herr as [-> | ->]; simpl; auto.
  - apply Merge_nil_l in Hdef. apply Merge_nil_r in Herr.
    rewrite Hdef, Herr. simpl. by rewrite app_nil_r.
  - apply Merge_nil_r in Hdef. apply Merge_nil_l in Herr.
    rewrite Hdef, Herr. simpl. by rewrite app_nil_r.
  - apply Merge_nil_l in Herr. rewrite Herr.
    rewrite (drainDurs_two "dictionaryapi.dev" "DBnary" _ _ _ ltac:(done) Hdur).
    apply Merge_singletons in Hdef as [-> | ->]; simpl; rewrite app_nil_r; auto.
Qed.

Lemma dictTask_error (net : Network) (clock : Clock) (word : string) (err : error) :
  snd (LookupDictEntry net word) = Some err → dictTask net clock word = [SendErr err].
Proof.
  unfold dictTask. destruct (LookupDictEntry net word) as [entries [e|]]; simpl; congruence.
Qed.

Lemma dbnaryTask_error (net : Network) (clock : Clock) (word : string) (err : error) :
  snd (LookupDBnaryEntry net word) = Some err → dbnaryTask net clock word = [SendErr err].
Proof.
  unfold dbnaryTask. destruct (LookupDBnaryEntry net word) as [entries [e|]]; simpl; congruence.
Qed.

(** When both providers fail, the error [LookupAll] returns is the one
    of the goroutine that sends first: the first provider's when the
    schedule lets the first goroutine go first, the second provider's when
    it lets the second go first.  Both outcomes occur. *)
Theorem LookupAll_first_sender_wins (net : Network) (clock : Clock)
    (sched : list bool) (word : string) (e1 e2 : error) :
  snd (LookupDictEntry net word) = Some e1 →
  snd (LookupDBnaryEntry net word) = Some e2 →
  LookupAll net clock (true :: sched) word = ([], LookupTiming_zero, Some e1)
  ∧ LookupAll net clock (false :: sched) word = ([], LookupTiming_zero, Some e2).
Proof.
  intros H1 H2. unfold LookupAll, closedChannels.
  rewrite (dictTask_error _ _ _ _ H1), (dbnaryTask_error _ _ _ _ H2). simpl.
  by rewrite interleave_nil_l, interleave_nil_r.
Qed.

(** The order in which the goroutines send decides only the order of the
    two batches of definitions and, when both providers fail, which error
    is returned: for any two schedules the timing record is the same, the
    definitions are the same up to their order, an error is returned under
    the one exactly when one is returned under the other, and the error is
    the same unless both providers failed. *)
Theorem LookupAll_schedule_independent (net : Network) (clock : Clock)
    (sched1 sched2 : list bool) (word : string) :
  snd (fst (LookupAll net clock sched1 word)) = snd (fst (LookupAll net clock sched2 word))
  ∧ fst (fst (LookupAll net clock sched1 word))
    ≡ₚ fst (fst (LookupAll net clock sched2 word))
  ∧ (snd (LookupAll net clock sched1 word) = None
     ↔ snd (LookupAll net clock sched2 word) = None)
  ∧ (snd (LookupDictEntry net word) = None ∨ snd (LookupDBnaryEntry net word) = None →
     snd (LookupAll net clock sched1 word) = snd (LookupAll net clock sched2 word)).
Proof.
  pose proof (LookupAll_cases net clock sched1 word) as C1.
  pose proof (LookupAll_cases net clock sched2 word) as C2.
  simpl in C1, C2.
  destruct (snd (LookupDictEntry net word)) as [e1|],
           (snd (LookupDBnaryEntry net word)) as [e2|].
  - destruct C1 as [-> | ->], C2 as [-> | ->]; simpl;
      (split; [done |]; split; [done |]; split; [done |]); by intros [|].
  - rewrite C1, C2. done.
  - rewrite C1, C2. done.
  - destruct C1 as [-> | ->], C2 as [-> | ->]; simpl;
      (split; [done |]; split; [done || apply Permutation_app_comm |]; done).
Qed.

(** [LookupAll] returns a nil error exactly when both clients do, whatever
    the schedule; two providers that both answer without any definition
    make it return no definitions, the full timing record and no error. *)
Theorem LookupAll_nil_error_iff (net : Network) (clock : Clock)
    (sched : list bool) (word : string) :
  (snd (LookupAll net clock sched word) = None
   ↔ snd (LookupDictEntry net word) = None ∧ snd (LookupDBnaryEntry net word) = None)
  ∧ (snd (LookupDictEntry net word) = None →
     snd (LookupDBnaryEntry net word) = None →
     ConvertDictEntries (fst (LookupDictEntry net word)) = [] →
     ConvertDBnaryEntries (fst (LookupDBnaryEntry net word)) word = [] →
     LookupAll net clock sched word =
       ([], {| Total := since_total clock;
               Sources := Some (<[ "dictionaryapi.dev" := since_dict clock ]>
                                  {[ "DBnary" := since_dbnary clock ]}) |}, None)).
Proof.
  pose proof (LookupAll_cases net clock sched word) as C. simpl in C.
  destruct (snd (LookupDictEntry net word)) as [e1|],
           (snd (LookupDBnaryEntry net word)) as [e2|].
  - split; [|done]. destruct C as [-> | ->]; simpl; split; try done; by intros [].
  - rewrite C. simpl. split; [|done]. split; [done | by intros []].
  - rewrite C. simpl. split; [|done]. split; [done | by intros []].
  - split.
    + destruct C as [-> | ->]; done.
    + intros _ _ E1 E2. rewrite E1, E2 in C. by destruct C.
Qed.

End engine_more.

Lemma LookupAll_first_sender_wins_witness :
  LookupAll (L:=miniLib) bothFail exampleClock [true; false] "bank"
    = ([], LookupTiming_zero, Some (NetError "no such host"))
  ∧ LookupAll (L:=miniLib) bothFail exampleClock [false; true] "bank"
    = ([], LookupTiming_zero, Some (NetError "context deadline exceeded")).
Proof.
  destruct (LookupAll_first_sender_wins (L:=miniLib) bothFail exampleClock [false] "bank"
              (NetError "no such host") (NetError "context deadline exceeded"))
    as (H1 & _); [by vm_compute | by vm_compute |].
  destruct (LookupAll_first_sender_wins (L:=miniLib) bothFail exampleClock [true] "bank"
              (NetError "no such host") (NetError "context deadline exceeded"))
    as (_ & H2); [by vm_compute | by vm_compute |].
  split; [exact H1 | exact H2].
Defined.

(** ** The provider clients: errors and request URLs *)

Section clients_more.

Context {L : GoLib}.

Lemma decodeDictBody_error (body : string) :
  snd (decodeDictBody body) ≠ None → fst (decodeDictBody body) = [].
Proof.
  unfold decodeDictBody.
  destruct (Decoder_Token (json_NewDecoder body)) as [[token|err] decoder]; [|done].
  destruct token as [c| | | |]; try done.
  destruct (Ascii.eqb_spec c "[") as [->|Hc].
  - destruct (decodeEntries _ decoder []) as [[[entries|err] decoder']|]; try done.
    by destruct (Decoder_Token decoder') as [[?|?] ?].
  - destruct c as [[] [] [] [] [] [] [] []]; done.
Qed.

(** A client that returns an error returns no records with it: this
    holds on every path of both clients, also when an element in the
    middle of the array fails to decode after others were decoded.  An
    error of the transport is returned as it is, and [LookupDBnaryEntry]
    without error returns exactly one result object. *)
Theorem clients_error_no_records (net : Network) (word : string) :
  (snd (LookupDictEntry net word) ≠ None → fst (LookupDictEntry net word) = [])
  ∧ (snd (LookupDBnaryEntry net word) ≠ None → fst (LookupDBnaryEntry net word) = [])
  ∧ (snd (LookupDBnaryEntry net word) = None →
     List.length (fst (LookupDBnaryEntry net word)) = 1%nat)
  ∧ (∀ err,
       client_Get net
         ("https://api.dictionaryapi.dev/api/v2/entries/en/" ++ url.PathEscape word)%string
         = inr err →
       LookupDictEntry net word = ([], Some err))
  ∧ (∀ req err, sparqlRequest word = inl req → client_Do net req = inr err →
                LookupDBnaryEntry net word = ([], Some err))
  ∧ (∀ err, sparqlRequest word = inr err → LookupDBnaryEntry net word = ([], Some err)).
Proof.
  repeat split.
  - unfold LookupDictEntry. destruct (client_Get net _) as [response|err]; [|done].
    destruct (negb _); [done | apply decodeDictBody_error].
  - unfold LookupDBnaryEntry. destruct (sparqlRequest word) as [req|err]; [|done].
    destruct (client_Do net req) as [response|err]; [|done].
    destruct (negb _); [done |]. unfold decodeSparqlBody.
    by destruct (Decoder_DecodeSparqlEntry _) as [[?|?] ?].
  - unfold LookupDBnaryEntry. destruct (sparqlRequest word) as [req|err]; [|done].
    destruct (client_Do net req) as [response|err]; [|done].
    destruct (negb _); [done |]. unfold decodeSparqlBody.
    by destruct (Decoder_DecodeSparqlEntry _) as [[?|?] ?].
  - intros err Hget. unfold LookupDictEntry. by rewrite Hget.
  - intros req err Hreq Hdo. unfold LookupDBnaryEntry. by rewrite Hreq, Hdo.
  - intros err Hreq. unfold LookupDBnaryEntry. by rewrite Hreq.
Qed.

End clients_more.

Example LookupDictEntry_broken_element :
  LookupDictEntry (L:=miniLib) answersBroken "bank"
  = ([], Some (JSONError "json: cannot unmarshal into Go value of type struct")).
Proof. by vm_compute. Qed.

Section url_facts.

Lemma string_forall_app (p : ascii → bool) (s t : string) :
  string_forall p (s ++ t) = string_forall p s && string_forall p t.
Proof.
  induction s as [|c s IH]; simpl; [done |]. by rewrite IH, andb_assoc.
Qed.

(** What one byte is escaped to is safe for its place. *)
Lemma escape_byte_safe (c : ascii) :
  string_forall pathSafe (url.escape (String c EmptyString) url.encodePathSegment) = true
  ∧ string_forall querySafe (url.escape (String c EmptyString) url.encodeQueryComponent)
    = true.
Proof. destruct c as [[] [] [] [] [] [] [] []]; by vm_compute. Qed.

Lemma escape_cons (c : ascii) (s : string) (mode : url.encoding) :
  url.escape (String c s) mode
  = (url.escape (String c EmptyString) mode ++ url.escape s mode)%string.
Proof.
  simpl. destruct (url.shouldEscape c mode); [|done].
  by destruct c as [[] [] [] [] [] [] [] []], mode.
Qed.

(** Whatever the word, what it contributes to the request URLs is made of
    unreserved characters, [%], [+] and, in the path, the reserved
    characters a path segment may hold: the escaped word holds no [/],
    [?], [#], space or quote, and the encoded query holds letters, digits,
    [-_.~%+] only. *)
Theorem request_urls_escaped (word : string) :
  string_forall pathSafe (url.PathEscape word) = true
  ∧ string_forall querySafe (url.QueryEscape (sparqlQuery word)) = true
  ∧ hasByte "/" (url.PathEscape word) = false
  ∧ hasByte "?" (url.PathEscape word) = false
  ∧ hasByte "#" (url.PathEscape word) = false
  ∧ hasByte " " (url.PathEscape word) = false.
Proof.
  assert (Hpath : ∀ s, string_forall pathSafe (url.PathEscape s) = true).
  { unfold url.PathEscape. induction s as [|c s IH]; [done |].
    rewrite escape_cons, string_forall_app, IH.
    by rewrite (proj1 (escape_byte_safe c)). }
  assert (Hquery : ∀ s, string_forall querySafe (url.QueryEscape s) = true).
  { unfold url.QueryEscape. induction s as [|c s IH]; [done |].
    rewrite escape_cons, string_forall_app, IH.
    by rewrite (proj2 (escape_byte_safe c)). }
  assert (Hno : ∀ c s, pathSafe c = false → string_forall pathSafe s = true →
                       hasByte c s = false).
  { intros c s Hc. induction s as [|a s IH]; simpl; [done |].
    intros [Ha Hs]%andb_prop. rewrite (IH Hs), orb_false_r.
    destruct (Ascii.eqb_spec a c) as [->|]; [congruence | done]. }
  split; [apply Hpath |]. split; [apply Hquery |].
  repeat split; by apply Hno.
Qed.

End url_facts.

(** ** The command line: one lookup *)

Section cli_facts.

Context {L : GoLib} {T : GoText}.

Lemma ascii_blank_only (s : string) : ascii_blank s → ascii_only s.
Proof.
  intros Hblank i c Hget. specialize (Hblank i c Hget).
  unfold strings.asciiSpace, utf8.RuneSelf in *. lia.
Qed.

(** An input of ASCII white space only, the empty input included, makes
    [HandleInput] print "No input provided." and do nothing else: the disk
    is as before, whatever the network would answer. *)
Theorem HandleInput_blank (caller : option string) (w : World) (input : string)
    (verbose timingsFlag : bool) (fs : FS) :
  strings_ToLower EmptyString = EmptyString →
  ascii_blank input →
  HandleInput caller w input verbose timingsFlag fs
  = ([("No input provided." ++ nl)%string], fs).
Proof.
  intros Hlower Hblank. unfold HandleInput.
  rewrite (proj2 (TrimSpace_ascii_blank input (ascii_blank_only _ Hblank)) Hblank).
  by rewrite Hlower.
Qed.

Lemma HandleInput_disk (caller : option string) (w : World) (input : string)
    (verbose timingsFlag : bool) (fs : FS) :
  strings_ToLower (strings.TrimSpace input) ≠ EmptyString →
  snd (HandleInput caller w input verbose timingsFlag fs)
  = snd (addRecentSearch caller (strings_ToLower (strings.TrimSpace input)) fs).
Proof.
  intros Hne. unfold HandleInput.
  destruct (String.eqb_spec (strings_ToLower (strings.TrimSpace input)) EmptyString);
    [done |].
  destruct (addRecentSearch caller _ fs) as [[bytes err] fs'].
  destruct (LookupAll _ _ _ _) as [[entries timings] [e|]]; [done |].
  by destruct (List.length entries =? 0)%nat.
Qed.

(** A search is recorded before the lookup and whatever the lookup gives:
    after [HandleInput] on an input that is not blank, the history reads as
    the history before followed by the input trimmed and in lower case,
    for every answer of the network, every schedule and both flags. *)
Theorem HandleInput_records_search (file : string) (w : World) (input : string)
    (verbose timingsFlag : bool) (fs : FS) (hist : list string) :
  strings_ToLower (strings.TrimSpace input) ≠ EmptyString →
  historyPath file ∉ denied fs →
  filepath_Join (filepath_Dir file) "data" ∉ denied fs →
  getRecentSearches (Some file) fs = (hist, None) →
  roundTrips (hist ++ [strings_ToLower (strings.TrimSpace input)]) →
  getRecentSearches (Some file)
    (snd (HandleInput (Some file) w input verbose timingsFlag fs))
  = (hist ++ [strings_ToLower (strings.TrimSpace input)], None).
Proof.
  intros Hne Hp Hd Hget Hrt. rewrite HandleInput_disk by done.
  by apply (addRecentSearch_appends file fs hist).
Qed.

(** When the lookup of an input that is not blank returns an error,
    [HandleInput] prints the error after the line "Handling input" and
    nothing more, whatever definitions [LookupAll] returned with it; when
    the lookup returns no error and no definition, it prints "No entries
    found." and nothing more.  A failure to record the search is printed
    first and does not stop the lookup. *)
Theorem HandleInput_without_entries (caller : option string) (w : World)
    (input : string) (verbose timingsFlag : bool) (fs : FS) :
  let word := strings_ToLower (strings.TrimSpace input) in
  let result := LookupAll (world_net w) (world_clock w) (world_sched w) word in
  word ≠ EmptyString →
  (∀ e, snd result = Some e →
        fst (HandleInput caller w input verbose timingsFlag fs)
        = preamble caller word fs
          ++ [("Error looking up word: " ++ error_Error e ++ nl)%string])
  ∧ (snd result = None → fst (fst result) = [] →
     fst (HandleInput caller w input verbose timingsFlag fs)
     = preamble caller word fs ++ [("No entries found." ++ nl)%string]).
Proof.
  intros word result Hne. subst result. unfold HandleInput, preamble, recordFailure.
  fold word.
  destruct (String.eqb_spec word EmptyString); [done |].
  destruct (addRecentSearch caller word fs) as [[bytes err] fs'].
  destruct (LookupAll _ _ _ word) as [[entries timings] err']. simpl.
  split.
  - by intros e ->.
  - by intros -> ->.
Qed.

Lemma groupEntry_insert (grouped : gmap string (gmap string (list string)))
    (entry : DefinitionT) :
  groupEntry grouped entry =
  <[ Source entry :=
       <[ PartOfSpeech entry :=
            grouped_index grouped (Source entry) (PartOfSpeech entry)
            ++ [formatDefinition entry] ]>
         (default ∅ (grouped !! Source entry)) ]> grouped.
Proof.
  unfold groupEntry, grouped_index.
  destruct (grouped !! Source entry) as [inner|] eqn:Hsrc.
  - by rewrite Hsrc.
  - rewrite lookup_insert_eq. simpl. by rewrite insert_insert_eq.
Qed.

Lemma groupEntry_index (grouped : gmap string (gmap string (list string)))
    (entry : DefinitionT) (source pos : string) :
  grouped_index (groupEntry grouped entry) source pos =
  grouped_index grouped source pos
  ++ (if String.eqb (Source entry) source && String.eqb (PartOfSpeech entry) pos
      then [formatDefinition entry] else []).
Proof.
  rewrite groupEntry_insert. unfold grouped_index at 1.
  destruct (String.eqb_spec (Source entry) source) as [->|Hs].
  - rewrite lookup_insert_eq. simpl.
    destruct (String.eqb_spec (PartOfSpeech entry) pos) as [->|Hp].
    + by rewrite lookup_insert_eq.
    + rewrite lookup_insert_ne by done. by rewrite app_nil_r.
  - rewrite lookup_insert_ne by done. by rewrite app_nil_r.
Qed.

Lemma groupEntries_snoc (entries : list DefinitionT) (entry : DefinitionT) :
  groupEntries (entries ++ [entry]) = groupEntry (groupEntries entries) entry.
Proof. unfold groupEntries. by rewrite fold_left_app. Qed.

(** The grouping puts every entry under its source and its part of
    speech, formatted, in the order of the entries: what is read at a
    source and a part of speech is the list of the formatted entries that
    have this source and this part of speech; a source is a key exactly
    when some entry has it. *)
Theorem groupEntries_index (entries : list DefinitionT) (source pos : string) :
  grouped_index (groupEntries entries) source pos = formattedGroup entries source pos
  ∧ (is_Some (groupEntries entries !! source)
     ↔ ∃ d, d ∈ entries ∧ Source d = source).
Proof.
  induction entries as [|entry entries IH] using rev_ind.
  - split; [done |]. unfold groupEntries. simpl. rewrite lookup_empty. split.
    + by intros [? ?].
    + intros (d & Hd & _). by apply elem_of_nil in Hd.
  - destruct IH as [IH1 IH2]. rewrite groupEntries_snoc. split.
    + rewrite groupEntry_index, IH1. unfold formattedGroup.
      rewrite List.filter_app, map_app. simpl.
      by destruct (String.eqb (Source entry) source && String.eqb (PartOfSpeech entry) pos).
    + rewrite groupEntry_insert.
      destruct (String.eqb_spec (Source entry) source) as [<-|Hs].
      * rewrite lookup_insert_eq. split; [|by eexists].
        intros _. exists entry. split; [|done]. apply elem_of_app. right. by left.
      * rewrite lookup_insert_ne by done. rewrite IH2. split.
        -- intros (d & Hd & Hsrc). exists d. split; [|done].
           apply elem_of_app. by left.
        -- intros (d & Hd & Hsrc). exists d. split; [|done].
           apply elem_of_app in Hd as [Hd|Hd]; [done |].
           apply list_elem_of_singleton in Hd. by subst.
Qed.

End cli_facts.

(** ** The command line: what is printed for the entries *)

Section print_facts.

Context {L : GoLib} {T : GoText}.

Lemma printDefs_from (verbose : bool) (i : nat) (defs : list string) :
  printDefs verbose i defs
  = map bulletLine (if verbose then defs else take (3 - i) defs).
Proof.
  revert i. induction defs as [|def defs IH]; intros i.
  - destruct verbose; [done |]. by rewrite take_nil.
  - cbn [printDefs]. destruct verbose; cbn [negb andb].
    + by rewrite IH.
    + destruct (Nat.leb_spec 3 i) as [Hi|Hi].
      * by replace (3 - i)%nat with 0%nat by lia.
      * rewrite IH. replace (3 - i)%nat with (S (3 - S i)) by lia. done.
Qed.

(** Under a part of speech the loop prints the title and then one line
    for each definition, in order: all of them when [verbose] is set, the
    first three at most when it is not. *)
Theorem printPos_limit (verbose : bool) (pos : string) (defs : list string) :
  printPos verbose (pos, defs)
  = (nl ++ "[" ++ strings_Title pos ++ "]" ++ nl)%string
      :: map bulletLine (if verbose then defs else take 3 defs)
  ∧ (List.length (printPos false (pos, defs)) ≤ 4)%nat
  ∧ List.length (printPos true (pos, defs)) = S (List.length defs).
Proof.
  unfold printPos. simpl. rewrite !printDefs_from. simpl. split; [done |].
  rewrite !length_map, length_take. split; lia.
Qed.

Lemma filter_flat_map {A B : Type} (p : B → bool) (f : A → list B) (l : list A) :
  List.filter p (flat_map f l) = flat_map (fun x => List.filter p (f x)) l.
Proof.
  induction l as [|x l IH]; simpl; [done |]. by rewrite List.filter_app, IH.
Qed.

Lemma filter_bulletLines (defs : list string) :
  List.filter isBulletLine (map bulletLine defs) = map bulletLine defs.
Proof. induction defs as [|def defs IH]; simpl; [done | by rewrite IH]. Qed.

Lemma flat_map_Permutation_ext {A B : Type} (f g : A → list B) (l : list A) :
  (∀ x, f x ≡ₚ g x) → flat_map f l ≡ₚ flat_map g l.
Proof.
  intros Hfg. induction l as [|x l IH]; simpl; [done |]. by rewrite Hfg, IH.
Qed.

(** The lines of the definitions that [printEntries] prints in verbose
    mode are those of the groups. *)
Lemma printEntries_bulletLines {Laws : GoTextLaws T} (timingsFlag : bool)
    (entries : list DefinitionT) (timings : LookupTiming) :
  List.filter isBulletLine (printEntries true timingsFlag entries timings)
  ≡ₚ groupLines (groupEntries entries).
Proof.
  unfold printEntries, groupLines.
  rewrite !List.filter_app, filter_flat_map.
  replace (List.filter isBulletLine (if timingsFlag then _ else [])) with (@nil string)
    by (by destruct timingsFlag).
  simpl. rewrite app_nil_r.
  rewrite (map_range_permutation _ (groupEntries entries)).
  apply flat_map_Permutation_ext. intros [source posGroup].
  unfold printSource. simpl.
  replace (isBulletLine (if timingsFlag then _ else _)) with false
    by (by destruct timingsFlag).
  rewrite filter_flat_map, (map_range_permutation _ posGroup).
  apply flat_map_Permutation_ext. intros [pos defs].
  unfold printPos. simpl. by rewrite printDefs_from, filter_bulletLines.
Qed.

Section measure.

Context {V A : Type} (F : V → list A).

Lemma flat_map_insert (m : gmap string V) (k : string) (v : V) :
  flat_map (fun kv : string * V => F (snd kv)) (map_to_list (<[ k := v ]> m))
  ≡ₚ F v ++ flat_map (fun kv : string * V => F (snd kv)) (map_to_list (delete k m)).
Proof.
  rewrite <- insert_delete_eq.
  by rewrite (map_to_list_insert _ _ _ (lookup_delete_eq m k)).
Qed.

Lemma flat_map_lookup (m : gmap string V) (k : string) (v : V) :
  m !! k = Some v →
  flat_map (fun kv : string * V => F (snd kv)) (map_to_list m)
  ≡ₚ F v ++ flat_map (fun kv : string * V => F (snd kv)) (map_to_list (delete k m)).
Proof. intros Hk. by rewrite <- (map_to_list_delete _ _ _ Hk). Qed.

End measure.

Lemma groupLines_groupEntry (grouped : gmap string (gmap string (list string)))
    (entry : DefinitionT) :
  groupLines (groupEntry grouped entry)
  ≡ₚ groupLines grouped ++ [bulletLine (formatDefinition entry)].
Proof.
  rewrite groupEntry_insert. unfold groupLines, grouped_index.
  set (Fin := fun g : string * list string => map bulletLine (snd g)).
  set (Fout := fun inner : gmap string (list string) => flat_map Fin (map_to_list inner)).
  change (fun group : string * gmap string (list string) =>
            flat_map Fin (map_to_list (snd group)))
    with (fun group : string * gmap string (list string) => Fout (snd group)).
  rewrite (flat_map_insert Fout).
  assert (Hinner : ∀ inner : gmap string (list string),
            Fout (<[ PartOfSpeech entry :=
                       default [] (inner !! PartOfSpeech entry)
                       ++ [formatDefinition entry] ]> inner)
            ≡ₚ Fout inner ++ [bulletLine (formatDefinition entry)]).
  { intros inner. unfold Fout, Fin.
    rewrite (flat_map_insert (map bulletLine)).
    destruct (inner !! PartOfSpeech entry) as [old|] eqn:Hpos; simpl.
    - rewrite (flat_map_lookup (map bulletLine) inner _ _ Hpos).
      rewrite map_app. simpl. rewrite <- !app_assoc.
      apply Permutation_app_head, Permutation_app_comm.
    - rewrite (delete_id _ _ Hpos). apply Permutation_cons_append. }
  rewrite Hinner.
  destruct (grouped !! Source entry) as [inner|] eqn:Hsrc; simpl.
  - rewrite (flat_map_lookup Fout grouped _ _ Hsrc).
    rewrite <- !app_assoc. apply Permutation_app_head, Permutation_app_comm.
  - rewrite (delete_id _ _ Hsrc). unfold Fout at 1. rewrite map_to_list_empty. simpl.
    apply Permutation_cons_append.
Qed.

Lemma groupLines_groupEntries (entries : list DefinitionT) :
  groupLines (groupEntries entries)
  ≡ₚ map (fun d => bulletLine (formatDefinition d)) entries.
Proof.
  induction entries as [|entry entries IH] using rev_ind.
  - unfold groupLines, groupEntries. simpl. by rewrite map_to_list_empty.
  - by rewrite groupEntries_snoc, groupLines_groupEntry, IH, map_app.
Qed.

(** The lines of definitions that [printEntries] prints in verbose mode
    are the lines of the entries, in some order. *)
Lemma printEntries_verbose_bulletLines {Laws : GoTextLaws T} (timingsFlag : bool)
    (entries : list DefinitionT) (timings : LookupTiming) :
  List.filter isBulletLine (printEntries true timingsFlag entries timings)
  ≡ₚ map (fun d => bulletLine (formatDefinition d)) entries.
Proof. by rewrite printEntries_bulletLines, groupLines_groupEntries. Qed.

End print_facts.

(** ** The command line: what verbose mode prints *)

Section verbose_facts.

Context {L : GoLib} {T : GoText} {Laws : GoTextLaws T}.

Lemma preamble_no_bulletLine (caller : option string) (word : string) (fs : FS) :
  List.filter isBulletLine (preamble caller word fs) = [].
Proof.
  unfold preamble, recordFailure.
  by destruct (snd (fst (addRecentSearch caller word fs))).
Qed.

(** [HandleInput] in verbose mode, on an input that is not blank: when
    the lookup returns no error, every definition it returns is printed,
    once, so the lines of definitions printed are the lines of the
    entries in some order, whatever the order in which the maps are
    visited (and there is none when the lookup found nothing); when the
    lookup returns an error, no line of a definition is printed, whatever
    definitions came with the error. *)
Theorem HandleInput_verbose_all (caller : option string) (w : World)
    (input : string) (timingsFlag : bool) (fs : FS) :
  let word := strings_ToLower (strings.TrimSpace input) in
  let result := LookupAll (world_net w) (world_clock w) (world_sched w) word in
  word ≠ EmptyString →
  (snd result = None →
   List.filter isBulletLine (fst (HandleInput caller w input true timingsFlag fs))
   ≡ₚ map (fun d => bulletLine (formatDefinition d)) (fst (fst result)))
  ∧ (snd result ≠ None →
     List.filter isBulletLine (fst (HandleInput caller w input true timingsFlag fs))
     = []).
Proof.
  intros word result Hne. subst result.
  pose proof (preamble_no_bulletLine caller word fs) as Hpre.
  unfold preamble, recordFailure in Hpre.
  unfold HandleInput. fold word.
  destruct (String.eqb_spec word EmptyString); [done |].
  destruct (addRecentSearch caller word fs) as [[bytes err] fs'].
  destruct (LookupAll _ _ _ word) as [[entries timings] err'].
  cbn [fst snd] in *. split.
  - intros ->. destruct entries as [|entry entries].
    + cbn [List.length Nat.eqb fst]. rewrite List.filter_app, Hpre. done.
    + cbn [List.length Nat.eqb fst]. rewrite List.filter_app, Hpre.
      cbn [app]. apply printEntries_verbose_bulletLines.
  - intros Herr. destruct err' as [e|]; [|done].
    cbn [fst]. rewrite List.filter_app, Hpre. done.
Qed.

End verbose_facts.

(** ** The command line: the interactive loop and the earlier form *)

Section loop_facts.

Context {L : GoLib} {T : GoText}.

(** [ReadString] returns the first complete line of the input, or what
    is left with [io.EOF] when there is none. *)
Lemma ReadString_inputLines (stdin : string) :
  match fst (inputLines stdin) with
  | line :: lines =>
    ∃ rest, ReadString stdin = (line, None, rest)
            ∧ inputLines rest = (lines, snd (inputLines stdin))
  | [] =>
    ReadString stdin = (stdin, Some io_EOF, EmptyString)
    ∧ snd (inputLines stdin) = stdin
  end.
Proof.
  induction stdin as [|c stdin IH]; simpl; [done |].
  destruct (inputLines stdin) as [lines tail] eqn:Hlines. simpl in IH.
  destruct (Ascii.eqb c (ascii_of_nat 10)); simpl.
  - by exists stdin.
  - destruct lines as [|line lines]; simpl.
    + destruct IH as [-> ->]. done.
    + destruct IH as (rest & -> & Hrest). by exists rest.
Qed.

Lemma interactiveTurn_continue (caller : option string) (w : World)
    (input : string) (error : option error) (verbose timings : bool) (fs : FS) :
  snd (interactiveTurn caller w input error verbose timings fs)
  = match error with
    | Some _ => true
    | None => negb (isQuit input)
    end.
Proof.
  unfold interactiveTurn, isQuit. destruct error; [done |].
  destruct (_ || _); [done |]. simpl.
  destruct (_ || _).
  - by destruct (getRecentSearches caller fs) as [history [e|]].
  - by destruct (HandleInput _ _ _ _ _ _).
Qed.

(** [RunInteractive] leaves its loop within [fuel] turns exactly when one
    of the first [fuel] complete lines of the input is [:q] or [:quit]
    after trimming.  So the loop never ends on an input without such a
    line, and bytes after the last newline are never taken as a command. *)
Theorem RunInteractive_quits_iff (fuel : nat) (caller : option string)
    (worlds : nat → World) (i : nat) (stdin : string) (verbose timings : bool)
    (fs : FS) :
  snd (RunInteractive fuel caller worlds i stdin verbose timings fs) = true
  ↔ ∃ n line, (n < fuel)%nat
              ∧ fst (inputLines stdin) !! n = Some line
              ∧ isQuit line = true.
Proof.
  revert i stdin fs. induction fuel as [|fuel IH]; intros i stdin fs.
  - simpl. split; [done |]. intros (n & line & Hn & _). lia.
  - cbn [RunInteractive].
    pose proof (ReadString_inputLines stdin) as Hread.
    destruct (fst (inputLines stdin)) as [|line lines] eqn:Hlines.
    + destruct Hread as [-> _].
      pose proof (interactiveTurn_continue caller (worlds i) stdin (Some io_EOF)
                    verbose timings fs) as Hc.
      destruct (interactiveTurn _ _ _ _ _ _ _) as [[out fs'] continue].
      simpl in Hc. subst continue.
      specialize (IH (S i) EmptyString fs').
      destruct (RunInteractive fuel _ _ _ _ _ _ _) as [[[out' fs''] stdin'] quit].
      simpl in *. rewrite IH. split.
      * intros (n & l & _ & Hl & _). by destruct n.
      * intros (n & l & _ & Hl & _). by destruct n.
    + destruct Hread as (rest & -> & Hrest).
      pose proof (interactiveTurn_continue caller (worlds i) line None
                    verbose timings fs) as Hc.
      destruct (interactiveTurn _ _ _ _ _ _ _) as [[out fs'] continue].
      simpl in Hc. subst continue.
      destruct (isQuit line) eqn:Hquit; simpl.
      * split; [|done]. intros _. exists 0%nat, line. split; [lia | done].
      * specialize (IH (S i) rest fs'). rewrite Hrest in IH. simpl in IH.
        destruct (RunInteractive fuel _ _ _ _ _ _ _) as [[[out' fs''] stdin'] quit].
        simpl in *. rewrite IH. split.
        -- intros (n & l & Hn & Hl & Hq). exists (S n), l. split; [lia | done].
        -- intros (n & l & Hn & Hl & Hq). destruct n as [|n].
           ++ simpl in Hl. injection Hl as <-. congruence.
           ++ exists n, l. split; [lia | done].
Qed.

(** Once the input has come to its end, every turn prints the prompts
    and the error of the read, changes nothing on disk and goes on: the
    loop does not end. *)
Theorem RunInteractive_at_EOF (fuel : nat) (caller : option string)
    (worlds : nat → World) (i : nat) (verbose timings : bool) (fs : FS) :
  RunInteractive fuel caller worlds i EmptyString verbose timings fs
  = (concat (repeat (prompts
                      ++ [("Error reading input: " ++ error_Error io_EOF ++ nl)%string])
                    fuel),
     fs, EmptyString, false).
Proof.
  revert i. induction fuel as [|fuel IH]; intros i; [done |].
  cbn [RunInteractive ReadString interactiveTurn]. rewrite IH.
  cbn [repeat concat]. by rewrite <- !app_assoc.
Qed.

(** The command [:hist] (or [:history]) prints the history as a list in
    brackets when it can be read; when it cannot, it prints the text
    [<nil>] in the place of the error, whatever the error is.  It looks
    nothing up and leaves the disk as it is. *)
Theorem interactiveTurn_history (caller : option string) (w : World)
    (input : string) (verbose timings : bool) (fs : FS) :
  strings.TrimSpace input = ":hist" ∨ strings.TrimSpace input = ":history" →
  interactiveTurn caller w input None verbose timings fs
  = (match getRecentSearches caller fs with
     | (history, None) => [("History: " ++ format_strings history ++ nl)%string]
     | (_, Some _) => [("Unexpected JSON/filepath error: <nil>" ++ nl)%string]
     end, fs, true).
Proof.
  intros Hcmd. unfold interactiveTurn.
  assert (Hq : String.eqb (strings.TrimSpace input) ":q"
               || String.eqb (strings.TrimSpace input) ":quit" = false)
    by (by destruct Hcmd as [-> | ->]).
  assert (Hh : String.eqb (strings.TrimSpace input) ":hist"
               || String.eqb (strings.TrimSpace input) ":history" = true)
    by (by destruct Hcmd as [-> | ->]).
  rewrite Hq, Hh.
  by destruct (getRecentSearches caller fs) as [history [e|]].
Qed.

(** The earlier form of [HandleInput] prints what the present form prints
    with the timings asked for, except for the line about a search that
    could not be recorded, which only the present form has. *)
Theorem HandleInput_extends_Part002 (caller : option string) (w : World)
    (input : string) (verbose : bool) (fs : FS) :
  fst (HandleInput caller w input verbose true fs)
  = (if String.eqb (strings_ToLower (strings.TrimSpace input)) EmptyString then []
     else recordFailure caller (strings_ToLower (strings.TrimSpace input)) fs)
    ++ Part002.HandleInput w input verbose.
Proof.
  unfold HandleInput, Part002.HandleInput, recordFailure.
  destruct (String.eqb _ EmptyString); [done |].
  destruct (addRecentSearch caller _ fs) as [[bytes err] fs']. simpl.
  destruct (LookupAll _ _ _ _) as [[entries timings] [e|]].
  - by rewrite <- app_assoc.
  - destruct (List.length entries =? 0)%nat; [by rewrite <- app_assoc |].
    by rewrite <- !app_assoc.
Qed.

(** Both forms of the interactive loop read the same lines and leave at
    the same line: they have left after the same number of turns, with the
    same input left unread. *)
Theorem RunInteractive_same_reads (fuel : nat) (caller : option string)
    (worlds : nat → World) (i : nat) (stdin : string) (verbose timings : bool)
    (fs : FS) :
  let '(_, _, rest, quit) :=
    RunInteractive fuel caller worlds i stdin verbose timings fs in
  let '(_, rest', quit') := Part002.RunInteractive fuel worlds i stdin verbose in
  rest = rest' ∧ quit = quit'.
Proof.
  revert i stdin fs. induction fuel as [|fuel IH]; intros i stdin fs; [done |].
  cbn [RunInteractive Part002.RunInteractive].
  destruct (ReadString stdin) as [[input error] stdin'].
  pose proof (interactiveTurn_continue caller (worlds i) input error
                verbose timings fs) as Hc.
  destruct (interactiveTurn _ _ _ _ _ _ _) as [[out fs'] continue].
  simpl in Hc. subst continue. unfold isQuit.
  destruct error as [e|].
  - specialize (IH (S i) stdin' fs').
    destruct (RunInteractive fuel _ _ _ _ _ _ _) as [[[out' fs''] rest] quit].
    by destruct (Part002.RunInteractive fuel _ _ _ _) as [[out2 rest'] quit'].
  - destruct (_ || _); simpl; [done |].
    specialize (IH (S i) stdin' fs').
    destruct (RunInteractive fuel _ _ _ _ _ _ _) as [[[out' fs''] rest] quit].
    by destruct (Part002.RunInteractive fuel _ _ _ _) as [[out2 rest'] quit'].
Qed.

End loop_facts.

(** ** The command line on concrete worlds *)

(** The small instance visits a map in the order of [map_to_list]. *)
Lemma miniText_laws : GoTextLaws miniText.
Proof. split. intros V m. reflexivity. Qed.

Example three_blanks : ascii_blank "   ".
Proof.
  intros [|[|[|i]]] c; simpl; intros [= <-]; reflexivity.
Qed.

Lemma HandleInput_blank_witness :
  HandleInput (L:=miniLib) (T:=miniText) (Some sourceFile) bothAnswerWorld "   "
    false true emptyDisk
  = ([("No input provided." ++ nl)%string], emptyDisk).
Proof.
  apply (HandleInput_blank (L:=miniLib) (T:=miniText)).
  - reflexivity.
  - exact three_blanks.
Defined.

Lemma HandleInput_records_search_witness :
  getRecentSearches (L:=miniLib) (Some sourceFile)
    (snd (HandleInput (L:=miniLib) (T:=miniText) (Some sourceFile) secondTimesOutWorld
            "  Bank " false true emptyDisk))
  = (["bank"], None).
Proof.
  apply (HandleInput_records_search (L:=miniLib) (T:=miniText) sourceFile
           secondTimesOutWorld "  Bank " false true emptyDisk []).
  - by vm_compute.
  - apply not_elem_of_empty.
  - apply not_elem_of_empty.
  - by vm_compute.
  - exists ("[" ++ dq ++ "bank" ++ dq ++ "]")%string. split; by vm_compute.
Defined.

Lemma HandleInput_without_entries_witness :
  fst (HandleInput (L:=miniLib) (T:=miniText) (Some sourceFile) secondTimesOutWorld
         "  Bank " true true emptyDisk)
  = [("Handling input: bank" ++ nl)%string;
     ("Error looking up word: context deadline exceeded" ++ nl)%string].
Proof.
  pose proof (HandleInput_without_entries (L:=miniLib) (T:=miniText) (Some sourceFile)
                secondTimesOutWorld "  Bank " true true emptyDisk) as H.
  cbv zeta in H.
  destruct H as [Herr _]; [by vm_compute |].
  rewrite (Herr (NetError "context deadline exceeded")); by vm_compute.
Defined.

Lemma HandleInput_verbose_all_witness :
  List.filter isBulletLine
    (fst (HandleInput (L:=miniLib) (T:=miniText) (Some sourceFile) bothAnswerWorld
            "  Bank " true false emptyDisk))
  ≡ₚ [bulletLine "the land alongside a river"; bulletLine "a financial institution"]
  ∧ List.filter isBulletLine
      (fst (HandleInput (L:=miniLib) (T:=miniText) (Some sourceFile) secondTimesOutWorld
              "  Bank " true false emptyDisk))
    = [].
Proof.
  split.
  - pose proof (HandleInput_verbose_all (L:=miniLib) (T:=miniText) (Laws:=miniText_laws)
                  (Some sourceFile) bothAnswerWorld "  Bank " false emptyDisk) as H.
    cbv zeta in H.
    destruct H as [Hok _]; [by vm_compute |].
    rewrite Hok by (by vm_compute). by vm_compute.
  - pose proof (HandleInput_verbose_all (L:=miniLib) (T:=miniText) (Laws:=miniText_laws)
                  (Some sourceFile) secondTimesOutWorld "  Bank " false emptyDisk) as H.
    cbv zeta in H.
    destruct H as [_ Herr]; [by vm_compute |].
    apply Herr. by vm_compute.
Defined.

Lemma interactiveTurn_history_witness :
  interactiveTurn (L:=miniLib) (T:=miniText) (Some sourceFile) bothAnswerWorld
    (":hist" ++ nl) None false false corruptDisk
  = ([("Unexpected JSON/filepath error: <nil>" ++ nl)%string], corruptDisk, true)
  ∧ interactiveTurn (L:=miniLib) (T:=miniText) (Some sourceFile) bothAnswerWorld
      (":history" ++ nl) None false false oldDisk
    = ([("History: [first]" ++ nl)%string], oldDisk, true).
Proof.
  assert (Hcorrupt : getRecentSearches (L:=miniLib) (Some sourceFile) corruptDisk
                     = ([], Some (JSONError "unexpected end of JSON input")))
    by (by vm_compute).
  assert (Hold : getRecentSearches (L:=miniLib) (Some sourceFile) oldDisk
                 = (["first"], None))
    by (by vm_compute).
  split.
  - rewrite (interactiveTurn_history (L:=miniLib) (T:=miniText)) by (left; by vm_compute).
    by rewrite Hcorrupt.
  - rewrite (interactiveTurn_history (L:=miniLib) (T:=miniText)) by (right; by vm_compute).
    by rewrite Hold.
Defined.

Example RunInteractive_session :
  let '(out, fs, rest, quit) :=
    RunInteractive (L:=miniLib) (T:=miniText) 5 (Some sourceFile)
      (fun _ => secondTimesOutWorld) 0
      ("Bank" ++ nl ++ ":hist" ++ nl ++ " :q " ++ nl ++ "rest") false false emptyDisk in
  out = prompts
        ++ [("Handling input: bank" ++ nl)%string;
            ("Error looking up word: context deadline exceeded" ++ nl)%string]
        ++ prompts ++ [("History: [bank]" ++ nl)%string]
        ++ prompts ++ [("Exiting..." ++ nl)%string]
  ∧ rest = "rest" ∧ quit = true.
Proof. by vm_compute. Qed.

(** ** The first client on a well-formed array *)

Section array_facts.

Context {L : GoLib} {Laws : GoLibLaws L}.

Lemma decodeEntries_Elements (fuel : nat) (d d' : Decoder)
    (acc entries : list DictEntry) :
  Elements d entries d' →
  (Decoder_Buffered d ≤ fuel)%nat →
  decodeEntries fuel d acc = Some (inl (acc ++ entries), d').
Proof.
  intros H. revert fuel acc.
  induction H as [d Hmore|d d1 d' entry entries Hmore Hdec H IH]; intros fuel acc Hfuel.
  - destruct fuel; simpl; by rewrite Hmore, app_nil_r.
  - pose proof (More_Buffered _ Hmore). pose proof (Decode_Buffered _ _ _ Hdec).
    destruct fuel as [|fuel]; [lia |]. simpl. rewrite Hmore, Hdec.
    rewrite IH by lia. by rewrite <- app_assoc.
Qed.

Lemma decodeEntries_ElementsFail (fuel : nat) (d : Decoder) (err : error)
    (acc : list DictEntry) :
  ElementsFail d err →
  (Decoder_Buffered d ≤ fuel)%nat →
  ∃ d', decodeEntries fuel d acc = Some (inr err, d').
Proof.
  intros H. revert fuel acc.
  induction H as [d d1 err Hmore Hdec|d d1 entry err Hmore Hdec H IH];
    intros fuel acc Hfuel; pose proof (More_Buffered _ Hmore).
  - destruct fuel as [|fuel]; [lia |]. simpl. rewrite Hmore, Hdec. by exists d1.
  - pose proof (Decode_Buffered _ _ _ Hdec).
    destruct fuel as [|fuel]; [lia |]. simpl. rewrite Hmore, Hdec.
    apply IH. lia.
Qed.

(** For an answer with status 200 whose body starts with the opening
    bracket, [LookupDictEntry] returns the elements of the array in their
    order when they all decode and the closing bracket is read, and no
    entry at all with the error of the decoder when an element fails to
    decode, even after others that decoded. *)
Theorem LookupDictEntry_decodes_array (net : Network) (word : string)
    (response : Response) (d0 : Decoder) :
  client_Get net
    ("https://api.dictionaryapi.dev/api/v2/entries/en/" ++ url.PathEscape word)%string
    = inl response →
  StatusCode response = 200 →
  Decoder_Token (json_NewDecoder (Body response)) = (inl (Delim "["), d0) →
  (∀ entries d1 token d2,
     Elements d0 entries d1 →
     Decoder_Token d1 = (inl token, d2) →
     LookupDictEntry net word = (entries, None))
  ∧ (∀ entries d1 err d2,
       Elements d0 entries d1 →
       Decoder_Token d1 = (inr err, d2) →
       LookupDictEntry net word = ([], Some err))
  ∧ (∀ err, ElementsFail d0 err → LookupDictEntry net word = ([], Some err)).
Proof.
  intros Hget Hok Htoken.
  rewrite (LookupDictEntry_response _ _ _ Hget), Hok. simpl.
  unfold decodeDictBody. rewrite Htoken. repeat split.
  - intros entries d1 token d2 Hel Hclose.
    rewrite (decodeEntries_Elements _ _ _ [] _ Hel) by done. simpl.
    by rewrite Hclose.
  - intros entries d1 err d2 Hel Hclose.
    rewrite (decodeEntries_Elements _ _ _ [] _ Hel) by done. simpl.
    by rewrite Hclose.
  - intros err Hfail.
    destruct (decodeEntries_ElementsFail (Decoder_Buffered d0) d0 err [] Hfail)
      as [d' ->]; done.
Qed.

End array_facts.

Lemma LookupDictEntry_decodes_array_witness :
  LookupDictEntry (L:=miniLib) answersBroken "bank"
  = ([], Some (JSONError "json: cannot unmarshal into Go value of type struct")).
Proof.
  destruct (LookupDictEntry_decodes_array (L:=miniLib) (Laws:=miniLib_laws)
              answersBroken "bank" (mkResponse 200 brokenDictBody)
              (snd (Decoder_Token (json_NewDecoder (GoLib:=miniLib) brokenDictBody))))
    as (_ & _ & Hfail); [reflexivity | reflexivity | by vm_compute |].
  apply Hfail.
  eapply ElementsFail_later; [by vm_compute | by vm_compute |].
  eapply ElementsFail_here; by vm_compute.
Defined.
